(** * ephemeral_buffers: a bounded pool of reusable byte buffers

    A shallow embedding of [ephemeral_buffers.go] (package
    [ephemeral_buffers]) and the properties of its pool bookkeeping.

    Go values are modelled as follows.
    - [int] values are integers of [Z].  The only arithmetic the package does
      on them is the [i++] of its loops, bounded by the length of a slice, so
      no operation can leave the 64-bit range.
    - A [*Buffer] is the address of a [Buffer] in the store of the world;
      a [*Pool] is nil or the address of the one [Pool] the program created.
    - The buffered channel [buffersAvailable] is a FIFO queue with a capacity.
    - [sync.Mutex] is a boolean; [time.Time] is a number of nanoseconds.
    - The zerolog sink is the list of the events logged so far.
    - A method is a computation over the world that returns, blocks (a
      channel operation or [Lock] that cannot proceed) or panics. *)

From Stdlib Require Import ZArith Lia.
From Stdlib.Strings Require Import Byte.
From stdpp Require Import base numbers list strings option relations.

Local Open Scope Z_scope.

(** ** Data *)

(** A [*Buffer]: the address of a Buffer in the store. *)
Abbreviation handle := nat (only parsing).

(** A [*Pool]. *)
Inductive PoolPtr := nilPool | thePool.

(** The part of [bytes.Buffer] the package observes: the unread bytes and
    the capacity of the backing array. *)
Record bytes_Buffer := mkBytes {
  bytes_data : list byte;
  bytes_cap : Z
}.

Record Buffer := mkBuffer {
  Buffer_bytes : bytes_Buffer;
  pool : PoolPtr;
  index : Z;
  origSize : Z;
  acquiredAt : Z;
  tag : string
}.

(** [chan *Buffer] with a buffer of [chan_cap] elements. *)
Record Chan := mkChan {
  chan_buf : list handle;
  chan_cap : Z
}.

(** [ctx] only carries the logger and is left out: the log is in the world. *)
Record Pool := mkPool {
  size : Z;
  count : Z;
  lock : bool;
  buffersAvailable : Chan;
  buffersInUse : list (option handle)
}.

Inductive Event :=
| ErrorInvalidArguments
| WarnAllocated (tag : string) (allocated requested : Z)
| WarnHeld (tag : string) (held : Z)
| DebugMonitorExiting.

Record World := mkWorld {
  thepool : option Pool;
  buffers : list Buffer;
  clock : Z;
  logged : list Event
}.

Definition emptyWorld : World := mkWorld None [] 0 [].

(** Field assignments. *)
Definition set_bytes (x : bytes_Buffer) (b : Buffer) : Buffer :=
  mkBuffer x (pool b) (index b) (origSize b) (acquiredAt b) (tag b).
Definition set_index (x : Z) (b : Buffer) : Buffer :=
  mkBuffer (Buffer_bytes b) (pool b) x (origSize b) (acquiredAt b) (tag b).
Definition set_origSize (x : Z) (b : Buffer) : Buffer :=
  mkBuffer (Buffer_bytes b) (pool b) (index b) x (acquiredAt b) (tag b).
Definition set_acquiredAt (x : Z) (b : Buffer) : Buffer :=
  mkBuffer (Buffer_bytes b) (pool b) (index b) (origSize b) x (tag b).
Definition set_tag (x : string) (b : Buffer) : Buffer :=
  mkBuffer (Buffer_bytes b) (pool b) (index b) (origSize b) (acquiredAt b) x.

Definition set_count (x : Z) (P : Pool) : Pool :=
  mkPool (size P) x (lock P) (buffersAvailable P) (buffersInUse P).
Definition set_lock (x : bool) (P : Pool) : Pool :=
  mkPool (size P) (count P) x (buffersAvailable P) (buffersInUse P).
Definition set_buffersAvailable (x : Chan) (P : Pool) : Pool :=
  mkPool (size P) (count P) (lock P) x (buffersInUse P).
Definition set_buffersInUse (x : list (option handle)) (P : Pool) : Pool :=
  mkPool (size P) (count P) (lock P) (buffersAvailable P) x.

Definition set_thepool (x : option Pool) (w : World) : World :=
  mkWorld x (buffers w) (clock w) (logged w).
Definition set_buffers (x : list Buffer) (w : World) : World :=
  mkWorld (thepool w) x (clock w) (logged w).
Definition set_clock (x : Z) (w : World) : World :=
  mkWorld (thepool w) (buffers w) x (logged w).
Definition set_logged (x : list Event) (w : World) : World :=
  mkWorld (thepool w) (buffers w) (clock w) x.

(** ** Computations *)

Inductive Outcome (A : Type) : Type :=
| Done (a : A) (w : World)
| Blocked (w : World)
| Panicked (w : World).
Arguments Done {A} a w.
Arguments Blocked {A} w.
Arguments Panicked {A} w.

Definition M (A : Type) : Type := World -> Outcome A.

Definition ret {A} (a : A) : M A := fun w => Done a w.

Definition bind {A B} (m : M A) (k : A -> M B) : M B :=
  fun w =>
    match m w with
    | Done a w' => k a w'
    | Blocked w' => Blocked w'
    | Panicked w' => Panicked w'
    end.

Definition block {A} : M A := fun w => Blocked w.
Definition panic {A} : M A := fun w => Panicked w.

Declare Scope go_scope.
Delimit Scope go_scope with go.
Notation "x <- m ; k" := (bind m (fun x => k))
  (at level 20, m at level 100, k at level 200, only parsing) : go_scope.
Notation "m ;; k" := (bind m (fun _ => k))
  (at level 100, k at level 200, only parsing, right associativity) : go_scope.
Local Open Scope go_scope.

(** Dereference of a [*Pool]: a nil pointer panics. *)
Definition deref (p : PoolPtr) : M Pool :=
  fun w =>
    match p, thepool w with
    | thePool, Some P => Done P w
    | _, _ => Panicked w
    end.

Definition modPool (p : PoolPtr) (f : Pool -> Pool) : M unit :=
  P <- deref p ; fun w => Done tt (set_thepool (Some (f P)) w).

(** Dereference of a [*Buffer]; an address that holds no Buffer is nil. *)
Definition load (eb : handle) : M Buffer :=
  fun w =>
    match buffers w !! eb with
    | Some b => Done b w
    | None => Panicked w
    end.

Definition modBuf (eb : handle) (f : Buffer -> Buffer) : M unit :=
  b <- load eb ; fun w => Done tt (set_buffers (<[eb := f b]> (buffers w)) w).

(** [&Buffer{...}]: a new Buffer at the next address. *)
Definition alloc (b : Buffer) : M handle :=
  fun w => Done (length (buffers w)) (set_buffers (buffers w ++ [b]) w).

(** [&p] for the Pool a constructor builds. *)
Definition allocPool (P : Pool) : M PoolPtr :=
  fun w => Done thePool (set_thepool (Some P) w).

Definition emit (e : Event) : M unit :=
  fun w => Done tt (set_logged (logged w ++ [e]) w).

Definition time_Now : M Z := fun w => Done (clock w) w.

Definition time_Sleep (d : Z) : M unit :=
  fun w => Done tt (set_clock (clock w + d) w).

Definition Millisecond : Z := 1000000.
Definition Second : Z := 1000 * Millisecond.

(** [p.lock.Lock()] and [p.lock.Unlock()]. *)
Definition Lock (p : PoolPtr) : M unit :=
  P <- deref p ;
  if lock P then block else modPool p (set_lock true).

Definition Unlock (p : PoolPtr) : M unit :=
  P <- deref p ;
  if lock P then modPool p (set_lock false) else panic.

(** [<-p.buffersAvailable]: blocks while the channel is empty. *)
Definition recv (p : PoolPtr) : M handle :=
  P <- deref p ;
  match chan_buf (buffersAvailable P) with
  | [] => block
  | eb :: q =>
      modPool p (set_buffersAvailable (mkChan q (chan_cap (buffersAvailable P)))) ;;
      ret eb
  end.

(** [p.buffersAvailable <- eb]: blocks while the channel is full. *)
Definition send (p : PoolPtr) (eb : handle) : M unit :=
  P <- deref p ;
  let c := buffersAvailable P in
  if Z.of_nat (length (chan_buf c)) <? chan_cap c
  then modPool p (set_buffersAvailable (mkChan (chan_buf c ++ [eb]) (chan_cap c)))
  else block.

(** ** bytes.Buffer *)

Definition bytes_zero : bytes_Buffer := mkBytes [] 0.
Definition bytes_Len (b : bytes_Buffer) : Z := Z.of_nat (length (bytes_data b)).
Definition bytes_Cap (b : bytes_Buffer) : Z := bytes_cap b.
Definition bytes_Reset (b : bytes_Buffer) : bytes_Buffer := mkBytes [] (bytes_cap b).

Definition Cap (b : Buffer) : Z := bytes_Cap (Buffer_bytes b).
Definition Len (b : Buffer) : Z := bytes_Len (Buffer_bytes b).
Definition Reset (b : Buffer) : Buffer := set_bytes (bytes_Reset (Buffer_bytes b)) b.

Section EphemeralBuffers.

(** The allocation policy of [bytes.Buffer] belongs to the Go library and
    runtime: [growCap c l n] is the capacity a buffer of capacity [c] holding
    [l] bytes has after it made room for [n] more. *)
Variable growCap : Z -> Z -> Z -> Z.

Definition bytes_Grow (n : Z) (b : bytes_Buffer) : bytes_Buffer :=
  mkBytes (bytes_data b) (growCap (bytes_cap b) (bytes_Len b) n).

Definition bytes_Write (p : list byte) (b : bytes_Buffer) : bytes_Buffer :=
  mkBytes (bytes_data b ++ p)
          (growCap (bytes_cap b) (bytes_Len b) (Z.of_nat (length p))).

(** [eb.Write(p)], promoted from the embedded bytes.Buffer. *)
Definition Write (eb : handle) (p : list byte) : M Z :=
  modBuf eb (fun b => set_bytes (bytes_Write p (Buffer_bytes b)) b) ;;
  ret (Z.of_nat (length p)).

(** ** The package *)

Definition isNil (p : PoolPtr) : bool :=
  match p with nilPool => true | thePool => false end.

Definition Release (eb : handle) : M unit :=
  b <- load eb ;
  if isNil (pool b) then ret tt else
  (if Cap b >? origSize b
   then P <- deref (pool b) ;
        emit (WarnAllocated (tag b) (Cap b) (size P)) ;;
        modBuf eb (set_origSize (Cap b))
   else ret tt) ;;
  Lock (pool b) ;;
  P <- deref (pool b) ;
  (if (0 <=? index b) && (index b <? Z.of_nat (length (buffersInUse P)))
   then modPool (pool b)
          (set_buffersInUse (<[Z.to_nat (index b) := None]> (buffersInUse P)))
   else panic) ;;
  Unlock (pool b) ;;
  modBuf eb (set_index (-1)) ;;
  modBuf eb (set_tag EmptyString) ;;
  modBuf eb Reset ;;
  send (pool b) eb.

(** [for i := range l { if l[i] == nil { ...; break } }]: the index the loop
    of Acquire stops at, counting from [i]. *)
Fixpoint firstFree (l : list (option handle)) (i : Z) : option Z :=
  match l with
  | [] => None
  | None :: _ => Some i
  | Some _ :: l' => firstFree l' (i + 1)
  end.

Definition Acquire (p : PoolPtr) (tag : string) : M (option handle) :=
  P <- deref p ;
  if (size P =? 0) || (count P =? 0) then ret None else
  eb <- recv p ;
  Lock p ;;
  P <- deref p ;
  match firstFree (buffersInUse P) 0 with
  | Some i =>
      modPool p (set_buffersInUse (<[Z.to_nat i := Some eb]> (buffersInUse P))) ;;
      modBuf eb (set_index i)
  | None => ret tt
  end ;;
  Unlock p ;;
  modBuf eb (set_tag tag) ;;
  now <- time_Now ;
  modBuf eb (set_acquiredAt now) ;;
  ret (Some eb).

(** [for i := 0; i < count; i++ { <-p.buffersAvailable }] *)
Fixpoint drain (p : PoolPtr) (n : nat) : M unit :=
  match n with
  | O => ret tt
  | S n' => _ <- recv p ; drain p n'
  end.

Definition Free (p : PoolPtr) : M unit :=
  P <- deref p ;
  if (size P =? 0) || (count P =? 0) then ret tt else
  let count0 := count P in
  Lock p ;;
  modPool p (set_count 0) ;;
  Unlock p ;;
  drain p (Z.to_nat count0) ;;
  modPool p (set_buffersInUse []).

(** [for _, b := range l { if b == nil { i++ } }] *)
Fixpoint countFree (l : list (option handle)) (i : Z) : Z :=
  match l with
  | [] => i
  | None :: l' => countFree l' (i + 1)
  | Some _ :: l' => countFree l' i
  end.

Definition BuffersAvailable (p : PoolPtr) : M Z :=
  P <- deref p ;
  if (size P =? 0) || (count P =? 0) then ret 0 else
  Lock p ;;
  P <- deref p ;
  let i := countFree (buffersInUse P) 0 in
  Unlock p ;;
  ret i.

(** The loop of NewPool that creates the buffers and queues them. *)
Fixpoint fill (p : PoolPtr) (size : Z) (n : nat) : M unit :=
  match n with
  | O => ret tt
  | S n' =>
      let buf := bytes_Grow size bytes_zero in
      ebuf <- alloc (mkBuffer buf p 0 size 0 EmptyString) ;
      send p ebuf ;;
      fill p size n'
  end.

(** [go p.poolMonitor()] starts the watchdog thread and changes nothing. *)
Definition NewPool (count size : Z) : M PoolPtr :=
  if (count <=? 0) || (size <=? 0)
  then emit ErrorInvalidArguments ;; ret nilPool
  else
    p <- allocPool (mkPool size count false (mkChan [] 0) []) ;
    modPool p (set_buffersInUse (replicate (Z.to_nat count) None)) ;;
    modPool p (set_buffersAvailable (mkChan [] count)) ;;
    fill p size (Z.to_nat count) ;;
    ret p.

(** The inner loop of poolMonitor over [p.buffersInUse]. *)
Fixpoint scan (now : Z) (l : list (option handle)) : M unit :=
  match l with
  | [] => ret tt
  | None :: l' => scan now l'
  | Some eb :: l' =>
      b <- load eb ;
      (if acquiredAt b + 100 * Millisecond <? now
       then t <- time_Now ; emit (WarnHeld (tag b) (t - acquiredAt b))
       else ret tt) ;;
      scan now l'
  end.

(** One turn of the [for] of poolMonitor, up to its [time.Sleep]:
    [false] when the function returns, [true] when it goes on to sleep. *)
Definition poolMonitor_iter (p : PoolPtr) : M bool :=
  Lock p ;;
  P <- deref p ;
  if count P =? 0
  then Unlock p ;; emit DebugMonitorExiting ;; ret false
  else
    now <- time_Now ;
    scan now (buffersInUse P) ;;
    Unlock p ;;
    ret true.

(** poolMonitor when no other thread runs: at most [fuel] turns. *)
Fixpoint poolMonitor (p : PoolPtr) (fuel : nat) : M bool :=
  match fuel with
  | O => ret true
  | S fuel' =>
      again <- poolMonitor_iter p ;
      if again then time_Sleep (1 * Second) ;; poolMonitor p fuel'
      else ret false
  end.

(** ** Free, one blocking point at a time

    Free blocks in its drain loop while buffers are still out, and the
    callers release them meanwhile.  The thread that runs Free is followed
    through its program points. *)

Inductive FreePC :=
| FreeNotCalled
| FreeDraining (i count : Z)
| FreeReturned.

(** Free up to its drain loop: the value of the local [count], or [None] when
    the guard returned. *)
Definition Free_enter (p : PoolPtr) : M (option Z) :=
  P <- deref p ;
  if (size P =? 0) || (count P =? 0) then ret None else
  let count0 := count P in
  Lock p ;;
  modPool p (set_count 0) ;;
  Unlock p ;;
  ret (Some count0).

(** Free after its drain loop. *)
Definition Free_exit (p : PoolPtr) : M unit :=
  modPool p (set_buffersInUse []).

Definition Free_step (p : PoolPtr) (pc : FreePC) : M FreePC :=
  match pc with
  | FreeNotCalled =>
      r <- Free_enter p ;
      ret (match r with
           | None => FreeReturned
           | Some count0 => FreeDraining 0 count0
           end)
  | FreeDraining i count0 =>
      if i <? count0
      then _ <- recv p ; ret (FreeDraining (i + 1) count0)
      else Free_exit p ;; ret FreeReturned
  | FreeReturned => ret FreeReturned
  end.

(** ** The program around the pool

    The callers hold the handles Acquire gave them, one thread may run Free,
    and the watchdog runs until it returns.  Every method call is one step;
    Free is one step per program point.  The fields of Buffer are not
    exported and the package gives out handles through Acquire only, so
    Release and Write are called on handles that Acquire has returned,
    leased or not any more.  A call that blocks or panics is no step: a
    blocked caller waits, and a panic ends the program. *)

Record Sys := mkSys {
  world : World;
  held : list handle;
  freeing : FreePC;
  watching : bool
}.

Inductive step : Sys -> Sys -> Prop :=
| step_Acquire w hs pc m tag eb w' :
    Acquire thePool tag w = Done (Some eb) w' ->
    step (mkSys w hs pc m) (mkSys w' (eb :: hs) pc m)
| step_Acquire_nil w hs pc m tag w' :
    Acquire thePool tag w = Done None w' ->
    step (mkSys w hs pc m) (mkSys w' hs pc m)
| step_Release w hs pc m eb w' :
    eb ∈ hs ->
    Release eb w = Done tt w' ->
    step (mkSys w hs pc m) (mkSys w' hs pc m)
| step_Write w hs pc m eb data n w' :
    eb ∈ hs ->
    Write eb data w = Done n w' ->
    step (mkSys w hs pc m) (mkSys w' hs pc m)
| step_BuffersAvailable w hs pc m n w' :
    BuffersAvailable thePool w = Done n w' ->
    step (mkSys w hs pc m) (mkSys w' hs pc m)
| step_poolMonitor w hs pc again w' :
    poolMonitor_iter thePool w = Done again w' ->
    step (mkSys w hs pc true) (mkSys w' hs pc again)
| step_Free w hs pc m pc' w' :
    pc <> FreeReturned ->
    Free_step thePool pc w = Done pc' w' ->
    step (mkSys w hs pc m) (mkSys w' hs pc' m)
| step_tick w hs pc m d :
    0 <= d ->
    step (mkSys w hs pc m) (mkSys (set_clock (clock w + d) w) hs pc m).

(** The states of a program that starts with [NewPool(ctx, count, size)]. *)
Definition reachable (count size : Z) (s : Sys) : Prop :=
  exists p w0,
    NewPool count size emptyWorld = Done p w0 /\
    rtc step (mkSys w0 [] FreeNotCalled (negb (isNil p))) s.

End EphemeralBuffers.

(** ** Observations on a state *)

(** The handles in the slots of [buffersInUse], in slot order. *)
Definition occupied (l : list (option handle)) : list handle := omap id l.

Definition available (w : World) : list handle :=
  match thepool w with
  | Some P => chan_buf (buffersAvailable P)
  | None => []
  end.

Definition inUse (w : World) : list (option handle) :=
  match thepool w with
  | Some P => buffersInUse P
  | None => []
  end.

(** A buffer is leased when it is in a slot of [buffersInUse]. *)
Definition leased (w : World) (eb : handle) : Prop := Some eb ∈ inUse w.

(** The pool passes the guard of Acquire, Free and BuffersAvailable. *)
Definition valid (w : World) : Prop :=
  exists P, thepool w = Some P /\ size P <> 0 /\ count P <> 0.

Definition poolCount (w : World) : Z :=
  match thepool w with
  | Some P => count P
  | None => 0
  end.

(** ** What the methods leave behind *)

(** The buffer Release leaves in the store. *)
Definition released (b : Buffer) : Buffer :=
  mkBuffer (mkBytes [] (Cap b)) (pool b) (-1)
           (if Cap b >? origSize b then Cap b else origSize b) (acquiredAt b) EmptyString.

(** What Release logs for a buffer of a pool created with size [sz]. *)
Definition growthLog (sz : Z) (b : Buffer) : list Event :=
  if Cap b >? origSize b then [WarnAllocated (tag b) (Cap b) sz] else [].

(** The slots after Acquire has put [eb] in the first free one. *)
Definition claimSlot (eb : handle) (l : list (option handle)) : list (option handle) :=
  match firstFree l 0 with
  | Some i => <[Z.to_nat i := Some eb]> l
  | None => l
  end.

(** The buffer Acquire hands out at time [now]. *)
Definition acquired (tg : string) (now : Z) (l : list (option handle)) (b : Buffer) : Buffer :=
  mkBuffer (Buffer_bytes b) (pool b)
           (match firstFree l 0 with Some i => i | None => index b end)
           (origSize b) now tg.

(** What one scan of the watchdog logs at time [now]. *)
Fixpoint staleLog (bufs : list Buffer) (now : Z) (l : list (option handle)) : list Event :=
  match l with
  | [] => []
  | None :: l' => staleLog bufs now l'
  | Some eb :: l' =>
      match bufs !! eb with
      | Some b =>
          (if acquiredAt b + 100 * Millisecond <? now
           then [WarnHeld (tag b) (now - acquiredAt b)] else [])
          ++ staleLog bufs now l'
      | None => []
      end
  end.

(** The slots hold addresses of buffers. *)
Definition slots_ok (bufs : list Buffer) (l : list (option handle)) : Prop :=
  forall eb, Some eb ∈ l -> is_Some (bufs !! eb).

(** ** The invariant of the bookkeeping

    [N] is the count the pool was created with, [hs] the handles Acquire has
    given out and [dr] the handles Free has taken off the channel. *)
Record Core (N : Z) (hs dr : list handle) (P : Pool) (bufs : list Buffer) : Prop := {
  core_lock : lock P = false;
  core_size : 0 < size P;
  core_N : 0 < N;
  core_cap : chan_cap (buffersAvailable P) = N;
  core_len : Z.of_nat (length (buffersInUse P)) = N;
  core_bufs : Z.of_nat (length bufs) = N;
  core_perm :
    chan_buf (buffersAvailable P) ++ occupied (buffersInUse P) ++ dr
    ≡ₚ seq 0 (Z.to_nat N);
  core_slot : forall i eb,
    buffersInUse P !! i = Some (Some eb) ->
    exists b, bufs !! eb = Some b /\ index b = Z.of_nat i;
  core_idle : forall eb,
    eb ∈ chan_buf (buffersAvailable P) ++ dr ->
    exists b, bufs !! eb = Some b /\ tag b = EmptyString /\
              (index b = -1 \/ (index b = 0 /\ eb ∉ hs));
  core_held : forall eb, eb ∈ occupied (buffersInUse P) -> eb ∈ hs;
  core_pool : forall eb b, bufs !! eb = Some b -> pool b = thePool
}.

Definition Inv (N : Z) (s : Sys) : Prop :=
  exists P,
    thepool (world s) = Some P /\
    match freeing s with
    | FreeNotCalled =>
        count P = N /\ Core N (held s) [] P (buffers (world s))
    | FreeDraining i count0 =>
        count P = 0 /\ count0 = N /\
        exists dr, Z.of_nat (length dr) = i /\
                   Core N (held s) dr P (buffers (world s))
    | FreeReturned =>
        count P = 0 /\ lock P = false /\
        chan_buf (buffersAvailable P) = [] /\ buffersInUse P = [] /\
        forall eb b, buffers (world s) !! eb = Some b -> pool b = thePool
    end.

(** ** Callers of the test suite *)

(** The allocation policy of bytes.Buffer in the Go release the package was
    written for: a small first allocation is 64 bytes, a larger one exact,
    and a full buffer doubles. *)
Definition goGrow (c l n : Z) : Z :=
  if n <=? c - l then c
  else if (c =? 0) && (n <=? 64) then 64
  else 2 * c + n.

(** Acquire once for each tag, keeping the handles. *)
Fixpoint acquireAll (tags : list string) : M (list handle) :=
  match tags with
  | [] => ret []
  | tg :: tags' =>
      r <- Acquire thePool tg ;
      match r with
      | Some eb => ebs <- acquireAll tags' ; ret (eb :: ebs)
      | None => ret []
      end
  end.

(** Release each handle of the list. *)
Fixpoint releaseAll (ebs : list handle) : M unit :=
  match ebs with
  | [] => ret tt
  | eb :: ebs' => Release eb ;; releaseAll ebs'
  end.

Definition poolSize (w : World) : Z :=
  match thepool w with
  | Some P => size P
  | None => 0
  end.

(** The state a computation leaves, however it ends. *)
Definition after {A} (m : M A) (w : World) : World :=
  match m w with
  | Done _ w' => w'
  | Blocked w' => w'
  | Panicked w' => w'
  end.

(** A pool of two buffers of eight bytes, and the same pool with its first
    buffer leased. *)
Definition pool2 : World := after (NewPool goGrow 2 8) emptyWorld.
Definition pool2_leased : World := after (Acquire thePool "t") pool2.

(** ** The bookkeeping of the pool *)

Definition bookkeeping (w : World) : Prop :=
  Z.of_nat (length (available w)) + Z.of_nat (length (occupied (inUse w))) = poolCount w /\
  (forall eb, eb ∈ available w -> ~ leased w eb) /\
  (forall eb1 eb2 b1 b2,
     leased w eb1 -> leased w eb2 ->
     buffers w !! eb1 = Some b1 -> buffers w !! eb2 = Some b2 ->
     eb1 <> eb2 -> index b1 <> index b2).

(** The world after NewPool refused its arguments, and the pool of two
    buffers after Free. *)
Definition refused : World := after (NewPool goGrow 0 1000) emptyWorld.
Definition pool2_freed : World := after (Free thePool) pool2.

(** No buffer disappears and no high-water mark shrinks from one store to
    the other. *)
Definition bufs_mono (bufs bufs' : list Buffer) : Prop :=
  forall eb b, bufs !! eb = Some b ->
               exists b', bufs' !! eb = Some b' /\ origSize b <= origSize b'.


(** Assignments to the fields of the pool of a world. *)
Definition set_poolCount (x : Z) (w : World) : World :=
  match thepool w with
  | Some P => set_thepool (Some (set_count x P)) w
  | None => w
  end.

Definition set_queue (q : list handle) (w : World) : World :=
  match thepool w with
  | Some P =>
      set_thepool
        (Some (set_buffersAvailable (mkChan q (chan_cap (buffersAvailable P))) P)) w
  | None => w
  end.

Definition set_inUse (l : list (option handle)) (w : World) : World :=
  match thepool w with
  | Some P => set_thepool (Some (set_buffersInUse l P)) w
  | None => w
  end.

(** The events the watchdog logs. *)
Definition monitorEvent (e : Event) : Prop :=
  e = DebugMonitorExiting \/ exists tg d, e = WarnHeld tg d.


(** ** Further observations *)

(** What the watchdog logs in [turns] turns of its loop, one second apart,
    when no other thread runs meanwhile. *)
Fixpoint monitorLog (bufs : list Buffer) (l : list (option handle)) (now : Z)
    (turns : nat) : list Event :=
  match turns with
  | O => []
  | S n => staleLog bufs now l ++ monitorLog bufs l (now + 1 * Second) n
  end.

(** The number of exit messages of the watchdog in a log. *)
Fixpoint exitCount (lg : list Event) : nat :=
  match lg with
  | [] => O
  | DebugMonitorExiting :: lg' => S (exitCount lg')
  | _ :: lg' => exitCount lg'
  end.

(** An event is justified in a program that called [NewPool(ctx, N, sz)]. *)
Definition justified (N sz : Z) (e : Event) : Prop :=
  match e with
  | ErrorInvalidArguments => N <= 0 \/ sz <= 0
  | WarnAllocated _ allocated requested => requested = sz /\ sz < allocated
  | WarnHeld _ held => 100 * Millisecond < held
  | DebugMonitorExiting => 0 < N /\ 0 < sz
  end.

(** The buffers waiting in the queue are empty. *)
Definition queueClean (w : World) : Prop :=
  forall eb, eb ∈ available w ->
    exists b, buffers w !! eb = Some b /\ Len b = 0.

(** The contents of a buffer. *)
Definition Bytes (b : Buffer) : list byte := bytes_data (Buffer_bytes b).

(** The contract of [bytes.Buffer] the pool relies on: making room for [n]
    more bytes in a buffer of capacity [c] that holds [l] never shrinks the
    backing array, and leaves room for the [n] bytes. *)
Definition growsWell (growCap : Z -> Z -> Z -> Z) : Prop :=
  forall c l n, 0 <= l <= c -> 0 <= n ->
    c <= growCap c l n /\ l + n <= growCap c l n.

(** The world holds a valid pool of [N] buffers whose bookkeeping is
    consistent, [hs] being the handles Acquire has given out. *)
Definition Good (N : Z) (hs : list handle) (w : World) : Prop :=
  exists P, thepool w = Some P /\ count P = N /\ Core N hs [] P (buffers w).

(** States of the pool of two buffers: its first buffer leased and released;
    that buffer released a second time; one and both buffers leased; Free
    called; the watchdog having seen it; and the first buffer leased for
    one second. *)
Definition pool2_released : World :=
  Eval vm_compute in after (Release 0%nat) pool2_leased.
Definition pool2_panicked : World :=
  Eval vm_compute in after (Release 0%nat) pool2_released.
Definition pool2_half : World :=
  Eval vm_compute in after (Acquire thePool "a") pool2.
Definition pool2_full : World :=
  Eval vm_compute in after (Acquire thePool "b") pool2_half.
Definition pool2_freeing : World :=
  Eval vm_compute in after (Free_step thePool FreeNotCalled) pool2.
Definition pool2_stopped : World :=
  Eval vm_compute in after (poolMonitor_iter thePool) pool2_freeing.
Definition pool2_late : World :=
  Eval vm_compute in set_clock Second pool2_leased.

(** A world with one Buffer that belongs to no pool. *)
Definition stray : World :=
  mkWorld None [mkBuffer bytes_zero nilPool 0 0 0 EmptyString] 0 [].

(** The loop of TestOverflow.  [writeAll] is the inner loop of writes to the
    buffer, [round] one turn of the outer loop (Acquire, the writes,
    Release; a nil buffer makes the first write panic), [rounds] the outer
    loop over the data of each turn. *)
Fixpoint writeAll (growCap : Z -> Z -> Z -> Z) (eb : handle)
    (chunks : list (list byte)) : M unit :=
  match chunks with
  | [] => ret tt
  | p :: chunks' => _ <- Write growCap eb p ; writeAll growCap eb chunks'
  end.

Definition round (growCap : Z -> Z -> Z -> Z) (tg : string)
    (chunks : list (list byte)) : M unit :=
  r <- Acquire thePool tg ;
  match r with
  | Some eb => writeAll growCap eb chunks ;; Release eb
  | None => panic
  end.

Fixpoint rounds (growCap : Z -> Z -> Z -> Z) (tg : string)
    (data : list (list (list byte))) : M unit :=
  match data with
  | [] => ret tt
  | chunks :: data' => round growCap tg chunks ;; rounds growCap tg data'
  end.

(** The capacities the growth warnings of a log report, in log order. *)
Definition warnedCaps (lg : list Event) : list Z :=
  omap (fun e => match e with WarnAllocated _ a _ => Some a | _ => None end) lg.

(** Each number of the list is greater than the one before, the first
    greater than [lo]. *)
Fixpoint increasing (lo : Z) (l : list Z) : Prop :=
  match l with
  | [] => True
  | a :: l' => lo < a /\ increasing a l'
  end.

(** * Proofs *)

(** ** Running the methods *)

Ltac go_simpl :=
  cbv [bind ret block panic deref modPool load modBuf alloc allocPool emit
       time_Now time_Sleep Lock Unlock recv send isNil
       set_bytes set_index set_origSize set_acquiredAt set_tag
       set_count set_lock set_buffersAvailable set_buffersInUse
       set_thepool set_buffers set_clock set_logged Reset bytes_Reset];
  cbn [thepool buffers clock logged size count lock buffersAvailable
       buffersInUse chan_buf chan_cap Buffer_bytes pool index origSize
       acquiredAt tag bytes_data bytes_cap].

Ltac go_simpl_in H :=
  cbv [bind ret block panic deref modPool load modBuf alloc allocPool emit
       time_Now time_Sleep Lock Unlock recv send isNil
       set_bytes set_index set_origSize set_acquiredAt set_tag
       set_count set_lock set_buffersAvailable set_buffersInUse
       set_thepool set_buffers set_clock set_logged Reset bytes_Reset] in H;
  cbn [thepool buffers clock logged size count lock buffersAvailable
       buffersInUse chan_buf chan_cap Buffer_bytes pool index origSize
       acquiredAt tag bytes_data bytes_cap] in H.

Lemma Release_run bufs eb b sz cnt q cap inuse clk lg :
  bufs !! eb = Some b -> pool b = thePool ->
  Release eb (mkWorld (Some (mkPool sz cnt false (mkChan q cap) inuse)) bufs clk lg) =
  if (0 <=? index b) && (index b <? Z.of_nat (length inuse)) then
    if Z.of_nat (length q) <? cap then
      Done tt (mkWorld (Some (mkPool sz cnt false (mkChan (q ++ [eb]) cap)
                                   (<[Z.to_nat (index b) := None]> inuse)))
                       (<[eb := released b]> bufs) clk (lg ++ growthLog sz b))
    else
      Blocked (mkWorld (Some (mkPool sz cnt false (mkChan q cap)
                                   (<[Z.to_nat (index b) := None]> inuse)))
                       (<[eb := released b]> bufs) clk (lg ++ growthLog sz b))
  else
    Panicked (mkWorld (Some (mkPool sz cnt true (mkChan q cap) inuse))
                      (if Cap b >? origSize b then <[eb := set_origSize (Cap b) b]> bufs else bufs)
                      clk (lg ++ growthLog sz b)).
Proof.
  intros Hb Hp. unfold Release, released, growthLog.
  go_simpl. rewrite Hb. go_simpl. rewrite Hp. go_simpl.
  assert (Hlt : (eb < length bufs)%nat) by (by eapply lookup_lt_Some).
  destruct (Cap b >? origSize b) eqn:Hg; go_simpl; rewrite ?Hb; go_simpl;
  (destruct ((0 <=? index b) && (index b <? Z.of_nat (length inuse))) eqn:Hi; go_simpl).
  all: try (by rewrite ?Hp, ?app_nil_r).
  all: repeat (first [ rewrite Hb
                     | rewrite list_lookup_insert_eq by (by rewrite ?length_insert) ];
               go_simpl).
  all: rewrite ?list_insert_insert_eq.
  all: destruct (Z.of_nat (length q) <? cap); go_simpl.
  all: rewrite ?list_insert_insert_eq, ?app_nil_r, ?Hp.
  all: try done.
Qed.

Lemma Acquire_guard tg P bufs clk lg :
  (size P =? 0) || (count P =? 0) = true ->
  Acquire thePool tg (mkWorld (Some P) bufs clk lg) = Done None (mkWorld (Some P) bufs clk lg).
Proof. intros H. unfold Acquire. go_simpl. by rewrite H. Qed.

Lemma Acquire_empty tg sz cnt lk cap inuse bufs clk lg :
  (sz =? 0) || (cnt =? 0) = false ->
  Acquire thePool tg (mkWorld (Some (mkPool sz cnt lk (mkChan [] cap) inuse)) bufs clk lg)
  = Blocked (mkWorld (Some (mkPool sz cnt lk (mkChan [] cap) inuse)) bufs clk lg).
Proof. intros H. unfold Acquire. go_simpl. by rewrite H. Qed.

Lemma Acquire_run tg sz cnt eb q cap inuse bufs b clk lg :
  (sz =? 0) || (cnt =? 0) = false ->
  bufs !! eb = Some b ->
  Acquire thePool tg (mkWorld (Some (mkPool sz cnt false (mkChan (eb :: q) cap) inuse)) bufs clk lg)
  = Done (Some eb)
      (mkWorld (Some (mkPool sz cnt false (mkChan q cap) (claimSlot eb inuse)))
               (<[eb := acquired tg clk inuse b]> bufs) clk lg).
Proof.
  intros H Hb. unfold Acquire, claimSlot, acquired. go_simpl. rewrite H. go_simpl.
  assert (Hlt : (eb < length bufs)%nat) by (by eapply lookup_lt_Some).
  destruct (firstFree inuse 0) as [i|]; go_simpl.
  all: repeat (first [ rewrite Hb
                     | rewrite list_lookup_insert_eq by (by rewrite ?length_insert) ];
               go_simpl).
  all: by rewrite ?list_insert_insert_eq.
Qed.

Lemma BuffersAvailable_guard P bufs clk lg :
  (size P =? 0) || (count P =? 0) = true ->
  BuffersAvailable thePool (mkWorld (Some P) bufs clk lg) = Done 0 (mkWorld (Some P) bufs clk lg).
Proof. intros H. unfold BuffersAvailable. go_simpl. by rewrite H. Qed.

Lemma BuffersAvailable_run sz cnt ch inuse bufs clk lg :
  (sz =? 0) || (cnt =? 0) = false ->
  BuffersAvailable thePool (mkWorld (Some (mkPool sz cnt false ch inuse)) bufs clk lg)
  = Done (countFree inuse 0) (mkWorld (Some (mkPool sz cnt false ch inuse)) bufs clk lg).
Proof. intros H. unfold BuffersAvailable. go_simpl. by rewrite H. Qed.

Lemma scan_run l : forall P bufs clk lg,
  slots_ok bufs l ->
  scan clk l (mkWorld P bufs clk lg) = Done tt (mkWorld P bufs clk (lg ++ staleLog bufs clk l)).
Proof.
  induction l as [|[eb|] l IH]; intros P bufs clk lg Hok; simpl.
  - by rewrite app_nil_r.
  - destruct (Hok eb) as [b Hb]; [left|].
    go_simpl. rewrite Hb. go_simpl.
    assert (Hok' : slots_ok bufs l) by (intros x Hx; apply Hok; by right).
    destruct (acquiredAt b + 100 * Millisecond <? clk); go_simpl.
    + rewrite IH by done. by rewrite <- app_assoc.
    + by rewrite IH.
  - go_simpl. apply IH. intros x Hx; apply Hok; by right.
Qed.

Lemma poolMonitor_iter_run sz cnt ch inuse bufs clk lg :
  slots_ok bufs inuse ->
  poolMonitor_iter thePool (mkWorld (Some (mkPool sz cnt false ch inuse)) bufs clk lg)
  = if cnt =? 0
    then Done false (mkWorld (Some (mkPool sz cnt false ch inuse)) bufs clk
                             (lg ++ [DebugMonitorExiting]))
    else Done true (mkWorld (Some (mkPool sz cnt false ch inuse)) bufs clk
                            (lg ++ staleLog bufs clk inuse)).
Proof.
  intros Hok. unfold poolMonitor_iter. go_simpl.
  destruct (cnt =? 0); go_simpl; [done|].
  rewrite scan_run by done. by go_simpl.
Qed.

Lemma Free_enter_run sz cnt ch inuse bufs clk lg :
  Free_enter thePool (mkWorld (Some (mkPool sz cnt false ch inuse)) bufs clk lg)
  = if (sz =? 0) || (cnt =? 0)
    then Done None (mkWorld (Some (mkPool sz cnt false ch inuse)) bufs clk lg)
    else Done (Some cnt) (mkWorld (Some (mkPool sz 0 false ch inuse)) bufs clk lg).
Proof. unfold Free_enter. go_simpl. by destruct ((sz =? 0) || (cnt =? 0)). Qed.

Lemma recv_run sz cnt lk q cap inuse bufs clk lg :
  recv thePool (mkWorld (Some (mkPool sz cnt lk (mkChan q cap) inuse)) bufs clk lg)
  = match q with
    | [] => Blocked (mkWorld (Some (mkPool sz cnt lk (mkChan q cap) inuse)) bufs clk lg)
    | eb :: q' => Done eb (mkWorld (Some (mkPool sz cnt lk (mkChan q' cap) inuse)) bufs clk lg)
    end.
Proof. go_simpl. by destruct q. Qed.

Lemma drain_run n : forall sz cnt lk q cap inuse bufs clk lg,
  drain thePool n (mkWorld (Some (mkPool sz cnt lk (mkChan q cap) inuse)) bufs clk lg)
  = if decide (n <= length q)%nat
    then Done tt (mkWorld (Some (mkPool sz cnt lk (mkChan (drop n q) cap) inuse)) bufs clk lg)
    else Blocked (mkWorld (Some (mkPool sz cnt lk (mkChan [] cap) inuse)) bufs clk lg).
Proof.
  induction n as [|n IH]; intros; cbn [drain].
  - case_decide; [by rewrite drop_0 | lia].
  - unfold bind at 1. rewrite recv_run. destruct q as [|eb q]; cbn [length].
    + case_decide; [lia | done].
    + rewrite IH. repeat case_decide; try done; lia.
Qed.

Lemma Free_unfold p w :
  Free p w =
  bind (Free_enter p)
       (fun r => match r with
                 | None => ret tt
                 | Some count0 => bind (drain p (Z.to_nat count0)) (fun _ => Free_exit p)
                 end) w.
Proof.
  unfold Free, Free_enter, Free_exit, bind, ret.
  destruct (deref p w) as [P w'| |]; try done.
  destruct ((size P =? 0) || (count P =? 0)); try done.
  destruct (Lock p w') as [? w1| |]; try done.
  destruct (modPool p (set_count 0) w1) as [? w2| |]; try done.
  by destruct (Unlock p w2) as [? w3| |].
Qed.

Lemma poolMonitor_iter_exit sz ch inuse bufs clk lg :
  poolMonitor_iter thePool (mkWorld (Some (mkPool sz 0 false ch inuse)) bufs clk lg)
  = Done false (mkWorld (Some (mkPool sz 0 false ch inuse)) bufs clk
                        (lg ++ [DebugMonitorExiting])).
Proof. unfold poolMonitor_iter. by go_simpl. Qed.

(** ** The slots *)

Lemma elem_of_occupied (l : list (option handle)) eb :
  eb ∈ occupied l <-> Some eb ∈ l.
Proof.
  unfold occupied. rewrite list_elem_of_omap. split.
  - intros (o & Ho & Heq). simpl in Heq. by subst.
  - intros H. by exists (Some eb).
Qed.

Lemma occupied_lookup (l : list (option handle)) i eb :
  l !! i = Some (Some eb) -> eb ∈ occupied l.
Proof. intros H. apply elem_of_occupied. by eapply list_elem_of_lookup_2. Qed.

Lemma occupied_claim (l : list (option handle)) i eb :
  l !! i = Some None -> occupied (<[i := Some eb]> l) ≡ₚ eb :: occupied l.
Proof.
  revert i. induction l as [|o l IH]; intros [|i] H; simplify_eq/=; try done.
  destruct o as [x|]; simpl.
  - rewrite (IH i H). apply Permutation_swap.
  - by apply IH.
Qed.

Lemma occupied_clear (l : list (option handle)) i eb :
  l !! i = Some (Some eb) -> occupied l ≡ₚ eb :: occupied (<[i := None]> l).
Proof.
  revert i. induction l as [|o l IH]; intros [|i] H; simplify_eq/=; try done.
  destruct o as [x|]; simpl.
  - rewrite (IH i H). apply Permutation_swap.
  - by apply IH.
Qed.

Lemma firstFree_spec (l : list (option handle)) : forall k i,
  firstFree l k = Some i ->
  k <= i /\ l !! Z.to_nat (i - k) = Some None /\
  forall j, (j < Z.to_nat (i - k))%nat -> exists eb, l !! j = Some (Some eb).
Proof.
  induction l as [|[eb|] l IH]; intros k i H; simpl in H; try done.
  - destruct (IH _ _ H) as (Hle & Hi & Hlow).
    replace (Z.to_nat (i - k)) with (S (Z.to_nat (i - (k + 1)))) by lia.
    split; [lia|]. split; [done|].
    intros [|j] Hj; [by exists eb|]. apply Hlow. lia.
  - simplify_eq. rewrite Z.sub_diag. split; [lia|]. split; [done|]. intros j Hj. simpl in Hj. lia.
Qed.

Lemma firstFree_is_Some (l : list (option handle)) k :
  (length (occupied l) < length l)%nat -> is_Some (firstFree l k).
Proof.
  revert k. induction l as [|[eb|] l IH]; intros k H; simpl in *; [lia| |by eexists].
  apply IH. lia.
Qed.

Lemma countFree_spec (l : list (option handle)) : forall k,
  countFree l k = k + Z.of_nat (length l) - Z.of_nat (length (occupied l)).
Proof.
  induction l as [|[eb|] l IH]; intros k; simpl; rewrite ?IH; lia.
Qed.

Lemma countFree_filter (l : list (option handle)) : forall k,
  countFree l k = k + Z.of_nat (length (filter (fun o => o = None) l)).
Proof.
  induction l as [|[eb|] l IH]; intros k; cbn [countFree].
  - rewrite filter_nil. simpl. lia.
  - rewrite filter_cons_False by done. apply IH.
  - rewrite filter_cons_True by done. rewrite IH. cbn [length]. lia.
Qed.

(** ** The invariant *)

Section CoreFacts.
Context {N : Z} {hs dr : list handle} {sz cnt : Z} {q : list handle} {cap : Z}
        {inuse : list (option handle)} {bufs : list Buffer}.
Hypothesis HC : Core N hs dr (mkPool sz cnt false (mkChan q cap) inuse) bufs.

Lemma Core_NoDup : NoDup (q ++ occupied inuse ++ dr).
Proof. pose proof (core_perm _ _ _ _ _ HC) as Hp. simpl in Hp. rewrite Hp. apply NoDup_seq. Qed.

Lemma Core_total :
  Z.of_nat (length q) + Z.of_nat (length (occupied inuse)) + Z.of_nat (length dr) = N.
Proof.
  pose proof (core_perm _ _ _ _ _ HC) as Hp. simpl in Hp.
  apply Permutation_length in Hp. rewrite !length_app, length_seq in Hp.
  pose proof (core_N _ _ _ _ _ HC). lia.
Qed.

Lemma Core_cover eb : is_Some (bufs !! eb) -> eb ∈ q ++ occupied inuse ++ dr.
Proof.
  intros Hb. apply lookup_lt_is_Some in Hb.
  pose proof (core_perm _ _ _ _ _ HC) as Hp. simpl in Hp. rewrite Hp.
  apply elem_of_seq. pose proof (core_bufs _ _ _ _ _ HC). lia.
Qed.

Lemma Core_slots_ok : slots_ok bufs inuse.
Proof.
  intros eb Heb. apply list_elem_of_lookup in Heb as [i Hi].
  destruct (core_slot _ _ _ _ _ HC i eb Hi) as (b & Hb & _). by exists b.
Qed.

Lemma Core_leased eb :
  Some eb ∈ inuse ->
  exists b, bufs !! eb = Some b /\ 0 <= index b < N /\
            inuse !! Z.to_nat (index b) = Some (Some eb) /\ eb ∈ hs.
Proof.
  intros Heb. pose proof Heb as Hocc. apply elem_of_occupied in Hocc.
  apply list_elem_of_lookup in Heb as [i Hi].
  destruct (core_slot _ _ _ _ _ HC i eb Hi) as (b & Hb & Hidx). simpl in *.
  exists b. split; [done|]. rewrite Hidx, Nat2Z.id.
  apply lookup_lt_Some in Hi as Hlt.
  pose proof (core_len _ _ _ _ _ HC) as Hlen. simpl in Hlen.
  split; [lia|]. split; [done|]. by apply (core_held _ _ _ _ _ HC).
Qed.

Lemma Core_idle_not_leased eb : eb ∈ q ++ dr -> Some eb ∉ inuse.
Proof.
  intros Hq Hin. apply elem_of_occupied in Hin.
  pose proof Core_NoDup as Hnd.
  apply elem_of_app in Hq as [Hq|Hq].
  - apply NoDup_app in Hnd as (_ & Hdis & _). apply (Hdis eb Hq). apply elem_of_app. by left.
  - apply NoDup_app in Hnd as (_ & _ & Hnd). apply NoDup_app in Hnd as (_ & Hdis & _).
    by apply (Hdis eb Hin).
Qed.

(** A handle that was given out and whose index is a slot is leased. *)
Lemma Core_held_leased eb b :
  eb ∈ hs -> bufs !! eb = Some b -> 0 <= index b ->
  inuse !! Z.to_nat (index b) = Some (Some eb).
Proof.
  intros Hhs Hb Hidx.
  assert (Hc : eb ∈ q ++ occupied inuse ++ dr) by (apply Core_cover; by exists b).
  rewrite !elem_of_app in Hc.
  assert (Hidle : eb ∈ q ++ dr -> False).
  { intros Hq. destruct (core_idle _ _ _ _ _ HC eb Hq) as (b' & Hb' & _ & Hi).
    simplify_eq. destruct Hi as [Hi|[_ Hi]]; [lia|done]. }
  destruct Hc as [Hc|[Hc|Hc]].
  - destruct Hidle. apply elem_of_app. by left.
  - apply elem_of_occupied, list_elem_of_lookup in Hc as [i Hi].
    destruct (core_slot _ _ _ _ _ HC i eb Hi) as (b' & Hb' & Hidx'). simpl in *.
    simplify_eq. by rewrite Hidx', Nat2Z.id.
  - destruct Hidle. apply elem_of_app. by right.
Qed.

Lemma Core_slot_inj i j eb :
  inuse !! i = Some (Some eb) -> inuse !! j = Some (Some eb) -> i = j.
Proof.
  intros Hi Hj.
  destruct (core_slot _ _ _ _ _ HC i eb Hi) as (b & Hb & Hidx).
  destruct (core_slot _ _ _ _ _ HC j eb Hj) as (b' & Hb' & Hidx').
  simplify_eq. lia.
Qed.

Lemma Core_Release eb b :
  bufs !! eb = Some b ->
  inuse !! Z.to_nat (index b) = Some (Some eb) ->
  Z.of_nat (length q) < cap /\
  Core N hs dr
       (mkPool sz cnt false (mkChan (q ++ [eb]) cap) (<[Z.to_nat (index b) := None]> inuse))
       (<[eb := released b]> bufs).
Proof.
  intros Hb Hslot.
  pose proof (occupied_clear _ _ _ Hslot) as Hocc.
  pose proof Core_total as Htot.
  pose proof (core_cap _ _ _ _ _ HC) as Hcap. simpl in Hcap.
  assert (Hlen : (length (occupied inuse) = S (length (occupied (<[Z.to_nat (index b):=None]> inuse))))%nat).
  { by rewrite Hocc. }
  split; [lia|].
  assert (Hlt : (eb < length bufs)%nat) by (by eapply lookup_lt_Some).
  destruct HC as [Hlock Hsz HN _ Hl Hbufs Hperm Hsl Hidle Hheld Hpool]. simpl in *.
  split; simpl; try done.
  - by rewrite length_insert.
  - by rewrite length_insert.
  - rewrite <- Hperm, Hocc. rewrite <- !app_assoc. simpl.
    by rewrite <- Permutation_middle.
  - intros i eb' Hi.
    destruct (decide (i = Z.to_nat (index b))) as [->|Hne].
    { rewrite list_lookup_insert_eq in Hi; [done|]. by eapply lookup_lt_Some. }
    rewrite list_lookup_insert_ne in Hi by done.
    destruct (Hsl i eb' Hi) as (b' & Hb' & Hidx').
    destruct (decide (eb' = eb)) as [->|Hne'].
    { destruct Hne. symmetry. by eapply Core_slot_inj. }
    exists b'. by rewrite list_lookup_insert_ne.
  - intros eb' Hin.
    destruct (decide (eb' = eb)) as [->|Hne'].
    { exists (released b). rewrite list_lookup_insert_eq by done.
      split; [done|]. split; [done|]. by left. }
    rewrite list_lookup_insert_ne by done. apply Hidle.
    rewrite !elem_of_app in Hin. rewrite elem_of_app.
    destruct Hin as [[Hin|Hin]|Hin]; [by left| |by right].
    apply list_elem_of_singleton in Hin. done.
  - intros eb' Hin. apply Hheld. rewrite Hocc. by right.
  - intros eb' b' Hb'.
    destruct (decide (eb' = eb)) as [->|Hne'].
    + rewrite list_lookup_insert_eq in Hb' by done. simplify_eq. simpl. by eapply Hpool.
    + rewrite list_lookup_insert_ne in Hb' by done. by eapply Hpool.
Qed.

End CoreFacts.

Lemma Core_Acquire N hs dr sz cnt eb q cap inuse bufs tg now :
  Core N hs dr (mkPool sz cnt false (mkChan (eb :: q) cap) inuse) bufs ->
  exists b i,
    bufs !! eb = Some b /\ firstFree inuse 0 = Some i /\ 0 <= i /\
    inuse !! Z.to_nat i = Some None /\
    (forall j, (j < Z.to_nat i)%nat -> exists eb', inuse !! j = Some (Some eb')) /\
    Core N (eb :: hs) dr (mkPool sz cnt false (mkChan q cap) (claimSlot eb inuse))
         (<[eb := acquired tg now inuse b]> bufs).
Proof.
  intros HC.
  destruct (core_idle _ _ _ _ _ HC eb) as (b & Hb & Htag & Hidx); [simpl; left|].
  pose proof (Core_total HC) as Htot. simpl in Htot.
  pose proof (core_len _ _ _ _ _ HC) as Hlen. simpl in Hlen.
  destruct (firstFree_is_Some inuse 0) as [i Hi]; [lia|].
  destruct (firstFree_spec _ _ _ Hi) as (Hi0 & Hfree & Hlow).
  rewrite Z.sub_0_r in Hfree, Hlow.
  exists b, i. do 5 (split; [done|]).
  pose proof (Core_NoDup HC) as Hnd. simpl in Hnd. apply NoDup_cons in Hnd as [Hnotin Hnd].
  pose proof (occupied_claim _ _ eb Hfree) as Hocc.
  assert (Hlt : (eb < length bufs)%nat) by (by eapply lookup_lt_Some).
  unfold claimSlot, acquired. rewrite Hi.
  destruct HC as [Hlock Hsz HN Hcap Hl Hbufs Hperm Hsl Hidle Hheld Hpool]. simpl in *.
  split; simpl; try done.
  - by rewrite length_insert.
  - by rewrite length_insert.
  - rewrite <- Hperm, Hocc. simpl. by rewrite <- Permutation_middle.
  - intros j eb' Hj.
    destruct (decide (j = Z.to_nat i)) as [->|Hne].
    { rewrite list_lookup_insert_eq in Hj by (by eapply lookup_lt_Some). simplify_eq.
      eexists. rewrite list_lookup_insert_eq by done. split; [done|]. simpl. lia. }
    rewrite list_lookup_insert_ne in Hj by done.
    destruct (Hsl j eb' Hj) as (b' & Hb' & Hidx').
    assert (eb' <> eb).
    { intros ->. apply Hnotin. apply elem_of_app. right. apply elem_of_app. left.
      by eapply occupied_lookup. }
    exists b'. by rewrite list_lookup_insert_ne.
  - intros eb' Hin.
    assert (eb' <> eb).
    { intros ->. apply Hnotin. rewrite !elem_of_app in *. tauto. }
    rewrite list_lookup_insert_ne by done.
    destruct (Hidle eb') as (b' & Hb' & Htag' & Hidx'); [by right|].
    exists b'. split; [done|]. split; [done|].
    destruct Hidx' as [?|[? ?]]; [by left|right]. split; [done|].
    rewrite not_elem_of_cons. done.
  - intros eb' Hin. rewrite Hocc in Hin. apply elem_of_cons in Hin as [->|Hin]; [left|right].
    by apply Hheld.
  - intros eb' b' Hb'.
    destruct (decide (eb' = eb)) as [->|Hne'].
    + rewrite list_lookup_insert_eq in Hb' by done. simplify_eq. simpl. by eapply Hpool.
    + rewrite list_lookup_insert_ne in Hb' by done. by eapply Hpool.
Qed.

Lemma Core_Write N hs dr P bufs eb b x :
  Core N hs dr P bufs ->
  bufs !! eb = Some b ->
  Core N hs dr P (<[eb := set_bytes x b]> bufs).
Proof.
  intros [Hlock Hsz HN Hcap Hl Hbufs Hperm Hsl Hidle Hheld Hpool] Hb.
  assert (Hlt : (eb < length bufs)%nat) by (by eapply lookup_lt_Some).
  split; try done.
  - by rewrite length_insert.
  - intros i eb' Hi. destruct (Hsl i eb' Hi) as (b' & Hb' & Hidx').
    destruct (decide (eb' = eb)) as [->|Hne].
    + assert (b' = b) as -> by congruence.
      exists (set_bytes x b). by rewrite list_lookup_insert_eq.
    + exists b'. by rewrite list_lookup_insert_ne.
  - intros eb' Hin. destruct (Hidle eb' Hin) as (b' & Hb' & Htag' & Hidx').
    destruct (decide (eb' = eb)) as [->|Hne].
    + assert (b' = b) as -> by congruence.
      exists (set_bytes x b). by rewrite list_lookup_insert_eq.
    + exists b'. by rewrite list_lookup_insert_ne.
  - intros eb' b' Hb'.
    destruct (decide (eb' = eb)) as [->|Hne'].
    + rewrite list_lookup_insert_eq in Hb' by done. simplify_eq. simpl. by eapply Hpool.
    + rewrite list_lookup_insert_ne in Hb' by done. by eapply Hpool.
Qed.

Lemma Core_count N hs dr sz cnt cnt' lk ch inuse bufs :
  Core N hs dr (mkPool sz cnt lk ch inuse) bufs ->
  Core N hs dr (mkPool sz cnt' lk ch inuse) bufs.
Proof. intros []. by split. Qed.

Lemma Core_recv N hs dr sz cnt eb q cap inuse bufs :
  Core N hs dr (mkPool sz cnt false (mkChan (eb :: q) cap) inuse) bufs ->
  Core N hs (eb :: dr) (mkPool sz cnt false (mkChan q cap) inuse) bufs.
Proof.
  intros [Hlock Hsz HN Hcap Hl Hbufs Hperm Hsl Hidle Hheld Hpool]. simpl in *.
  split; simpl; try done.
  - rewrite <- Hperm. rewrite app_assoc. rewrite <- Permutation_middle.
    by rewrite <- app_assoc.
  - intros eb' Hin. apply Hidle. rewrite elem_of_app, elem_of_cons in Hin.
    rewrite elem_of_cons, elem_of_app. tauto.
Qed.

Lemma Inv_frame N P bufs clk lg clk' lg' hs pc m m' :
  Inv N (mkSys (mkWorld P bufs clk lg) hs pc m) ->
  Inv N (mkSys (mkWorld P bufs clk' lg') hs pc m').
Proof. by intros H. Qed.

Lemma Release_nil_buf eb w :
  buffers w !! eb = None -> Release eb w = Panicked w.
Proof. intros H. unfold Release. go_simpl. by rewrite H. Qed.

Ltac open_world w P :=
  let sz := fresh "sz" in let cnt := fresh "cnt" in let lk := fresh "lk" in
  let q := fresh "q" in let cap := fresh "cap" in let inuse := fresh "inuse" in
  let bufs := fresh "bufs" in let clk := fresh "clk" in let lg := fresh "lg" in
  let pp := fresh "pp" in
  destruct w as [pp bufs clk lg]; simpl in *; subst pp;
  destruct P as [sz cnt lk [q cap] inuse]; simpl in *.

Lemma Inv_Acquire N w hs pc m tg r w' :
  Inv N (mkSys w hs pc m) ->
  Acquire thePool tg w = Done r w' ->
  match r with
  | Some eb => Inv N (mkSys w' (eb :: hs) pc m)
  | None => w' = w
  end.
Proof.
  intros (P & HP & Hpc) Hrun. simpl in *. open_world w P.
  destruct pc as [|i c|].
  - destruct Hpc as [-> HC].
    pose proof (core_lock _ _ _ _ _ HC) as Hlk. simpl in Hlk. subst lk.
    pose proof (core_size _ _ _ _ _ HC) as Hsz. pose proof (core_N _ _ _ _ _ HC) as HN.
    simpl in Hsz.
    assert (Hg : (sz =? 0) || (N =? 0) = false).
    { apply orb_false_intro; apply Z.eqb_neq; lia. }
    destruct q as [|eb q].
    { by rewrite Acquire_empty in Hrun. }
    destruct (Core_Acquire _ _ _ _ _ _ _ _ _ _ tg clk HC)
      as (b & i & Hb & Hi & Hi0 & Hfree & Hlow & HC').
    rewrite (Acquire_run _ _ _ _ _ _ _ _ _ _ _ Hg Hb) in Hrun. simplify_eq.
    eexists. split; [done|]. by split.
  - destruct Hpc as (-> & _). rewrite Acquire_guard in Hrun; [by simplify_eq|].
    simpl. apply orb_true_r.
  - destruct Hpc as (-> & _). rewrite Acquire_guard in Hrun; [by simplify_eq|].
    simpl. apply orb_true_r.
Qed.

Lemma Inv_Release N w hs pc m eb w' :
  Inv N (mkSys w hs pc m) ->
  eb ∈ hs ->
  Release eb w = Done tt w' ->
  Inv N (mkSys w' hs pc m).
Proof.
  intros (P & HP & Hpc) Hhs Hrun. simpl in *. open_world w P.
  destruct (bufs !! eb) as [b|] eqn:Hb; [|by rewrite Release_nil_buf in Hrun].
  assert (Hgo : forall dr,
    Core N hs dr (mkPool sz cnt lk (mkChan q cap) inuse) bufs ->
    exists P', thepool w' = Some P' /\ count P' = cnt /\ Core N hs dr P' (buffers w')).
  { intros dr HC.
    pose proof (core_lock _ _ _ _ _ HC) as Hlk. simpl in Hlk. subst lk.
    pose proof (core_len _ _ _ _ _ HC) as Hlen. simpl in Hlen.
    rewrite (Release_run _ _ _ _ _ _ _ _ _ _ Hb (core_pool _ _ _ _ _ HC _ _ Hb)) in Hrun.
    destruct ((0 <=? index b) && (index b <? Z.of_nat (length inuse))) eqn:Hidx; [|done].
    apply andb_true_iff in Hidx as [H0 H1]. apply Z.leb_le in H0.
    pose proof (Core_held_leased HC eb b Hhs Hb H0) as Hslot.
    destruct (Core_Release HC eb b Hb Hslot) as [Hroom HC'].
    apply Z.ltb_lt in Hroom. rewrite Hroom in Hrun. simplify_eq.
    eexists. by split. }
  destruct pc as [|i c|].
  - destruct Hpc as [Hc HC]. destruct (Hgo _ HC) as (P' & HP' & Hcnt & HC').
    exists P'. split; [done|]. split; [congruence|done].
  - destruct Hpc as (Hc & -> & dr & Hdr & HC). destruct (Hgo _ HC) as (P' & HP' & Hcnt & HC').
    exists P'. split; [done|]. split; [congruence|]. split; [done|]. by exists dr.
  - destruct Hpc as (-> & -> & -> & -> & Hpool).
    rewrite (Release_run _ _ _ _ _ _ _ _ _ _ Hb (Hpool _ _ Hb)) in Hrun.
    destruct ((0 <=? index b) && (index b <? Z.of_nat (length (@nil (option nat)))))
      eqn:Hidx; [|done].
    apply andb_true_iff in Hidx as [H0 H1]. apply Z.leb_le in H0. apply Z.ltb_lt in H1.
    simpl in H1. lia.
Qed.

Lemma Inv_BuffersAvailable N w hs pc m n w' :
  Inv N (mkSys w hs pc m) ->
  BuffersAvailable thePool w = Done n w' ->
  w' = w.
Proof.
  intros (P & HP & Hpc) Hrun. simpl in *. open_world w P.
  destruct ((sz =? 0) || (cnt =? 0)) eqn:Hg.
  { rewrite BuffersAvailable_guard in Hrun by done. by simplify_eq. }
  assert (lk = false) as ->.
  { destruct pc as [|i c|].
    - destruct Hpc as [_ HC]. apply (core_lock _ _ _ _ _ HC).
    - destruct Hpc as (_ & _ & dr & _ & HC). apply (core_lock _ _ _ _ _ HC).
    - by destruct Hpc as (_ & ? & _). }
  rewrite BuffersAvailable_run in Hrun by done. by simplify_eq.
Qed.

Lemma Inv_poolMonitor N w hs pc m again w' :
  Inv N (mkSys w hs pc m) ->
  poolMonitor_iter thePool w = Done again w' ->
  exists evs,
    w' = set_logged (logged w ++ evs) w /\
    again = negb (poolCount w =? 0) /\
    evs = if poolCount w =? 0 then [DebugMonitorExiting]
          else staleLog (buffers w) (clock w) (inUse w).
Proof.
  intros (P & HP & Hpc) Hrun. simpl in *. open_world w P.
  unfold poolCount, inUse. simpl.
  destruct pc as [|i c|].
  - destruct Hpc as [-> HC].
    pose proof (core_lock _ _ _ _ _ HC) as Hlk. simpl in Hlk. subst lk.
    rewrite poolMonitor_iter_run in Hrun by apply (Core_slots_ok HC).
    destruct (N =? 0); simplify_eq; eexists; (split; [reflexivity|]; split; reflexivity).
  - destruct Hpc as (-> & _ & dr & _ & HC).
    pose proof (core_lock _ _ _ _ _ HC) as Hlk. simpl in Hlk. subst lk.
    rewrite poolMonitor_iter_exit in Hrun. simplify_eq.
    eexists; (split; [reflexivity|]; split; reflexivity).
  - destruct Hpc as (-> & -> & _).
    rewrite poolMonitor_iter_exit in Hrun. simplify_eq.
    eexists; (split; [reflexivity|]; split; reflexivity).
Qed.

Lemma Inv_Free_step N w hs pc m pc' w' :
  Inv N (mkSys w hs pc m) ->
  Free_step thePool pc w = Done pc' w' ->
  Inv N (mkSys w' hs pc' m).
Proof.
  intros (P & HP & Hpc) Hrun. simpl in *. open_world w P.
  destruct pc as [|i c|]; cbn [Free_step] in Hrun.
  - destruct Hpc as [-> HC].
    pose proof (core_lock _ _ _ _ _ HC) as Hlk. simpl in Hlk. subst lk.
    pose proof (core_size _ _ _ _ _ HC) as Hsz. pose proof (core_N _ _ _ _ _ HC) as HN.
    simpl in Hsz.
    unfold bind in Hrun. rewrite Free_enter_run in Hrun.
    replace ((sz =? 0) || (N =? 0)) with false in Hrun
      by (symmetry; apply orb_false_intro; apply Z.eqb_neq; lia).
    unfold ret in Hrun. simplify_eq.
    eexists. split; [done|]. simpl. do 2 (split; [done|]).
    exists []. split; [done|]. by eapply Core_count.
  - destruct Hpc as (-> & -> & dr & Hdr & HC).
    pose proof (core_lock _ _ _ _ _ HC) as Hlk. simpl in Hlk. subst lk.
    destruct (i <? N) eqn:Hi.
    + unfold bind in Hrun. rewrite recv_run in Hrun.
      destruct q as [|eb q]; [done|]. unfold ret in Hrun. simplify_eq.
      eexists. split; [done|]. simpl. do 2 (split; [done|]).
      exists (eb :: dr). split; [simpl; lia|]. by apply Core_recv.
    + apply Z.ltb_ge in Hi. unfold Free_exit in Hrun. go_simpl_in Hrun. simplify_eq.
      eexists. split; [done|]. simpl.
      pose proof (Core_total HC) as Htot.
      assert (q = []) as -> by (apply length_zero_iff_nil; lia).
      do 4 (split; [done|]). apply (core_pool _ _ _ _ _ HC).
  - unfold ret in Hrun. simplify_eq. eexists. by split.
Qed.

Section Reachable.
Variable growCap : Z -> Z -> Z -> Z.

Lemma Write_run eb p b P bufs clk lg :
  bufs !! eb = Some b ->
  Write growCap eb p (mkWorld P bufs clk lg)
  = Done (Z.of_nat (length p))
         (mkWorld P (<[eb := set_bytes (bytes_Write growCap p (Buffer_bytes b)) b]> bufs) clk lg).
Proof. intros Hb. unfold Write. go_simpl. rewrite Hb. by go_simpl. Qed.

Lemma Inv_Write N w hs pc m eb p n w' :
  Inv N (mkSys w hs pc m) ->
  Write growCap eb p w = Done n w' ->
  Inv N (mkSys w' hs pc m).
Proof.
  intros (P & HP & Hpc) Hrun. simpl in *.
  destruct w as [pp bufs clk lg]; simpl in *; subst pp.
  destruct (bufs !! eb) as [b|] eqn:Hb.
  2:{ unfold Write in Hrun. go_simpl_in Hrun. by rewrite Hb in Hrun. }
  rewrite (Write_run _ _ _ _ _ _ _ Hb) in Hrun. simplify_eq.
  exists P. split; [done|]. simpl.
  destruct pc as [|i c|].
  - destruct Hpc as [Hc HC]. split; [done|]. by apply Core_Write.
  - destruct Hpc as (Hc & -> & dr & Hdr & HC). do 2 (split; [done|]).
    exists dr. split; [done|]. by apply Core_Write.
  - destruct Hpc as (? & ? & ? & ? & Hpool). do 4 (split; [done|]).
    intros eb' b' Hb'.
    assert (Hlt : (eb < length bufs)%nat) by (by eapply lookup_lt_Some).
    destruct (decide (eb' = eb)) as [->|Hne'].
    + rewrite list_lookup_insert_eq in Hb' by done. simplify_eq. simpl. by eapply Hpool.
    + rewrite list_lookup_insert_ne in Hb' by done. by eapply Hpool.
Qed.

Lemma Inv_step N s s' : Inv N s -> step growCap s s' -> Inv N s'.
Proof.
  intros HI Hstep. destruct Hstep.
  - by apply (Inv_Acquire _ _ _ _ _ _ _ _ HI H).
  - pose proof (Inv_Acquire _ _ _ _ _ _ _ _ HI H) as Heq. simpl in Heq. by subst.
  - by eapply Inv_Release.
  - by eapply Inv_Write.
  - by rewrite (Inv_BuffersAvailable _ _ _ _ _ _ _ HI H).
  - destruct (Inv_poolMonitor _ _ _ _ _ _ _ HI H) as (evs & -> & _).
    destruct w. by eapply Inv_frame.
  - by eapply Inv_Free_step.
  - destruct w. by eapply Inv_frame.
Qed.

(** The buffers NewPool creates. *)
Lemma fill_run size n : forall sz cnt lk q cap inuse bufs clk lg,
  Z.of_nat (length q + n) <= cap ->
  fill growCap thePool size n
       (mkWorld (Some (mkPool sz cnt lk (mkChan q cap) inuse)) bufs clk lg)
  = Done tt
      (mkWorld (Some (mkPool sz cnt lk (mkChan (q ++ seq (length bufs) n) cap) inuse))
               (bufs ++ replicate n (mkBuffer (bytes_Grow growCap size bytes_zero)
                                              thePool 0 size 0 EmptyString))
               clk lg).
Proof.
  induction n as [|n IH]; intros sz cnt lk q cap inuse bufs clk lg Hroom; cbn [fill].
  - go_simpl. by rewrite !app_nil_r.
  - go_simpl.
    replace (Z.of_nat (length q) <? cap) with true by (symmetry; apply Z.ltb_lt; lia).
    go_simpl. rewrite IH by (rewrite length_app; simpl; lia).
    rewrite length_app. simpl. rewrite Nat.add_1_r.
    by rewrite <- !app_assoc.
Qed.

Lemma NewPool_run count size :
  0 < count -> 0 < size ->
  NewPool growCap count size emptyWorld
  = Done thePool
      (mkWorld (Some (mkPool size count false
                             (mkChan (seq 0 (Z.to_nat count)) count)
                             (replicate (Z.to_nat count) None)))
               (replicate (Z.to_nat count)
                          (mkBuffer (bytes_Grow growCap size bytes_zero)
                                    thePool 0 size 0 EmptyString))
               0 []).
Proof.
  intros Hc Hs. unfold NewPool.
  replace ((count <=? 0) || (size <=? 0)) with false
    by (symmetry; apply orb_false_intro; apply Z.leb_gt; lia).
  unfold emptyWorld. go_simpl. rewrite fill_run by (simpl; lia). by go_simpl.
Qed.

Lemma NewPool_invalid count size w :
  count <= 0 \/ size <= 0 ->
  NewPool growCap count size w
  = Done nilPool (set_logged (logged w ++ [ErrorInvalidArguments]) w).
Proof.
  intros H. unfold NewPool.
  replace ((count <=? 0) || (size <=? 0)) with true; [done|].
  symmetry. apply orb_true_iff. rewrite !Z.leb_le. done.
Qed.

Lemma occupied_replicate n : occupied (replicate n None) = [].
Proof. induction n; simpl; done. Qed.

Lemma Core_init N sz :
  0 < N -> 0 < sz ->
  Core N [] []
       (mkPool sz N false (mkChan (seq 0 (Z.to_nat N)) N) (replicate (Z.to_nat N) None))
       (replicate (Z.to_nat N)
                  (mkBuffer (bytes_Grow growCap sz bytes_zero) thePool 0 sz 0 EmptyString)).
Proof.
  intros Hc Hs. split; simpl; try done.
  - rewrite length_replicate. lia.
  - rewrite length_replicate. lia.
  - by rewrite occupied_replicate, !app_nil_r.
  - intros i eb Hi. apply lookup_replicate in Hi as [? _]. done.
  - intros eb Hin. rewrite app_nil_r in Hin. apply elem_of_seq in Hin.
    eexists. split; [apply lookup_replicate_2; lia|]. split; [done|].
    right. split; [done|]. apply not_elem_of_nil.
  - rewrite occupied_replicate. intros eb Hin. by apply elem_of_nil in Hin.
  - intros eb b Hb. apply lookup_replicate in Hb as [-> _]. done.
Qed.

Lemma Inv_init N sz p w0 m :
  0 < N -> 0 < sz ->
  NewPool growCap N sz emptyWorld = Done p w0 ->
  p = thePool /\ Inv N (mkSys w0 [] FreeNotCalled m).
Proof.
  intros Hc Hs Hrun. rewrite NewPool_run in Hrun by done. simplify_eq.
  split; [done|]. eexists. split; [done|]. simpl. split; [done|].
  by apply Core_init.
Qed.

Lemma reachable_Inv count size s :
  0 < count -> 0 < size -> reachable growCap count size s -> Inv count s.
Proof.
  intros Hc Hs (p & w0 & Hnew & Hsteps).
  destruct (Inv_init _ _ _ _ (negb (isNil p)) Hc Hs Hnew) as [_ HI].
  induction Hsteps as [|s1 s2 s3 Hstep _ IH]; [done|].
  apply IH. by eapply Inv_step.
Qed.

Lemma reachable_nil count size s :
  count <= 0 \/ size <= 0 -> reachable growCap count size s ->
  thepool (world s) = None.
Proof.
  intros Hbad (p & w0 & Hnew & Hsteps).
  rewrite NewPool_invalid in Hnew by done. simplify_eq.
  remember (mkSys _ _ _ _) as s0 eqn:Hs0.
  assert (H0 : thepool (world s0) = None) by (by subst).
  clear Hs0. induction Hsteps as [|s1 s2 s3 Hstep _ IH]; [done|].
  apply IH. destruct Hstep; simpl in *; try done.
  all: destruct w as [pp bufs clk lg]; simpl in *; subst pp.
  - unfold Acquire in H. by go_simpl_in H.
  - unfold Acquire in H. by go_simpl_in H.
  - unfold Release in H1. go_simpl_in H1. destruct (bufs !! eb) as [b|]; [|done].
    go_simpl_in H1. destruct (pool b); go_simpl_in H1; [by simplify_eq|].
    destruct (Cap b >? origSize b); by go_simpl_in H1.
  - unfold Write in H1. go_simpl_in H1. destruct (bufs !! eb); by simplify_eq.
  - unfold BuffersAvailable in H. by go_simpl_in H.
  - unfold poolMonitor_iter in H. by go_simpl_in H.
  - destruct pc; cbn [Free_step] in H1.
    + unfold Free_enter in H1. by go_simpl_in H1.
    + destruct (i <? count0); [by go_simpl_in H1|]. unfold Free_exit in H1. by go_simpl_in H1.
    + unfold ret in H1. by simplify_eq.
Qed.

Lemma reachable_valid N sz s :
  reachable growCap N sz s -> valid (world s) ->
  0 < N /\ 0 < sz /\ freeing s = FreeNotCalled /\
  exists P, thepool (world s) = Some P /\ count P = N /\
            Core N (held s) [] P (buffers (world s)).
Proof.
  intros Hr (P & HP & Hsz & Hcnt).
  destruct (decide (0 < N /\ 0 < sz)) as [[Hc Hs]|Hbad].
  - do 2 (split; [done|]).
    destruct (reachable_Inv _ _ _ Hc Hs Hr) as (P' & HP' & Hpc).
    assert (P' = P) as -> by congruence.
    destruct (freeing s) as [|i c|].
    + split; [done|]. exists P. by destruct Hpc.
    + by destruct Hpc as (? & _).
    + by destruct Hpc as (? & _).
  - rewrite (reachable_nil N sz s) in HP; [done| lia | done].
Qed.

End Reachable.

(** * The properties of the pool *)

Lemma Core_bookkeeping N hs w P :
  thepool w = Some P -> count P = N -> Core N hs [] P (buffers w) -> bookkeeping w.
Proof.
  intros HP Hcnt HC. open_world w P. subst cnt.
  pose proof (core_lock _ _ _ _ _ HC) as Hlk. simpl in Hlk. subst lk.
  unfold bookkeeping, available, inUse, poolCount, leased. simpl.
  split; [|split].
  - pose proof (Core_total HC) as Htot. simpl in Htot. lia.
  - intros eb Hq. apply (Core_idle_not_leased HC). by rewrite app_nil_r.
  - intros eb1 eb2 b1 b2 H1 H2 Hb1 Hb2 Hne Heq.
    destruct (Core_leased HC eb1 H1) as (b1' & Hb1' & _ & Hs1 & _).
    destruct (Core_leased HC eb2 H2) as (b2' & Hb2' & _ & Hs2 & _).
    simplify_eq. rewrite Heq in Hs1. congruence.
Qed.

Lemma Release_leased w N hs dr P eb :
  thepool w = Some P ->
  Core N hs dr P (buffers w) ->
  leased w eb ->
  exists b,
    buffers w !! eb = Some b /\ eb ∈ hs /\ 0 <= index b < N /\
    inUse w !! Z.to_nat (index b) = Some (Some eb) /\
    Release eb w
    = Done tt
        (mkWorld (Some (mkPool (size P) (count P) false
                               (mkChan (chan_buf (buffersAvailable P) ++ [eb])
                                       (chan_cap (buffersAvailable P)))
                               (<[Z.to_nat (index b) := None]> (buffersInUse P))))
                 (<[eb := released b]> (buffers w)) (clock w)
                 (logged w ++ growthLog (size P) b)) /\
    Core N hs dr
         (mkPool (size P) (count P) false
                 (mkChan (chan_buf (buffersAvailable P) ++ [eb])
                         (chan_cap (buffersAvailable P)))
                 (<[Z.to_nat (index b) := None]> (buffersInUse P)))
         (<[eb := released b]> (buffers w)).
Proof.
  intros HP HC Hl. unfold leased, inUse in *. rewrite HP in Hl. open_world w P.
  pose proof (core_lock _ _ _ _ _ HC) as Hlk. simpl in Hlk. subst lk.
  pose proof (core_len _ _ _ _ _ HC) as Hlen. simpl in Hlen.
  destruct (Core_leased HC eb Hl) as (b & Hb & Hidx & Hslot & Hhs).
  destruct (Core_Release HC eb b Hb Hslot) as [Hroom HC'].
  exists b. do 4 (split; [done|]). split; [|done].
  rewrite (Release_run _ _ _ _ _ _ _ _ _ _ Hb (core_pool _ _ _ _ _ HC _ _ Hb)).
  replace ((0 <=? index b) && (index b <? Z.of_nat (length inuse))) with true
    by (symmetry; apply andb_true_iff; split; [apply Z.leb_le|apply Z.ltb_lt]; lia).
  by replace (Z.of_nat (length q) <? cap) with true by (symmetry; by apply Z.ltb_lt).
Qed.

(** ** The high-water mark only grows *)

Lemma bufs_mono_refl bufs : bufs_mono bufs bufs.
Proof. intros eb b Hb. exists b. split; [done|lia]. Qed.

Lemma bufs_mono_trans b1 b2 b3 : bufs_mono b1 b2 -> bufs_mono b2 b3 -> bufs_mono b1 b3.
Proof.
  intros H12 H23 eb b Hb. destruct (H12 eb b Hb) as (b' & Hb' & Hle).
  destruct (H23 eb b' Hb') as (b'' & Hb'' & Hle'). exists b''. split; [done|lia].
Qed.

Lemma bufs_mono_insert bufs eb b x :
  bufs !! eb = Some b -> origSize b <= origSize x -> bufs_mono bufs (<[eb := x]> bufs).
Proof.
  intros Hb Hle eb' b' Hb'.
  assert (Hlt : (eb < length bufs)%nat) by (by eapply lookup_lt_Some).
  destruct (decide (eb' = eb)) as [->|Hne].
  - exists x. rewrite list_lookup_insert_eq by done. split; [done|]. congruence.
  - exists b'. rewrite list_lookup_insert_ne by done. split; [done|lia].
Qed.

Lemma Inv_lock_pool N s :
  Inv N s ->
  exists P, thepool (world s) = Some P /\ lock P = false /\
            forall eb b, buffers (world s) !! eb = Some b -> pool b = thePool.
Proof.
  intros (P & HP & Hpc). exists P. split; [done|].
  destruct (freeing s) as [|i c|].
  - destruct Hpc as [_ HC]. split; [apply (core_lock _ _ _ _ _ HC)|apply (core_pool _ _ _ _ _ HC)].
  - destruct Hpc as (_ & _ & dr & _ & HC).
    split; [apply (core_lock _ _ _ _ _ HC)|apply (core_pool _ _ _ _ _ HC)].
  - by destruct Hpc as (_ & ? & _ & _ & ?).
Qed.

Lemma Acquire_nil_buf tg sz cnt eb q cap inuse bufs clk lg :
  (sz =? 0) || (cnt =? 0) = false ->
  bufs !! eb = None ->
  forall r w',
    Acquire thePool tg (mkWorld (Some (mkPool sz cnt false (mkChan (eb :: q) cap) inuse)) bufs clk lg)
    <> Done r w'.
Proof.
  intros H Hb r w'. unfold Acquire. go_simpl. rewrite H. go_simpl.
  destruct (firstFree inuse 0) as [i|]; go_simpl; rewrite Hb; by go_simpl.
Qed.

Lemma mono_Acquire N s tg r w' :
  Inv N s -> Acquire thePool tg (world s) = Done r w' ->
  bufs_mono (buffers (world s)) (buffers w') /\ logged w' = logged (world s).
Proof.
  intros HI Hrun. destruct (Inv_lock_pool _ _ HI) as (P & HP & Hlk & Hpool).
  destruct s as [w hs pc m]. simpl in *. open_world w P. subst lk.
  destruct ((sz =? 0) || (cnt =? 0)) eqn:Hg.
  { rewrite Acquire_guard in Hrun by done. simplify_eq. split; [apply bufs_mono_refl|done]. }
  destruct q as [|eb q]; [by rewrite Acquire_empty in Hrun|].
  destruct (bufs !! eb) as [b|] eqn:Hb; [|by eapply Acquire_nil_buf in Hrun].
  rewrite (Acquire_run _ _ _ _ _ _ _ _ _ _ _ Hg Hb) in Hrun. simplify_eq. simpl.
  split; [|done]. eapply bufs_mono_insert; [done|]. simpl. lia.
Qed.

Lemma origSize_released b : origSize b <= origSize (released b) /\ Cap b <= origSize (released b).
Proof. unfold released. simpl. destruct (Cap b >? origSize b) eqn:H; lia. Qed.

Lemma mono_Release N s eb w' :
  Inv N s -> Release eb (world s) = Done tt w' ->
  bufs_mono (buffers (world s)) (buffers w').
Proof.
  intros HI Hrun. destruct (Inv_lock_pool _ _ HI) as (P & HP & Hlk & Hpool).
  destruct s as [w hs pc m]. simpl in *. open_world w P. subst lk.
  destruct (bufs !! eb) as [b|] eqn:Hb; [|by rewrite Release_nil_buf in Hrun].
  rewrite (Release_run _ _ _ _ _ _ _ _ _ _ Hb (Hpool _ _ Hb)) in Hrun.
  destruct ((0 <=? index b) && (index b <? Z.of_nat (length inuse))); [|done].
  destruct (Z.of_nat (length q) <? cap); [|done]. simplify_eq. simpl.
  eapply bufs_mono_insert; [done|]. apply origSize_released.
Qed.

(** ** Free *)

Lemma Free_guard P bufs clk lg :
  (size P =? 0) || (count P =? 0) = true ->
  Free thePool (mkWorld (Some P) bufs clk lg) = Done tt (mkWorld (Some P) bufs clk lg).
Proof. intros H. unfold Free. go_simpl. by rewrite H. Qed.

Lemma Free_run sz cnt q cap inuse bufs clk lg :
  (sz =? 0) || (cnt =? 0) = false ->
  Free thePool (mkWorld (Some (mkPool sz cnt false (mkChan q cap) inuse)) bufs clk lg)
  = if decide (Z.to_nat cnt <= length q)%nat
    then Done tt (mkWorld (Some (mkPool sz 0 false (mkChan (drop (Z.to_nat cnt) q) cap) []))
                          bufs clk lg)
    else Blocked (mkWorld (Some (mkPool sz 0 false (mkChan [] cap) inuse)) bufs clk lg).
Proof.
  intros Hg. rewrite Free_unfold. unfold bind at 1. rewrite Free_enter_run, Hg.
  unfold bind. rewrite drain_run. case_decide; [|done]. unfold Free_exit. by go_simpl.
Qed.

Lemma Free_locked sz cnt ch inuse bufs clk lg :
  (sz =? 0) || (cnt =? 0) = false ->
  Free thePool (mkWorld (Some (mkPool sz cnt true ch inuse)) bufs clk lg)
  = Blocked (mkWorld (Some (mkPool sz cnt true ch inuse)) bufs clk lg).
Proof. intros Hg. unfold Free. go_simpl. by rewrite Hg. Qed.

Lemma Free_torn_down w w' :
  Free thePool w = Done tt w' ->
  exists P', thepool w' = Some P' /\ (size P' = 0 \/ count P' = 0).
Proof.
  intros Hrun. destruct w as [[P|] bufs clk lg]; [|by unfold Free in Hrun; go_simpl_in Hrun].
  destruct P as [sz cnt lk [q cap] inuse].
  destruct ((sz =? 0) || (cnt =? 0)) eqn:Hg.
  - rewrite Free_guard in Hrun by done. simplify_eq. eexists. split; [done|]. simpl.
    apply orb_true_iff in Hg as [Hg|Hg]; apply Z.eqb_eq in Hg; [by left|by right].
  - destruct lk; [by rewrite Free_locked in Hrun|].
    rewrite Free_run in Hrun by done. case_decide; [|done]. simplify_eq.
    eexists. split; [done|]. by right.
Qed.

(** ** Acquire and Release in a row *)

Lemma acquireAll_run N tags : forall hs sz q cap inuse bufs clk lg,
  Core N hs [] (mkPool sz N false (mkChan q cap) inuse) bufs ->
  (length tags <= length q)%nat ->
  exists hs' inuse' bufs',
    acquireAll tags (mkWorld (Some (mkPool sz N false (mkChan q cap) inuse)) bufs clk lg)
    = Done (take (length tags) q)
           (mkWorld (Some (mkPool sz N false (mkChan (drop (length tags) q) cap) inuse'))
                    bufs' clk lg) /\
    Core N hs' [] (mkPool sz N false (mkChan (drop (length tags) q) cap) inuse') bufs' /\
    occupied inuse' ≡ₚ take (length tags) q ++ occupied inuse.
Proof.
  induction tags as [|tg tags IH]; intros hs sz q cap inuse bufs clk lg HC Hlen.
  - exists hs, inuse, bufs. simpl. rewrite drop_0. by split.
  - destruct q as [|eb q]; [simpl in Hlen; lia|].
    pose proof (core_size _ _ _ _ _ HC) as Hsz. pose proof (core_N _ _ _ _ _ HC) as HN.
    simpl in Hsz.
    assert (Hg : (sz =? 0) || (N =? 0) = false).
    { apply orb_false_intro; apply Z.eqb_neq; lia. }
    destruct (Core_Acquire _ _ _ _ _ _ _ _ _ _ tg clk HC)
      as (b & i & Hb & Hi & Hi0 & Hfree & Hlow & HC').
    destruct (IH _ _ _ _ _ _ clk lg HC') as (hs' & inuse' & bufs' & Hrun & HC'' & Hocc).
    { simpl in Hlen. lia. }
    exists hs', inuse', bufs'. cbn [acquireAll length take drop].
    unfold bind at 1. rewrite (Acquire_run _ _ _ _ _ _ _ _ _ _ _ Hg Hb).
    unfold bind. rewrite Hrun. unfold ret. split; [done|]. split; [done|].
    rewrite Hocc. unfold claimSlot. rewrite Hi.
    rewrite (occupied_claim _ _ eb Hfree). simpl. by rewrite <- Permutation_middle.
Qed.

Lemma releaseAll_run N hs l : forall w P,
  thepool w = Some P ->
  Core N hs [] P (buffers w) ->
  NoDup l ->
  (forall eb, eb ∈ l -> leased w eb) ->
  exists w' P',
    releaseAll l w = Done tt w' /\
    thepool w' = Some P' /\ size P' = size P /\ count P' = count P /\
    Core N hs [] P' (buffers w') /\
    occupied (inUse w) ≡ₚ l ++ occupied (inUse w').
Proof.
  induction l as [|eb l IH]; intros w P HP HC Hnd Hall.
  - exists w, P. do 5 (split; [done|]). reflexivity.
  - apply NoDup_cons in Hnd as [Hnotin Hnd].
    destruct (Release_leased _ _ _ _ _ _ HP HC (Hall eb ltac:(left)))
      as (b & Hb & Hhs & Hidx & Hslot & Hrun & HC').
    unfold inUse in Hslot. rewrite HP in Hslot.
    pose proof (occupied_clear _ _ _ Hslot) as Hocc.
    match type of Hrun with _ = Done _ ?w1 =>
      assert (Hall' : forall eb', eb' ∈ l -> leased w1 eb') end.
    { intros eb' Hin. unfold leased, inUse. simpl. apply elem_of_occupied.
      assert (Hl : leased w eb') by (apply Hall; by right).
      unfold leased, inUse in Hl. rewrite HP in Hl. apply elem_of_occupied in Hl.
      rewrite Hocc in Hl. apply elem_of_cons in Hl as [->|Hl]; done. }
    match type of Hrun with _ = Done _ ?w1 =>
      destruct (IH w1 _ eq_refl HC' Hnd Hall')
        as (w' & P' & Hrun' & HP' & Hsz' & Hcnt' & HC'' & Hocc') end.
    exists w', P'. cbn [releaseAll]. unfold bind. rewrite Hrun.
    split; [done|]. do 4 (split; [done|]).
    unfold inUse at 1. rewrite HP, Hocc. simpl. f_equiv. exact Hocc'.
Qed.

Lemma BuffersAvailable_Core N hs w P :
  thepool w = Some P -> count P = N -> Core N hs [] P (buffers w) ->
  BuffersAvailable thePool w = Done (N - Z.of_nat (length (occupied (inUse w)))) w /\
  N - Z.of_nat (length (occupied (inUse w)))
  = Z.of_nat (length (filter (fun o => o = None) (inUse w))).
Proof.
  intros HP Hcnt HC. unfold inUse. rewrite HP. open_world w P. subst cnt.
  pose proof (core_lock _ _ _ _ _ HC) as Hlk. simpl in Hlk. subst lk.
  pose proof (core_size _ _ _ _ _ HC) as Hsz. pose proof (core_N _ _ _ _ _ HC) as HN.
  pose proof (core_len _ _ _ _ _ HC) as Hlen. simpl in Hsz, Hlen.
  assert (Hg : (sz =? 0) || (N =? 0) = false).
  { apply orb_false_intro; apply Z.eqb_neq; lia. }
  rewrite BuffersAvailable_run by done.
  pose proof (countFree_spec inuse 0) as H1. pose proof (countFree_filter inuse 0) as H2.
  split; [f_equal; lia | lia].
Qed.

(** ** The watchdog *)

Lemma scan_frame l : forall now P bufs clk lg r w',
  scan now l (mkWorld P bufs clk lg) = Done r w' ->
  exists evs, w' = mkWorld P bufs clk (lg ++ evs) /\ Forall monitorEvent evs.
Proof.
  induction l as [|[eb|] l IH]; intros now P bufs clk lg r w' Hrun; cbn [scan] in Hrun.
  - unfold ret in Hrun. simplify_eq. exists []. by rewrite app_nil_r.
  - unfold bind at 1 in Hrun. unfold load in Hrun. cbn [buffers] in Hrun.
    destruct (bufs !! eb) as [b|]; [|done].
    destruct (acquiredAt b + 100 * Millisecond <? now).
    + go_simpl_in Hrun. apply IH in Hrun as (evs & -> & Hevs).
      eexists (_ :: evs). rewrite <- app_assoc. split; [done|].
      constructor; [|done]. right. by do 2 eexists.
    + go_simpl_in Hrun. by apply IH in Hrun.
  - by apply IH in Hrun.
Qed.

Lemma poolMonitor_iter_frame w again w' :
  poolMonitor_iter thePool w = Done again w' ->
  thepool w' = thepool w /\ buffers w' = buffers w /\ clock w' = clock w /\
  exists evs, logged w' = logged w ++ evs /\ Forall monitorEvent evs.
Proof.
  intros Hrun. destruct w as [[P|] bufs clk lg];
    [|by unfold poolMonitor_iter in Hrun; go_simpl_in Hrun].
  destruct P as [sz cnt lk ch inuse].
  destruct lk; [by unfold poolMonitor_iter in Hrun; go_simpl_in Hrun|].
  unfold poolMonitor_iter in Hrun. go_simpl_in Hrun.
  destruct (cnt =? 0).
  - go_simpl_in Hrun. simplify_eq. simpl. do 3 (split; [done|]).
    eexists. split; [done|]. constructor; [by left|done].
  - go_simpl_in Hrun.
    destruct (scan clk inuse _) as [r w1| |] eqn:Hs; [|done..].
    apply scan_frame in Hs as (evs & -> & Hevs). go_simpl_in Hrun. simplify_eq. simpl.
    do 3 (split; [done|]). by exists evs.
Qed.

Lemma elem_of_staleLog bufs now l tg d :
  slots_ok bufs l ->
  WarnHeld tg d ∈ staleLog bufs now l <->
  exists eb b, Some eb ∈ l /\ bufs !! eb = Some b /\
               acquiredAt b + 100 * Millisecond < now /\
               tg = tag b /\ d = now - acquiredAt b.
Proof.
  induction l as [|[eb|] l IH]; intros Hok; cbn [staleLog].
  - split; [by intros ?%elem_of_nil|]. by intros (eb & b & ?%elem_of_nil & _).
  - assert (Hok' : slots_ok bufs l) by (intros x Hx; apply Hok; by right).
    destruct (Hok eb) as [b Hb]; [left|]. rewrite Hb, elem_of_app, (IH Hok').
    split.
    + intros [Hin|(eb' & b' & Hin & ?)].
      * destruct (acquiredAt b + 100 * Millisecond <? now) eqn:Hst;
          [|by apply elem_of_nil in Hin].
        apply list_elem_of_singleton in Hin. simplify_eq.
        exists eb, b. apply Z.ltb_lt in Hst. split; [left|done].
      * exists eb', b'. split; [by right|done].
    + intros (eb' & b' & Hin & Hb' & Hst & -> & ->).
      apply elem_of_cons in Hin as [Heq|Hin].
      * simplify_eq. left. apply Z.ltb_lt in Hst. rewrite Hst. left.
      * right. by exists eb', b'.
  - assert (Hok' : slots_ok bufs l) by (intros x Hx; apply Hok; by right).
    rewrite (IH Hok'). split.
    + intros (eb & b & Hin & ?). exists eb, b. split; [by right|done].
    + intros (eb & b & Hin & ?). apply elem_of_cons in Hin as [?|Hin]; [done|].
      by exists eb, b.
Qed.
Section Claims.
Variable growCap : Z -> Z -> Z -> Z.

Lemma reachable_step N sz s s' :
  reachable growCap N sz s -> step growCap s s' -> reachable growCap N sz s'.
Proof.
  intros (p & w0 & Hnew & Hsteps) Hstep. exists p, w0. split; [done|].
  by eapply rtc_r.
Qed.

Lemma reachable_rtc N sz s s' :
  reachable growCap N sz s -> rtc (step growCap) s s' -> reachable growCap N sz s'.
Proof.
  intros (p & w0 & Hnew & Hsteps) Hstep. exists p, w0. split; [done|].
  by etrans.
Qed.

(** Claim C1. Pool state invariant.  In every reachable state of a valid pool the
    handles in the available queue and the non-empty slots of [buffersInUse]
    add up to [count], no handle is both in the queue and in a slot, and two
    leased buffers never hold the same slot index; every step of the program
    (Acquire, Release, BuffersAvailable, a watchdog scan, a write into a
    buffer, a step of Free) that leaves the pool valid keeps it so. *)
Theorem pool_state_invariant N sz s :
  reachable growCap N sz s ->
  valid (world s) ->
  bookkeeping (world s) /\
  forall s', step growCap s s' -> valid (world s') -> bookkeeping (world s').
Proof.
  assert (Hgen : forall s, reachable growCap N sz s -> valid (world s) -> bookkeeping (world s)).
  { intros s0 Hr Hv.
    destruct (reachable_valid _ _ _ _ Hr Hv) as (_ & _ & _ & P & HP & Hcnt & HC).
    by eapply Core_bookkeeping. }
  intros Hr Hv. split; [by apply Hgen|].
  intros s' Hstep Hv'. apply Hgen; [|done]. by eapply reachable_step.
Qed.

Lemma reachable_leased N sz s eb :
  reachable growCap N sz s -> leased (world s) eb ->
  exists P dr, thepool (world s) = Some P /\ Core N (held s) dr P (buffers (world s)).
Proof.
  intros Hr Hl.
  destruct (decide (0 < N /\ 0 < sz)) as [[Hc Hs]|Hbad].
  - destruct (reachable_Inv _ _ _ _ Hc Hs Hr) as (P & HP & Hpc).
    exists P. destruct (freeing s) as [|i c|].
    + exists []. by destruct Hpc.
    + destruct Hpc as (_ & _ & dr & _ & HC). by exists dr.
    + destruct Hpc as (_ & _ & _ & Hin & _).
      unfold leased, inUse in Hl. rewrite HP, Hin in Hl. by apply elem_of_nil in Hl.
  - unfold leased, inUse in Hl.
    rewrite (reachable_nil growCap N sz s) in Hl; [|lia|done]. by apply elem_of_nil in Hl.
Qed.

(** Claim C2. Release of a leased buffer.  After Release returns, the content
    length is zero, the capacity is what it was, the tag is the empty string,
    the slot the buffer held is empty and its index is -1, and the handle is
    at the back of the available queue, whatever was written before. *)
Theorem Release_clears N sz s eb b :
  reachable growCap N sz s ->
  leased (world s) eb ->
  buffers (world s) !! eb = Some b ->
  exists w' b',
    Release eb (world s) = Done tt w' /\
    buffers w' !! eb = Some b' /\
    Len b' = 0 /\ Cap b' = Cap b /\ tag b' = EmptyString /\ index b' = -1 /\
    inUse w' !! Z.to_nat (index b) = Some None /\
    ~ leased w' eb /\
    available w' = available (world s) ++ [eb].
Proof.
  intros Hr Hl Hb.
  destruct (reachable_leased _ _ _ _ Hr Hl) as (P & dr & HP & HC).
  destruct (Release_leased _ _ _ _ _ _ HP HC Hl) as (b0 & Hb0 & Hhs & Hidx & Hslot & Hrun & HC').
  assert (b0 = b) as -> by congruence.
  eexists. exists (released b). split; [exact Hrun|].
  assert (Hlt : (eb < length (buffers (world s)))%nat) by (by eapply lookup_lt_Some).
  unfold inUse, available in *. rewrite HP in *. simpl.
  split; [by rewrite list_lookup_insert_eq|]. do 4 (split; [done|]).
  split; [apply list_lookup_insert_eq; by eapply lookup_lt_Some|].
  split; [|done].
  unfold leased, inUse; simpl. apply (Core_idle_not_leased HC').
  apply elem_of_app. left. apply elem_of_app. right. by left.
Qed.

Lemma mono_step N s s' :
  Inv N s -> step growCap s s' -> bufs_mono (buffers (world s)) (buffers (world s')).
Proof.
  intros HI Hstep. destruct Hstep; simpl.
  - by apply (mono_Acquire _ _ _ _ _ HI H).
  - by apply (mono_Acquire _ _ _ _ _ HI H).
  - by apply (mono_Release _ _ _ _ HI H0).
  - destruct w as [pp bufs clk lg].
    destruct (bufs !! eb) as [b|] eqn:Hb.
    + rewrite (Write_run _ _ _ _ _ _ _ _ Hb) in H0. simplify_eq. simpl.
      eapply bufs_mono_insert; [done|]. simpl. lia.
    + unfold Write in H0. go_simpl_in H0. by rewrite Hb in H0.
  - rewrite (Inv_BuffersAvailable _ _ _ _ _ _ _ HI H). apply bufs_mono_refl.
  - destruct (Inv_poolMonitor _ _ _ _ _ _ _ HI H) as (evs & -> & _). apply bufs_mono_refl.
  - destruct (Inv_lock_pool _ _ HI) as (P & HP & Hlk & _). simpl in *.
    open_world w P. subst lk. destruct pc as [|i c|]; cbn [Free_step] in H0.
    + unfold bind in H0. rewrite Free_enter_run in H0.
      destruct ((sz =? 0) || (cnt =? 0)); unfold ret in H0; simplify_eq; apply bufs_mono_refl.
    + destruct (i <? c).
      * unfold bind in H0. rewrite recv_run in H0. destruct q; [done|].
        unfold ret in H0. simplify_eq. apply bufs_mono_refl.
      * unfold Free_exit in H0. go_simpl_in H0. simplify_eq. apply bufs_mono_refl.
    + done.
  - apply bufs_mono_refl.
Qed.

Lemma mono_rtc N s s' :
  Inv N s -> rtc (step growCap) s s' ->
  bufs_mono (buffers (world s)) (buffers (world s')).
Proof.
  intros HI Hsteps. induction Hsteps as [|s1 s2 s3 Hstep _ IH]; [apply bufs_mono_refl|].
  eapply bufs_mono_trans; [by eapply mono_step|]. apply IH. by eapply Inv_step.
Qed.

(** Claim C3. Growth warning on Release of a leased buffer.  A warning carrying
    the tag, the capacity and the size the pool was created with is logged
    if and only if the capacity exceeds the high-water mark [origSize], and
    then [origSize] becomes that capacity; whatever the program does next, a
    later Release of the same buffer at the same or a smaller capacity logs
    nothing. *)
Theorem Release_growth_warning N sz s eb b :
  reachable growCap N sz s ->
  leased (world s) eb ->
  buffers (world s) !! eb = Some b ->
  exists w' b',
    Release eb (world s) = Done tt w' /\
    buffers w' !! eb = Some b' /\
    (origSize b < Cap b ->
       logged w' = logged (world s) ++ [WarnAllocated (tag b) (Cap b) (poolSize (world s))] /\
       origSize b' = Cap b) /\
    (Cap b <= origSize b ->
       logged w' = logged (world s) /\ origSize b' = origSize b) /\
    forall s2 b2,
      rtc (step growCap) (mkSys w' (held s) (freeing s) (watching s)) s2 ->
      leased (world s2) eb ->
      buffers (world s2) !! eb = Some b2 ->
      Cap b2 <= Cap b ->
      exists w3, Release eb (world s2) = Done tt w3 /\ logged w3 = logged (world s2).
Proof.
  intros Hr Hl Hb.
  destruct (reachable_leased _ _ _ _ Hr Hl) as (P & dr & HP & HC).
  destruct (Release_leased _ _ _ _ _ _ HP HC Hl) as (b0 & Hb0 & Hhs & Hidx & Hslot & Hrun & HC').
  assert (b0 = b) as -> by congruence.
  assert (Hlt : (eb < length (buffers (world s)))%nat) by (by eapply lookup_lt_Some).
  eexists. exists (released b). split; [exact Hrun|]. simpl.
  split; [by rewrite list_lookup_insert_eq|].
  unfold poolSize. rewrite HP. unfold growthLog, released. simpl.
  split; [|split].
  - intros Hgt. by replace (Cap b >? origSize b) with true by (symmetry; apply Z.gtb_lt; lia).
  - intros Hle. replace (Cap b >? origSize b) with false
      by (symmetry; rewrite Z.gtb_ltb; apply Z.ltb_ge; lia).
    by rewrite app_nil_r.
  - intros s2 b2 Hsteps Hl2 Hb2 Hcap.
    assert (Hstep1 : step growCap s (mkSys
       (mkWorld (Some (mkPool (size P) (count P) false
                               (mkChan (chan_buf (buffersAvailable P) ++ [eb])
                                       (chan_cap (buffersAvailable P)))
                               (<[Z.to_nat (index b) := None]> (buffersInUse P))))
                 (<[eb := released b]> (buffers (world s))) (clock (world s))
                 (logged (world s) ++ growthLog (size P) b))
       (held s) (freeing s) (watching s))).
    { destruct s as [w hs pc m]. simpl in *. by apply (step_Release growCap w hs pc m eb). }
    pose proof (reachable_step _ _ _ _ Hr Hstep1) as Hr1.
    pose proof (reachable_rtc _ _ _ _ Hr1 Hsteps) as Hr2.
    destruct (reachable_leased _ _ _ _ Hr2 Hl2) as (P2 & dr2 & HP2 & HC2).
    destruct (Release_leased _ _ _ _ _ _ HP2 HC2 Hl2)
      as (b2' & Hb2' & _ & _ & _ & Hrun2 & _).
    assert (b2' = b2) as -> by congruence.
    eexists. split; [exact Hrun2|]. simpl.
    assert (HN : 0 < N) by apply (core_N _ _ _ _ _ HC).
    assert (Hsz : 0 < sz).
    { destruct (decide (0 < sz)) as [|Hbad]; [done|].
      rewrite (reachable_nil growCap N sz s) in HP; [done|lia|done]. }
    pose proof (reachable_Inv _ _ _ _ HN Hsz Hr1) as HI1.
    destruct (mono_rtc _ _ _ HI1 Hsteps eb (released b)) as (b2'' & Hb2'' & Hle).
    { simpl. by rewrite list_lookup_insert_eq. }
    assert (b2'' = b2) as -> by congruence.
    pose proof (origSize_released b) as [_ Hcapb].
    unfold growthLog.
    replace (Cap b2 >? origSize b2) with false
      by (symmetry; rewrite Z.gtb_ltb; apply Z.ltb_ge; lia).
    by rewrite app_nil_r.
Qed.

(** Claim C4. Slot assignment.  An Acquire on a valid pool that takes a buffer
    off the queue puts it in the empty slot of lowest index, sets the index
    of the buffer to that slot, and stamps it with the tag of the caller and
    the current time. *)
Theorem Acquire_first_free N sz s tg eb q :
  reachable growCap N sz s ->
  valid (world s) ->
  available (world s) = eb :: q ->
  exists (i : nat) b w',
    Acquire thePool tg (world s) = Done (Some eb) w' /\
    inUse (world s) !! i = Some None /\
    (forall j, (j < i)%nat -> inUse (world s) !! j <> Some None) /\
    inUse w' = <[i := Some eb]> (inUse (world s)) /\
    available w' = q /\
    buffers (world s) !! eb = Some b /\
    buffers w' !! eb
    = Some (mkBuffer (Buffer_bytes b) (pool b) (Z.of_nat i) (origSize b)
                     (clock (world s)) tg).
Proof.
  intros Hr Hv Hq.
  destruct (reachable_valid _ _ _ _ Hr Hv) as (HN & Hsz & _ & P & HP & Hcnt & HC).
  destruct s as [w hs pc m]. simpl in *.
  unfold available, inUse in *. rewrite HP in *. open_world w P. subst q0 cnt.
  pose proof (core_lock _ _ _ _ _ HC) as Hlk. simpl in Hlk. subst lk.
  pose proof (core_size _ _ _ _ _ HC) as Hsz'. simpl in Hsz'.
  destruct (Core_Acquire _ _ _ _ _ _ _ _ _ _ tg clk HC)
    as (b & i & Hb & Hi & Hi0 & Hfree & Hlow & HC').
  assert (Hg : (sz0 =? 0) || (N =? 0) = false).
  { apply orb_false_intro; apply Z.eqb_neq; lia. }
  exists (Z.to_nat i), b. eexists.
  split; [by apply Acquire_run|]. simpl.
  split; [done|]. split.
  { intros j Hj Hnone. destruct (Hlow j Hj) as [eb' Heb']. congruence. }
  unfold claimSlot, acquired. rewrite Hi. do 3 (split; [done|]).
  rewrite list_lookup_insert_eq by (by eapply lookup_lt_Some).
  by rewrite Z2Nat.id by done.
Qed.

(** Claim C5 (as amended). Invalid and torn-down pools.  NewPool with a count or
    a size that is not positive logs an error and returns the nil pool; the
    methods have no nil check, and on that nil pool they dereference it and
    panic.  On a pool that exists and whose size or count is zero (a pool
    after Free, a zero-value Pool) Acquire returns nil at once without
    blocking, BuffersAvailable returns 0 and Free does nothing; a pool on
    which Free has returned is such a pool. *)
Theorem invalid_pool_operations N sz w0 w P tg :
  N <= 0 \/ sz <= 0 ->
  thepool w = Some P ->
  size P = 0 \/ count P = 0 ->
  NewPool growCap N sz w0
  = Done nilPool (set_logged (logged w0 ++ [ErrorInvalidArguments]) w0) /\
  (Acquire nilPool tg w0 = Panicked w0 /\
   BuffersAvailable nilPool w0 = Panicked w0 /\
   Free nilPool w0 = Panicked w0) /\
  (Acquire thePool tg w = Done None w /\
   BuffersAvailable thePool w = Done 0 w /\
   Free thePool w = Done tt w) /\
  (forall w1 w2, Free thePool w1 = Done tt w2 ->
     exists P2, thepool w2 = Some P2 /\ (size P2 = 0 \/ count P2 = 0)).
Proof.
  intros Hbad HP Hz.
  split; [by apply NewPool_invalid|].
  split; [done|].
  split; [|apply Free_torn_down].
  destruct w as [pp bufs clk lg]. simpl in HP. subst pp.
  assert (Hg : (size P =? 0) || (count P =? 0) = true).
  { apply orb_true_iff. rewrite !Z.eqb_eq. done. }
  by rewrite Acquire_guard, BuffersAvailable_guard, Free_guard.
Qed.

(** Claim C6. BuffersAvailable.  On a fresh pool of [N] buffers, after one
    Acquire for each of [k <= N] tags BuffersAvailable returns [N - k], and
    after these [k] buffers are released, in any order, it returns [N].  In
    every reachable state of a valid pool it returns the number of empty
    slots of [buffersInUse]. *)
Theorem BuffersAvailable_counts N sz tags :
  0 < N -> 0 < sz ->
  Z.of_nat (length tags) <= N ->
  exists w0 ebs w1,
    NewPool growCap N sz emptyWorld = Done thePool w0 /\
    acquireAll tags w0 = Done ebs w1 /\
    length ebs = length tags /\
    BuffersAvailable thePool w1 = Done (N - Z.of_nat (length tags)) w1 /\
    (forall l, l ≡ₚ ebs ->
       exists w2, releaseAll l w1 = Done tt w2 /\
                  BuffersAvailable thePool w2 = Done N w2) /\
    (forall s, reachable growCap N sz s -> valid (world s) ->
       BuffersAvailable thePool (world s)
       = Done (Z.of_nat (length (filter (fun o => o = None) (inUse (world s)))))
              (world s)).
Proof.
  intros HN Hsz Hk.
  pose proof (Core_init growCap N sz HN Hsz) as HC0.
  destruct (acquireAll_run N tags _ _ _ _ _ _ 0 [] HC0)
    as (hs' & inuse' & bufs' & Hrun & HC1 & Hocc).
  { rewrite length_seq. lia. }
  eexists. exists (take (length tags) (seq 0 (Z.to_nat N))). eexists.
  split; [by apply NewPool_run|]. split; [exact Hrun|].
  assert (Hlen : length (take (length tags) (seq 0 (Z.to_nat N))) = length tags).
  { rewrite length_take, length_seq. lia. }
  split; [done|].
  rewrite occupied_replicate, app_nil_r in Hocc.
  match type of Hrun with _ = Done _ ?w => set (w1 := w) in * end.
  split; [|split].
  - destruct (BuffersAvailable_Core N hs' w1 _ eq_refl eq_refl HC1) as [Hba _].
    rewrite Hba. unfold inUse. simpl. by rewrite Hocc, Hlen.
  - intros l Hl.
    destruct (releaseAll_run N hs' l w1 _ eq_refl HC1)
      as (w2 & P2 & Hrel & HP2 & _ & Hc2 & HC2 & Hocc2).
    { rewrite Hl. eapply sublist_NoDup; [apply NoDup_seq|apply sublist_take]. }
    { intros eb Hin. unfold leased, inUse. simpl. apply elem_of_occupied.
      by rewrite Hocc, <- Hl. }
    exists w2. split; [exact Hrel|].
    destruct (BuffersAvailable_Core N hs' w2 P2 HP2 Hc2 HC2) as [Hba _].
    rewrite Hba. unfold inUse in Hocc2 at 1. simpl in Hocc2.
    rewrite Hocc, Hl in Hocc2.
    apply Permutation_length in Hocc2. rewrite length_app in Hocc2.
    do 2 f_equal. lia.
  - intros s Hr Hv.
    destruct (reachable_valid _ _ _ _ Hr Hv) as (_ & _ & _ & P & HP & Hcnt & HC).
    destruct (BuffersAvailable_Core N _ _ _ HP Hcnt HC) as [Hba Heq].
    by rewrite Hba, Heq.
Qed.

(** Claim C7. Free.  On a valid pool Free first sets [count] to 0, after
    which the next scan of the watchdog returns, and only then drains: it
    takes handles off the
    available queue one at a time, cannot take the next one while the queue
    is empty, that is while buffers are still leased, leaves the loop when it
    has taken exactly the original [count] handles, and then discards
    [buffersInUse].  Once every leased buffer has been released it runs to
    its end without blocking. *)
Theorem Free_drains N sz s :
  reachable growCap N sz s ->
  0 < N -> 0 < sz ->
  match freeing s with
  | FreeNotCalled =>
      poolCount (world s) = N /\
      Free_step thePool FreeNotCalled (world s)
      = Done (FreeDraining 0 N) (set_poolCount 0 (world s)) /\
      (occupied (inUse (world s)) = [] ->
       Free thePool (world s)
       = Done tt (set_inUse [] (set_queue [] (set_poolCount 0 (world s))))) /\
      (occupied (inUse (world s)) <> [] ->
       exists w', Free thePool (world s) = Blocked w')
  | FreeDraining i count0 =>
      count0 = N /\ poolCount (world s) = 0 /\ 0 <= i <= N /\
      Z.of_nat (length (available (world s)))
      + Z.of_nat (length (occupied (inUse (world s)))) + i = N /\
      Free_step thePool (FreeDraining i count0) (world s)
      = (if i <? N
         then match available (world s) with
              | [] => Blocked (world s)
              | eb :: q => Done (FreeDraining (i + 1) count0) (set_queue q (world s))
              end
         else Done FreeReturned (set_inUse [] (world s))) /\
      (occupied (inUse (world s)) = [] ->
       bind (drain thePool (Z.to_nat (N - i))) (fun _ => Free_exit thePool) (world s)
       = Done tt (set_inUse [] (set_queue [] (world s)))) /\
      poolMonitor_iter thePool (world s)
      = Done false (set_logged (logged (world s) ++ [DebugMonitorExiting]) (world s))
  | FreeReturned =>
      poolCount (world s) = 0 /\ available (world s) = [] /\ inUse (world s) = [] /\
      poolMonitor_iter thePool (world s)
      = Done false (set_logged (logged (world s) ++ [DebugMonitorExiting]) (world s))
  end.
Proof.
  intros Hr HN Hsz.
  destruct (reachable_Inv _ _ _ _ HN Hsz Hr) as (P & HP & Hpc).
  destruct s as [w hs pc m]. simpl in *.
  unfold poolCount, available, inUse, set_poolCount, set_queue, set_inUse.
  open_world w P. destruct pc as [|i c|].
  - destruct Hpc as [-> HC].
    pose proof (core_lock _ _ _ _ _ HC) as Hlk. simpl in Hlk. subst lk.
    pose proof (core_size _ _ _ _ _ HC) as Hsz'. simpl in Hsz'.
    pose proof (Core_total HC) as Htot. simpl in Htot.
    assert (Hg : (sz0 =? 0) || (N =? 0) = false).
    { apply orb_false_intro; apply Z.eqb_neq; lia. }
    split; [done|]. split; [|split].
    + cbn [Free_step]. unfold bind. by rewrite Free_enter_run, Hg.
    + intros Hocc. rewrite Hocc in Htot. simpl in Htot.
      rewrite Free_run by done. rewrite decide_True by lia.
      by rewrite drop_ge by lia.
    + intros Hocc. rewrite Free_run by done. rewrite decide_False; [by eexists|].
      destruct (occupied inuse); [done|]. simpl in Htot. lia.
  - destruct Hpc as (-> & -> & dr & <- & HC).
    pose proof (core_lock _ _ _ _ _ HC) as Hlk. simpl in Hlk. subst lk.
    pose proof (Core_total HC) as Htot.
    split; [done|]. split; [done|]. split; [lia|]. split; [lia|]. split; [|split].
    + cbn [Free_step]. destruct (Z.of_nat (length dr) <? N).
      * unfold bind. rewrite recv_run. by destruct q.
      * unfold Free_exit. by go_simpl.
    + intros Hocc. rewrite Hocc in Htot. simpl in Htot.
      unfold bind. rewrite drain_run. rewrite decide_True by lia.
      unfold Free_exit. go_simpl. by rewrite drop_ge by lia.
    + by rewrite poolMonitor_iter_exit.
  - destruct Hpc as (-> & -> & -> & -> & _). do 3 (split; [done|]).
    by rewrite poolMonitor_iter_exit.
Qed.

(** Claim C8 (as amended). Leased state of a buffer.  In every reachable state
    of a valid pool: a leased buffer has an index other than -1, the index
    of the slot that holds it; a buffer that Acquire has handed out at least
    once and whose index is not -1 is leased; a buffer with a non-empty tag
    is leased, and a buffer that is not leased has the empty tag.  (A leased
    buffer carries the tag of its caller, which may be empty.) *)
Theorem leased_state N sz s eb b :
  reachable growCap N sz s ->
  valid (world s) ->
  buffers (world s) !! eb = Some b ->
  (leased (world s) eb ->
     index b <> -1 /\ inUse (world s) !! Z.to_nat (index b) = Some (Some eb)) /\
  (eb ∈ held s -> index b <> -1 -> leased (world s) eb) /\
  (tag b <> EmptyString -> leased (world s) eb) /\
  (~ leased (world s) eb -> tag b = EmptyString).
Proof.
  intros Hr Hv Hb.
  destruct (reachable_valid _ _ _ _ Hr Hv) as (HN & Hsz & _ & P & HP & Hcnt & HC).
  destruct s as [w hs pc m]. simpl in *.
  unfold leased, inUse. rewrite HP. open_world w P.
  pose proof (core_lock _ _ _ _ _ HC) as Hlk. simpl in Hlk. subst lk.
  assert (Hcover : eb ∈ q \/ Some eb ∈ inuse).
  { pose proof (Core_cover HC eb ltac:(by exists b)) as Hc.
    rewrite app_nil_r in Hc. apply elem_of_app in Hc as [?|?%elem_of_occupied]; [by left|by right]. }
  assert (Hidle : eb ∈ q -> tag b = EmptyString /\ (index b = -1 \/ index b = 0 /\ eb ∉ hs)).
  { intros Hq. destruct (core_idle _ _ _ _ _ HC eb) as (b' & Hb' & Ht & Hi).
    - simpl. by rewrite app_nil_r.
    - by simplify_eq. }
  split; [|split; [|split]].
  - intros Hl. destruct (Core_leased HC eb Hl) as (b' & Hb' & Hidx & Hslot & _).
    simplify_eq. split; [lia|done].
  - intros Hhs Hidx. destruct Hcover as [Hq|?]; [|done].
    destruct (Hidle Hq) as [_ [?|[_ ?]]]; done.
  - intros Htag. destruct Hcover as [Hq|?]; [|done].
    by destruct (Hidle Hq) as [? _].
  - intros Hnl. destruct Hcover as [Hq|?]; [|done].
    by destruct (Hidle Hq) as [? _].
Qed.

(** Claim C9. The watchdog only observes.  One turn of the loop of poolMonitor
    that returns leaves the pool, the buffers and the clock as they were and
    only adds events to the log, in every state.  In every state the program
    reaches it does return: with the exit message when [count] is 0, and
    otherwise with one warning for each leased buffer acquired more than
    100 ms ago, carrying its tag and the time it has been held; no stale
    buffer is taken back. *)
Theorem poolMonitor_observes N sz s :
  reachable growCap N sz s ->
  0 < N -> 0 < sz ->
  (forall w again w',
     poolMonitor_iter thePool w = Done again w' ->
     thepool w' = thepool w /\ buffers w' = buffers w /\ clock w' = clock w /\
     exists evs, logged w' = logged w ++ evs /\ Forall monitorEvent evs) /\
  exists evs,
    poolMonitor_iter thePool (world s)
    = Done (negb (poolCount (world s) =? 0))
           (set_logged (logged (world s) ++ evs) (world s)) /\
    (poolCount (world s) = 0 -> evs = [DebugMonitorExiting]) /\
    (poolCount (world s) <> 0 ->
       evs = staleLog (buffers (world s)) (clock (world s)) (inUse (world s)) /\
       forall tg d,
         WarnHeld tg d ∈ evs <->
         exists eb b,
           leased (world s) eb /\ buffers (world s) !! eb = Some b /\
           acquiredAt b + 100 * Millisecond < clock (world s) /\
           tg = tag b /\ d = clock (world s) - acquiredAt b).
Proof.
  intros Hr HN Hsz. split; [apply poolMonitor_iter_frame|].
  destruct (reachable_Inv _ _ _ _ HN Hsz Hr) as (P & HP & Hpc).
  destruct s as [w hs pc m]. simpl in *.
  unfold poolCount, inUse, leased. rewrite HP. open_world w P.
  destruct pc as [|i c|].
  - destruct Hpc as [-> HC].
    pose proof (core_lock _ _ _ _ _ HC) as Hlk. simpl in Hlk. subst lk.
    pose proof (Core_slots_ok HC) as Hok.
    rewrite poolMonitor_iter_run by done.
    replace (N =? 0) with false by (symmetry; apply Z.eqb_neq; lia).
    eexists. split; [reflexivity|]. split; [lia|]. intros _. split; [done|].
    intros tg d. unfold inUse. simpl. by apply elem_of_staleLog.
  - destruct Hpc as (-> & _ & dr & _ & HC).
    pose proof (core_lock _ _ _ _ _ HC) as Hlk. simpl in Hlk. subst lk.
    rewrite poolMonitor_iter_exit. eexists. split; [reflexivity|]. split; [done|]. done.
  - destruct Hpc as (-> & -> & _).
    rewrite poolMonitor_iter_exit. eexists. split; [reflexivity|]. split; [done|]. done.
Qed.

(** Claim C10. Release is safe only on a leased buffer.  Release writes
    [buffersInUse[index]] with no bounds check: on a buffer of the pool it
    panics exactly when the index of the buffer is not a position of
    [buffersInUse].  A leased buffer has its slot as index, and Release
    returns; once it has returned the index is -1, and a second Release of
    the same handle is an out-of-range access: it panics, it is not a
    no-op. *)
Theorem Release_needs_lease N sz s eb b :
  reachable growCap N sz s ->
  0 < N -> 0 < sz ->
  buffers (world s) !! eb = Some b ->
  ((exists w', Release eb (world s) = Panicked w') <->
   ~ (0 <= index b < Z.of_nat (length (inUse (world s))))) /\
  (leased (world s) eb ->
     0 <= index b < Z.of_nat (length (inUse (world s))) /\
     exists w', Release eb (world s) = Done tt w') /\
  (forall w1, Release eb (world s) = Done tt w1 ->
     exists b1 w2, buffers w1 !! eb = Some b1 /\ index b1 = -1 /\
                   Release eb w1 = Panicked w2).
Proof.
  intros Hr HN Hsz Hb.
  pose proof (reachable_Inv _ _ _ _ HN Hsz Hr) as HI.
  destruct (Inv_lock_pool _ _ HI) as (P & HP & Hlk & Hpool).
  destruct s as [w hs pc m]. simpl in *.
  assert (Hlt : (eb < length (buffers w))%nat) by (by eapply lookup_lt_Some).
  split; [|split].
  - unfold inUse. rewrite HP. open_world w P. subst lk.
    rewrite (Release_run _ _ _ _ _ _ _ _ _ _ Hb (Hpool _ _ Hb)).
    destruct ((0 <=? index b) && (index b <? Z.of_nat (length inuse))) eqn:Hc.
    + apply andb_true_iff in Hc as [H0 H1]. apply Z.leb_le in H0. apply Z.ltb_lt in H1.
      split; [|lia]. intros [w' Hw']. by destruct (Z.of_nat (length q) <? cap).
    + split; [|by eexists]. intros _ [H0 H1].
      apply andb_false_iff in Hc as [Hc|Hc]; [apply Z.leb_gt in Hc|apply Z.ltb_ge in Hc]; lia.
  - intros Hl. destruct (reachable_leased _ _ _ _ Hr Hl) as (P' & dr & HP' & HC).
    simpl in *. assert (P' = P) as -> by congruence.
    destruct (Release_leased _ _ _ _ _ _ HP HC Hl) as (b' & Hb' & _ & Hidx & _ & Hrel & _).
    assert (b' = b) as -> by congruence.
    pose proof (core_len _ _ _ _ _ HC) as Hlen.
    unfold inUse. rewrite HP. split; [lia|by eexists].
  - intros w1 Hrel. open_world w P. subst lk.
    rewrite (Release_run _ _ _ _ _ _ _ _ _ _ Hb (Hpool _ _ Hb)) in Hrel.
    destruct ((0 <=? index b) && (index b <? Z.of_nat (length inuse))); [|done].
    destruct (Z.of_nat (length q) <? cap); [|done]. simplify_eq. simpl.
    exists (released b). eexists. split; [by rewrite list_lookup_insert_eq|].
    split; [done|].
    rewrite (Release_run _ eb (released b)).
    + reflexivity.
    + by rewrite list_lookup_insert_eq.
    + simpl. by eapply Hpool.
Qed.

End Claims.

Lemma pool_state_invariant_witness :
  bookkeeping pool2_leased /\
  forall s', step goGrow (mkSys pool2_leased [0%nat] FreeNotCalled true) s' ->
             valid (world s') -> bookkeeping (world s').
Proof.
  apply (pool_state_invariant goGrow 2 8 (mkSys pool2_leased [0%nat] FreeNotCalled true)).
  - exists thePool, pool2. split; [reflexivity|].
    eapply rtc_l; [|apply rtc_refl].
    apply (step_Acquire goGrow pool2 [] FreeNotCalled true "t" 0%nat pool2_leased).
    reflexivity.
  - eexists. split; [reflexivity|]. simpl. lia.
Defined.

Lemma Release_clears_witness :
  exists w' b',
    Release 0%nat pool2_leased = Done tt w' /\
    buffers w' !! 0%nat = Some b' /\
    Len b' = 0 /\ Cap b' = 64 /\ tag b' = EmptyString /\ index b' = -1 /\
    inUse w' !! 0%nat = Some None /\
    ~ leased w' 0%nat /\
    available w' = [1%nat; 0%nat].
Proof.
  apply (Release_clears goGrow 2 8 (mkSys pool2_leased [0%nat] FreeNotCalled true) 0%nat
           (mkBuffer (mkBytes [] 64) thePool 0 8 0 "t")).
  - exists thePool, pool2. split; [reflexivity|].
    eapply rtc_l; [|apply rtc_refl].
    apply (step_Acquire goGrow pool2 [] FreeNotCalled true "t" 0%nat pool2_leased).
    reflexivity.
  - unfold leased. simpl. left.
  - reflexivity.
Defined.

Lemma Release_growth_warning_witness :
  exists w' b',
    Release 0%nat pool2_leased = Done tt w' /\
    buffers w' !! 0%nat = Some b' /\
    (8 < 64 ->
       logged w' = [WarnAllocated "t" 64 8] /\ origSize b' = 64) /\
    (64 <= 8 -> logged w' = [] /\ origSize b' = 8) /\
    forall s2 b2,
      rtc (step goGrow) (mkSys w' [0%nat] FreeNotCalled true) s2 ->
      leased (world s2) 0%nat ->
      buffers (world s2) !! 0%nat = Some b2 ->
      Cap b2 <= 64 ->
      exists w3, Release 0%nat (world s2) = Done tt w3 /\ logged w3 = logged (world s2).
Proof.
  apply (Release_growth_warning goGrow 2 8 (mkSys pool2_leased [0%nat] FreeNotCalled true)
           0%nat (mkBuffer (mkBytes [] 64) thePool 0 8 0 "t")).
  - exists thePool, pool2. split; [reflexivity|].
    eapply rtc_l; [|apply rtc_refl].
    apply (step_Acquire goGrow pool2 [] FreeNotCalled true "t" 0%nat pool2_leased).
    reflexivity.
  - unfold leased. simpl. left.
  - reflexivity.
Defined.

Lemma Acquire_first_free_witness :
  exists (i : nat) b w',
    Acquire thePool "t" pool2 = Done (Some 0%nat) w' /\
    inUse pool2 !! i = Some None /\
    (forall j, (j < i)%nat -> inUse pool2 !! j <> Some None) /\
    inUse w' = <[i := Some 0%nat]> (inUse pool2) /\
    available w' = [1%nat] /\
    buffers pool2 !! 0%nat = Some b /\
    buffers w' !! 0%nat
    = Some (mkBuffer (Buffer_bytes b) (pool b) (Z.of_nat i) (origSize b) 0 "t").
Proof.
  apply (Acquire_first_free goGrow 2 8 (mkSys pool2 [] FreeNotCalled true) "t" 0%nat [1%nat]).
  - exists thePool, pool2. split; [reflexivity|]. apply rtc_refl.
  - eexists. split; [reflexivity|]. simpl. lia.
  - reflexivity.
Defined.

Lemma invalid_pool_counterexample :
  NewPool goGrow 0 1000 emptyWorld = Done nilPool refused /\
  Acquire nilPool "t" refused = Panicked refused /\
  BuffersAvailable nilPool refused = Panicked refused /\
  Free nilPool refused = Panicked refused.
Proof. repeat split. Qed.

Lemma invalid_pool_operations_witness :
  NewPool goGrow 0 1000 emptyWorld
  = Done nilPool (set_logged (logged emptyWorld ++ [ErrorInvalidArguments]) emptyWorld) /\
  (Acquire nilPool "t" emptyWorld = Panicked emptyWorld /\
   BuffersAvailable nilPool emptyWorld = Panicked emptyWorld /\
   Free nilPool emptyWorld = Panicked emptyWorld) /\
  (Acquire thePool "t" pool2_freed = Done None pool2_freed /\
   BuffersAvailable thePool pool2_freed = Done 0 pool2_freed /\
   Free thePool pool2_freed = Done tt pool2_freed) /\
  (forall w1 w2, Free thePool w1 = Done tt w2 ->
     exists P2, thepool w2 = Some P2 /\ (size P2 = 0 \/ count P2 = 0)).
Proof.
  apply (invalid_pool_operations goGrow 0 1000 emptyWorld pool2_freed
           (mkPool 8 0 false (mkChan [] 2) [])).
  - left. lia.
  - reflexivity.
  - right. reflexivity.
Defined.

Lemma BuffersAvailable_counts_witness :
  exists w0 ebs w1,
    NewPool goGrow 2 8 emptyWorld = Done thePool w0 /\
    acquireAll ["a"] w0 = Done ebs w1 /\
    length ebs = 1%nat /\
    BuffersAvailable thePool w1 = Done (2 - 1) w1 /\
    (forall l, l ≡ₚ ebs ->
       exists w2, releaseAll l w1 = Done tt w2 /\
                  BuffersAvailable thePool w2 = Done 2 w2) /\
    (forall s, reachable goGrow 2 8 s -> valid (world s) ->
       BuffersAvailable thePool (world s)
       = Done (Z.of_nat (length (filter (fun o => o = None) (inUse (world s)))))
              (world s)).
Proof. apply (BuffersAvailable_counts goGrow 2 8 ["a"]); simpl; lia. Defined.

Lemma Free_drains_witness :
  poolCount pool2_leased = 2 /\
  Free_step thePool FreeNotCalled pool2_leased
  = Done (FreeDraining 0 2) (set_poolCount 0 pool2_leased) /\
  (occupied (inUse pool2_leased) = [] ->
   Free thePool pool2_leased
   = Done tt (set_inUse [] (set_queue [] (set_poolCount 0 pool2_leased)))) /\
  (occupied (inUse pool2_leased) <> [] ->
   exists w', Free thePool pool2_leased = Blocked w').
Proof.
  apply (Free_drains goGrow 2 8 (mkSys pool2_leased [0%nat] FreeNotCalled true)).
  - exists thePool, pool2. split; [reflexivity|].
    eapply rtc_l; [|apply rtc_refl].
    apply (step_Acquire goGrow pool2 [] FreeNotCalled true "t" 0%nat pool2_leased).
    reflexivity.
  - lia.
  - lia.
Defined.

Lemma leased_state_counterexample :
  (exists b, buffers pool2 !! 0%nat = Some b /\ index b <> -1 /\ ~ leased pool2 0%nat) /\
  (exists w b, Acquire thePool EmptyString pool2 = Done (Some 0%nat) w /\
               buffers w !! 0%nat = Some b /\ leased w 0%nat /\ tag b = EmptyString).
Proof.
  split.
  - eexists. split; [reflexivity|]. split; [simpl; lia|].
    unfold leased. intros H.
    assert (Hi : inUse pool2 = [None; None]) by reflexivity.
    rewrite Hi, !elem_of_cons in H. by destruct H as [?|[?|?%elem_of_nil]].
  - do 2 eexists. split; [reflexivity|]. split; [reflexivity|]. split; [|reflexivity].
    unfold leased. simpl. left.
Qed.

Lemma leased_state_witness :
  (leased pool2_leased 0%nat ->
     0 <> -1 /\ inUse pool2_leased !! Z.to_nat 0 = Some (Some 0%nat)) /\
  (0%nat ∈ [0%nat] -> 0 <> -1 -> leased pool2_leased 0%nat) /\
  ("t" <> EmptyString -> leased pool2_leased 0%nat) /\
  (~ leased pool2_leased 0%nat -> "t" = EmptyString).
Proof.
  apply (leased_state goGrow 2 8 (mkSys pool2_leased [0%nat] FreeNotCalled true) 0%nat
           (mkBuffer (mkBytes [] 64) thePool 0 8 0 "t")).
  - exists thePool, pool2. split; [reflexivity|].
    eapply rtc_l; [|apply rtc_refl].
    apply (step_Acquire goGrow pool2 [] FreeNotCalled true "t" 0%nat pool2_leased).
    reflexivity.
  - eexists. split; [reflexivity|]. simpl. lia.
  - reflexivity.
Defined.

(** The pool of two buffers, the first leased, one second later. *)
Lemma poolMonitor_observes_witness :
  (forall w again w',
     poolMonitor_iter thePool w = Done again w' ->
     thepool w' = thepool w /\ buffers w' = buffers w /\ clock w' = clock w /\
     exists evs, logged w' = logged w ++ evs /\ Forall monitorEvent evs) /\
  exists evs,
    poolMonitor_iter thePool (set_clock Second pool2_leased)
    = Done true (set_logged (evs) (set_clock Second pool2_leased)) /\
    (2 = 0 -> evs = [DebugMonitorExiting]) /\
    (2 <> 0 ->
       evs = [WarnHeld "t" Second] /\
       forall tg d,
         WarnHeld tg d ∈ evs <->
         exists eb b,
           leased (set_clock Second pool2_leased) eb /\
           buffers pool2_leased !! eb = Some b /\
           acquiredAt b + 100 * Millisecond < Second /\
           tg = tag b /\ d = Second - acquiredAt b).
Proof.
  apply (poolMonitor_observes goGrow 2 8
           (mkSys (set_clock Second pool2_leased) [0%nat] FreeNotCalled true)).
  - exists thePool, pool2. split; [reflexivity|].
    eapply rtc_l; [|eapply rtc_l; [|apply rtc_refl]].
    + apply (step_Acquire goGrow pool2 [] FreeNotCalled true "t" 0%nat pool2_leased).
      reflexivity.
    + apply (step_tick goGrow pool2_leased [0%nat] FreeNotCalled true Second).
      unfold Second, Millisecond. lia.
  - lia.
  - lia.
Defined.

Lemma Release_needs_lease_witness :
  ((exists w', Release 0%nat pool2_leased = Panicked w') <->
   ~ (0 <= 0 < Z.of_nat (length (inUse pool2_leased)))) /\
  (leased pool2_leased 0%nat ->
     0 <= 0 < Z.of_nat (length (inUse pool2_leased)) /\
     exists w', Release 0%nat pool2_leased = Done tt w') /\
  (forall w1, Release 0%nat pool2_leased = Done tt w1 ->
     exists b1 w2, buffers w1 !! 0%nat = Some b1 /\ index b1 = -1 /\
                   Release 0%nat w1 = Panicked w2).
Proof.
  apply (Release_needs_lease goGrow 2 8 (mkSys pool2_leased [0%nat] FreeNotCalled true)
           0%nat (mkBuffer (mkBytes [] 64) thePool 0 8 0 "t")).
  - exists thePool, pool2. split; [reflexivity|].
    eapply rtc_l; [|apply rtc_refl].
    apply (step_Acquire goGrow pool2 [] FreeNotCalled true "t" 0%nat pool2_leased).
    reflexivity.
  - lia.
  - lia.
  - reflexivity.
Defined.

(** Free called while a buffer is out: it takes the one available handle,
    waits, and ends after the buffer is released. *)
Example Free_waits_for_release :
  let w1 := after (Free_step thePool FreeNotCalled) pool2_leased in
  let w2 := after (Free_step thePool (FreeDraining 0 2)) w1 in
  let w3 := after (Release 0%nat) w2 in
  let w4 := after (Free_step thePool (FreeDraining 1 2)) w3 in
  let w5 := after (Free_step thePool (FreeDraining 2 2)) w4 in
  Free_step thePool FreeNotCalled pool2_leased = Done (FreeDraining 0 2) w1 /\
  Free_step thePool (FreeDraining 0 2) w1 = Done (FreeDraining 1 2) w2 /\
  Free_step thePool (FreeDraining 1 2) w2 = Blocked w2 /\
  Release 0%nat w2 = Done tt w3 /\
  Free_step thePool (FreeDraining 1 2) w3 = Done (FreeDraining 2 2) w4 /\
  Free_step thePool (FreeDraining 2 2) w4 = Done FreeReturned w5 /\
  poolCount w5 = 0 /\ available w5 = [] /\ inUse w5 = [].
Proof. vm_compute. repeat split. Qed.

(** The scenario of TestBasic: ten buffers of 1000 bytes, one of them
    acquired, written to and released, then Free. *)
Example TestBasic :
  let hello := ["H"; "e"; "l"; "l"; "o"]%byte in
  let p := after (NewPool goGrow 10 1000) emptyWorld in
  let w1 := after (Acquire thePool "TestBasic") p in
  let w2 := after (Write goGrow 0%nat hello) w1 in
  let w3 := after (Release 0%nat) w2 in
  let w4 := after (Free thePool) w3 in
  Acquire thePool "TestBasic" p = Done (Some 0%nat) w1 /\
  Write goGrow 0%nat hello w1 = Done 5 w2 /\
  bytes_data <$> (Buffer_bytes <$> buffers w2 !! 0%nat) = Some hello /\
  BuffersAvailable thePool w2 = Done 9 w2 /\
  Release 0%nat w2 = Done tt w3 /\
  BuffersAvailable thePool w3 = Done 10 w3 /\
  Free thePool w3 = Done tt w4.
Proof. vm_compute. repeat split. Qed.

(** The scenario of TestOverflow on a smaller pool: the buffer grows past
    its size once, Release warns once, and not again at the same capacity. *)
Example TestOverflow :
  let p := after (NewPool goGrow 1 100) emptyWorld in
  let w1 := after (Acquire thePool "TestOverflow") p in
  let w2 := after (Write goGrow 0%nat (replicate 101 "000"%byte)) w1 in
  let w3 := after (Release 0%nat) w2 in
  let w4 := after (Acquire thePool "TestOverflow") w3 in
  let w5 := after (Write goGrow 0%nat (replicate 101 "000"%byte)) w4 in
  let w6 := after (Release 0%nat) w5 in
  Release 0%nat w2 = Done tt w3 /\
  logged w3 = [WarnAllocated "TestOverflow" 301 100] /\
  Release 0%nat w5 = Done tt w6 /\
  logged w6 = logged w3.
Proof. vm_compute. repeat split. Qed.

(** * Further properties of the pool *)

Lemma occupied_le (l : list (option handle)) :
  (length (occupied l) <= length l)%nat.
Proof. induction l as [|[eb|] l IH]; simpl; lia. Qed.

Lemma occupied_full (l : list (option handle)) :
  length (occupied l) = length l -> None ∉ l.
Proof.
  induction l as [|[eb|] l IH]; simpl; intros Hlen.
  - apply not_elem_of_nil.
  - apply not_elem_of_cons. split; [done|]. apply IH. lia.
  - pose proof (occupied_le l). lia.
Qed.

Lemma firstFree_clear (l : list (option handle)) : forall i k,
  None ∉ l -> (i < length l)%nat ->
  firstFree (<[i := None]> l) k = Some (k + Z.of_nat i).
Proof.
  induction l as [|o l IH]; intros i k Hfull Hi; simpl in Hi; [lia|].
  apply not_elem_of_cons in Hfull as [Ho Hfull].
  destruct i as [|i]; simpl.
  - f_equal. lia.
  - destruct o as [eb|]; [|done]. rewrite IH by (done || lia). f_equal. lia.
Qed.

Lemma elem_of_claim (l : list (option handle)) i eb eb' :
  l !! i = Some None -> eb' <> eb ->
  Some eb' ∈ <[i := Some eb]> l <-> Some eb' ∈ l.
Proof.
  intros Hi Hne. rewrite !list_elem_of_lookup. split; intros [j Hj]; exists j.
  - destruct (decide (j = i)) as [->|Hji].
    + rewrite list_lookup_insert_eq in Hj by (by eapply lookup_lt_Some). congruence.
    + by rewrite list_lookup_insert_ne in Hj.
  - destruct (decide (j = i)) as [->|Hji]; [congruence|].
    by rewrite list_lookup_insert_ne.
Qed.

Section Extras.
Variable growCap : Z -> Z -> Z -> Z.

(** An Acquire that hands out a buffer, in a state the program reaches. *)
Lemma Acquire_reachable N sz s tg eb w' :
  reachable growCap N sz s ->
  Acquire thePool tg (world s) = Done (Some eb) w' ->
  exists P q b i,
    0 < N /\ 0 < sz /\ freeing s = FreeNotCalled /\
    thepool (world s) = Some P /\ count P = N /\ lock P = false /\
    Core N (held s) [] P (buffers (world s)) /\
    chan_buf (buffersAvailable P) = eb :: q /\
    buffers (world s) !! eb = Some b /\
    firstFree (buffersInUse P) 0 = Some (Z.of_nat i) /\
    buffersInUse P !! i = Some None /\
    w' = mkWorld
           (Some (mkPool (size P) N false (mkChan q (chan_cap (buffersAvailable P)))
                         (<[i := Some eb]> (buffersInUse P))))
           (<[eb := mkBuffer (Buffer_bytes b) (pool b) (Z.of_nat i) (origSize b)
                             (clock (world s)) tg]> (buffers (world s)))
           (clock (world s)) (logged (world s)) /\
    Core N (eb :: held s) []
         (mkPool (size P) N false (mkChan q (chan_cap (buffersAvailable P)))
                 (<[i := Some eb]> (buffersInUse P)))
         (<[eb := mkBuffer (Buffer_bytes b) (pool b) (Z.of_nat i) (origSize b)
                           (clock (world s)) tg]> (buffers (world s))).
Proof.
  intros Hr Hrun.
  destruct (decide (0 < N /\ 0 < sz)) as [[HN Hsz]|Hbad].
  2:{ pose proof (reachable_nil growCap N sz s ltac:(lia) Hr) as Hnil.
      destruct s as [[pp bufs clk lg] hs pc m]. simpl in *. subst pp.
      unfold Acquire in Hrun. by go_simpl_in Hrun. }
  destruct (reachable_Inv _ _ _ _ HN Hsz Hr) as (P & HP & Hpc).
  destruct s as [w hs pc m]. simpl in *. open_world w P.
  destruct pc as [|j c|].
  - destruct Hpc as [-> HC].
    pose proof (core_lock _ _ _ _ _ HC) as Hlk. simpl in Hlk. subst lk.
    pose proof (core_size _ _ _ _ _ HC) as Hsz'. simpl in Hsz'.
    assert (Hg : (sz0 =? 0) || (N =? 0) = false).
    { apply orb_false_intro; apply Z.eqb_neq; lia. }
    destruct q as [|eb0 q]; [by rewrite Acquire_empty in Hrun|].
    destruct (Core_Acquire _ _ _ _ _ _ _ _ _ _ tg clk HC)
      as (b & i & Hb & Hi & Hi0 & Hfree & Hlow & HC').
    rewrite (Acquire_run _ _ _ _ _ _ _ _ _ _ _ Hg Hb) in Hrun.
    unfold claimSlot, acquired in *. rewrite Hi in *. simplify_eq.
    exists (mkPool sz0 N false (mkChan (eb :: q) cap) inuse), q, b, (Z.to_nat i).
    simpl. rewrite Z2Nat.id by done. done.
  - destruct Hpc as (-> & _). rewrite Acquire_guard in Hrun; [done|].
    simpl. apply orb_true_r.
  - destruct Hpc as (-> & _). rewrite Acquire_guard in Hrun; [done|].
    simpl. apply orb_true_r.
Qed.

(** Property X1. NewPool with a positive count and size returns a pool of [N] buffers,
    all of them in the queue in the order they were made and none in a slot;
    every buffer is empty, has the capacity [Grow(size)] gave it, the size as
    high-water mark, the empty tag and index 0, and points to the pool.
    Nothing is logged, and BuffersAvailable returns [N]. *)
Theorem NewPool_creates N sz :
  0 < N -> 0 < sz ->
  exists w,
    NewPool growCap N sz emptyWorld = Done thePool w /\
    poolCount w = N /\ poolSize w = sz /\
    available w = seq 0 (Z.to_nat N) /\
    inUse w = replicate (Z.to_nat N) None /\
    length (buffers w) = Z.to_nat N /\
    (forall eb b, buffers w !! eb = Some b ->
       pool b = thePool /\ Len b = 0 /\ Cap b = growCap 0 0 sz /\
       origSize b = sz /\ index b = 0 /\ tag b = EmptyString) /\
    logged w = [] /\
    BuffersAvailable thePool w = Done N w.
Proof.
  intros HN Hsz. eexists. split; [by apply NewPool_run|].
  unfold poolCount, poolSize, available, inUse. simpl.
  do 4 (split; [done|]). split; [by rewrite length_replicate|].
  split; [|split; [done|]].
  - intros eb b Hb. apply lookup_replicate in Hb as [-> _]. done.
  - rewrite BuffersAvailable_run
      by (apply orb_false_intro; apply Z.eqb_neq; lia).
    f_equal. rewrite countFree_spec, occupied_replicate, length_replicate. simpl. lia.
Qed.

(** Property X2. BuffersAvailable and Acquire agree.  In every state of a valid pool
    BuffersAvailable returns the length of the queue, that is the number of
    Acquire calls that can return before one blocks: with an empty queue
    Acquire blocks and changes nothing, and otherwise it returns the buffer
    at the head of the queue. *)
Theorem Acquire_blocks_when_exhausted N sz s tg :
  reachable growCap N sz s ->
  valid (world s) ->
  BuffersAvailable thePool (world s)
  = Done (Z.of_nat (length (available (world s)))) (world s) /\
  match available (world s) with
  | [] => Acquire thePool tg (world s) = Blocked (world s)
  | eb :: _ => exists w', Acquire thePool tg (world s) = Done (Some eb) w'
  end.
Proof.
  intros Hr Hv.
  destruct (reachable_valid _ _ _ _ Hr Hv) as (HN & Hsz & _ & P & HP & Hcnt & HC).
  destruct (BuffersAvailable_Core N _ _ _ HP Hcnt HC) as [Hba _].
  rewrite Hba. unfold available, inUse. rewrite HP.
  destruct s as [w hs pc m]. simpl in *. open_world w P. subst cnt.
  pose proof (core_lock _ _ _ _ _ HC) as Hlk. simpl in Hlk. subst lk.
  pose proof (core_size _ _ _ _ _ HC) as Hsz'. simpl in Hsz'.
  pose proof (Core_total HC) as Htot. simpl in Htot.
  assert (Hg : (sz0 =? 0) || (N =? 0) = false).
  { apply orb_false_intro; apply Z.eqb_neq; lia. }
  split; [f_equal; lia|].
  destruct q as [|eb q]; [by apply Acquire_empty|].
  destruct (Core_Acquire _ _ _ _ _ _ _ _ _ _ tg clk HC) as (b & i & Hb & _).
  eexists. by apply Acquire_run.
Qed.


(** Property X3. A lease is exclusive.  The buffer Acquire returns was not leased
    before the call and is leased after it; the leases and the contents of
    all other buffers are what they were, and Acquire logs nothing and
    changes neither the clock nor [count]. *)
Theorem Acquire_exclusive N sz s tg eb w' :
  reachable growCap N sz s ->
  Acquire thePool tg (world s) = Done (Some eb) w' ->
  ~ leased (world s) eb /\ leased w' eb /\
  (forall eb', eb' <> eb ->
     (leased w' eb' <-> leased (world s) eb') /\
     buffers w' !! eb' = buffers (world s) !! eb') /\
  logged w' = logged (world s) /\ clock w' = clock (world s) /\
  poolCount w' = poolCount (world s).
Proof.
  intros Hr Hrun.
  destruct (Acquire_reachable _ _ _ _ _ _ Hr Hrun)
    as (P & q & b & i & HN & Hsz & Hpc & HP & Hcnt & Hlk & HC & Hq & Hb & Hi & Hfree & -> & HC').
  unfold leased, inUse, poolCount. rewrite HP. simpl.
  destruct P as [sz0 cnt lk [q0 cap] inuse]. simpl in *. subst.
  split; [|split; [|split]].
  - apply (Core_idle_not_leased HC). rewrite app_nil_r. left.
  - eapply list_elem_of_lookup_2. apply list_lookup_insert_eq. by eapply lookup_lt_Some.
  - intros eb' Hne. split; [by apply elem_of_claim|].
    by rewrite list_lookup_insert_ne.
  - done.
Qed.

(** Property X4. Acquire followed by Release of the buffer it returned.  Release
    returns; the slots are what they were before the Acquire, the buffer has
    moved from the head of the queue to its back, [count] and the other
    buffers are unchanged, and the buffer itself is empty with the capacity
    it had, the empty tag and index -1. *)
Theorem Acquire_Release_restores N sz s tg eb w1 :
  reachable growCap N sz s ->
  Acquire thePool tg (world s) = Done (Some eb) w1 ->
  exists w2 q b b2,
    Release eb w1 = Done tt w2 /\
    available (world s) = eb :: q /\ available w2 = q ++ [eb] /\
    inUse w2 = inUse (world s) /\
    poolCount w2 = poolCount (world s) /\
    (forall eb', eb' <> eb -> buffers w2 !! eb' = buffers (world s) !! eb') /\
    buffers (world s) !! eb = Some b /\ buffers w2 !! eb = Some b2 /\
    Len b2 = 0 /\ Cap b2 = Cap b /\ tag b2 = EmptyString /\ index b2 = -1.
Proof.
  intros Hr Hrun.
  destruct (Acquire_reachable _ _ _ _ _ _ Hr Hrun)
    as (P & q & b & i & HN & Hsz & Hpc & HP & Hcnt & Hlk & HC & Hq & Hb & Hi & Hfree & -> & HC').
  destruct P as [sz0 cnt lk [q0 cap] inuse]. simpl in *. subst.
  assert (Hlt : (eb < length (buffers (world s)))%nat) by (by eapply lookup_lt_Some).
  assert (Hil : (i < length inuse)%nat) by (by eapply lookup_lt_Some).
  match goal with |- context [Release eb ?w] => set (w1 := w) end.
  destruct (Release_leased w1 N _ _ _ eb eq_refl HC')
    as (b1 & Hb1 & _ & _ & _ & Hrel & _).
  { unfold leased, inUse. simpl. eapply list_elem_of_lookup_2.
    by apply list_lookup_insert_eq. }
  subst w1. simpl in *. rewrite list_lookup_insert_eq in Hb1 by done. simplify_eq.
  simpl in Hrel. rewrite Nat2Z.id in Hrel.
  eexists. exists q, b. eexists. split; [exact Hrel|].
  unfold available, inUse, poolCount. rewrite HP. simpl.
  do 2 (split; [done|]).
  split; [by rewrite list_insert_insert_eq, list_insert_id|].
  split; [done|]. split.
  { intros eb' Hne. by rewrite !list_lookup_insert_ne. }
  split; [done|]. split; [by rewrite list_lookup_insert_eq by (by rewrite length_insert)|].
  done.
Qed.

(** Property X5. The queue is served first in, first out.  In a state of a
    valid pool, as many Acquire calls as there are tags, no more than the
    queue holds, return the buffers at the head of the queue in queue order
    and leave the rest of the queue; each of these buffers is then leased. *)
Theorem Acquire_fifo N sz s tags :
  reachable growCap N sz s ->
  valid (world s) ->
  (length tags <= length (available (world s)))%nat ->
  exists w',
    acquireAll tags (world s)
    = Done (take (length tags) (available (world s))) w' /\
    available w' = drop (length tags) (available (world s)) /\
    (forall eb, eb ∈ take (length tags) (available (world s)) -> leased w' eb) /\
    (forall eb, leased (world s) eb -> leased w' eb).
Proof.
  intros Hr Hv Hlen.
  destruct (reachable_valid _ _ _ _ Hr Hv) as (HN & Hsz & _ & P & HP & Hcnt & HC).
  unfold available, leased, inUse in *. rewrite HP in *.
  destruct s as [w hs pc m]. simpl in *. open_world w P. subst cnt.
  pose proof (core_lock _ _ _ _ _ HC) as Hlk. simpl in Hlk. subst lk.
  destruct (acquireAll_run N tags _ _ _ _ _ _ clk lg HC Hlen)
    as (hs' & inuse' & bufs' & Hrun & HC1 & Hocc).
  eexists. split; [exact Hrun|]. simpl. split; [done|].
  split; intros eb Hin; apply elem_of_occupied; rewrite Hocc, elem_of_app;
    [by left|right; by apply elem_of_occupied].
Qed.

(** Property X6. Hand-over in an exhausted pool.  When the queue is empty, a
    Release of a leased buffer followed by an Acquire gives the same buffer
    back, emptied, in the slot it had, with the new tag and the time of the
    Acquire; the slots and the empty queue are as before. *)
Theorem Release_then_Acquire N sz s eb b tg :
  reachable growCap N sz s ->
  valid (world s) ->
  available (world s) = [] ->
  leased (world s) eb ->
  buffers (world s) !! eb = Some b ->
  exists w1 w2 b2,
    Release eb (world s) = Done tt w1 /\
    Acquire thePool tg w1 = Done (Some eb) w2 /\
    inUse w2 = inUse (world s) /\ available w2 = [] /\
    buffers w2 !! eb = Some b2 /\
    index b2 = index b /\ tag b2 = tg /\ acquiredAt b2 = clock (world s) /\
    Len b2 = 0 /\ Cap b2 = Cap b.
Proof.
  intros Hr Hv Hq Hl Hb.
  destruct (reachable_valid _ _ _ _ Hr Hv) as (HN & Hsz & _ & P & HP & Hcnt & HC).
  destruct (Release_leased _ _ _ _ _ _ HP HC Hl)
    as (b0 & Hb0 & Hhs & Hidx & Hslot & Hrel & HC').
  assert (b0 = b) as -> by congruence.
  unfold available, inUse in *. rewrite HP in *.
  destruct s as [w hs pc m]. simpl in *. open_world w P. subst cnt q.
  pose proof (core_lock _ _ _ _ _ HC) as Hlk. simpl in Hlk. subst lk.
  pose proof (core_size _ _ _ _ _ HC) as Hsz'. simpl in Hsz'.
  pose proof (core_len _ _ _ _ _ HC) as Hlen. simpl in Hlen.
  pose proof (Core_total HC) as Htot. simpl in Htot.
  assert (Hg : (sz0 =? 0) || (N =? 0) = false).
  { apply orb_false_intro; apply Z.eqb_neq; lia. }
  assert (Hlt : (eb < length bufs)%nat) by (by eapply lookup_lt_Some).
  assert (Hfull : None ∉ inuse) by (apply occupied_full; lia).
  assert (Hff : firstFree (<[Z.to_nat (index b) := None]> inuse) 0 = Some (index b)).
  { rewrite firstFree_clear by (done || lia). f_equal. lia. }
  eexists. eexists. exists (mkBuffer (mkBytes [] (Cap b)) (pool b) (index b)
                                      (origSize (released b)) clk tg).
  split; [exact Hrel|]. simpl.
  rewrite (Acquire_run tg _ _ _ _ _ _ _ (released b)) by (done || by rewrite list_lookup_insert_eq).
  unfold claimSlot, acquired. rewrite Hff. simpl.
  split; [done|]. split; [by rewrite list_insert_insert_eq, list_insert_id|].
  split; [done|]. cbn [buffers].
  split; [by rewrite list_lookup_insert_eq by (by rewrite length_insert)|].
  done.
Qed.

(** ** Calls on a locked pool *)

Lemma Release_locked bufs eb b sz cnt ch inuse clk lg :
  bufs !! eb = Some b -> pool b = thePool ->
  exists w',
    Release eb (mkWorld (Some (mkPool sz cnt true ch inuse)) bufs clk lg) = Blocked w'.
Proof.
  intros Hb Hp. unfold Release. go_simpl. rewrite Hb. go_simpl. rewrite Hp. go_simpl.
  destruct (Cap b >? origSize b); go_simpl; rewrite ?Hb; go_simpl; by eexists.
Qed.

Lemma poolMonitor_iter_locked sz cnt ch inuse bufs clk lg :
  poolMonitor_iter thePool (mkWorld (Some (mkPool sz cnt true ch inuse)) bufs clk lg)
  = Blocked (mkWorld (Some (mkPool sz cnt true ch inuse)) bufs clk lg).
Proof. unfold poolMonitor_iter. by go_simpl. Qed.

Lemma BuffersAvailable_locked sz cnt ch inuse bufs clk lg :
  (sz =? 0) || (cnt =? 0) = false ->
  BuffersAvailable thePool (mkWorld (Some (mkPool sz cnt true ch inuse)) bufs clk lg)
  = Blocked (mkWorld (Some (mkPool sz cnt true ch inuse)) bufs clk lg).
Proof. intros Hg. unfold BuffersAvailable. go_simpl. by rewrite Hg. Qed.

Lemma Acquire_locked tg sz cnt q cap inuse bufs clk lg :
  (sz =? 0) || (cnt =? 0) = false ->
  exists w',
    Acquire thePool tg (mkWorld (Some (mkPool sz cnt true (mkChan q cap) inuse)) bufs clk lg)
    = Blocked w'.
Proof.
  intros Hg. unfold Acquire. go_simpl. rewrite Hg.
  destruct q as [|eb q]; go_simpl; by eexists.
Qed.

(** Property X7. A Release that panics leaves the pool locked.  Release writes
    the slot between [Lock] and [Unlock] with no deferred unlock, so when the
    index of the buffer is out of range the panic leaves the mutex held.  In
    a program that recovers from the panic, the watchdog blocks at its next
    turn, every Release blocks, and on a pool that is still valid so do
    BuffersAvailable, Free and Acquire. *)
Theorem Release_panic_keeps_lock N sz s eb b w' :
  reachable growCap N sz s ->
  0 < N -> 0 < sz ->
  buffers (world s) !! eb = Some b ->
  Release eb (world s) = Panicked w' ->
  (exists P', thepool w' = Some P' /\ lock P' = true) /\
  poolMonitor_iter thePool w' = Blocked w' /\
  (forall eb', is_Some (buffers w' !! eb') -> exists w'', Release eb' w' = Blocked w'') /\
  (valid w' ->
     BuffersAvailable thePool w' = Blocked w' /\
     Free thePool w' = Blocked w' /\
     forall tg, exists w'', Acquire thePool tg w' = Blocked w'').
Proof.
  intros Hr HN Hsz Hb Hrun.
  pose proof (reachable_Inv _ _ _ _ HN Hsz Hr) as HI.
  destruct (Inv_lock_pool _ _ HI) as (P & HP & Hlk & Hpool).
  destruct s as [w hs pc m]. simpl in *. open_world w P. subst lk.
  rewrite (Release_run _ _ _ _ _ _ _ _ _ _ Hb (Hpool _ _ Hb)) in Hrun.
  destruct ((0 <=? index b) && (index b <? Z.of_nat (length inuse)));
    [by destruct (Z.of_nat (length q) <? cap)|].
  simplify_eq.
  split; [by eexists|]. split; [apply poolMonitor_iter_locked|]. split.
  - intros eb' [b' Hb']. simpl in Hb'. eapply Release_locked; [exact Hb'|].
    destruct (Cap b >? origSize b); [|by eapply Hpool].
    assert (Hlt : (eb < length bufs)%nat) by (by eapply lookup_lt_Some).
    destruct (decide (eb' = eb)) as [->|Hne].
    + rewrite list_lookup_insert_eq in Hb' by done. simplify_eq. simpl. by eapply Hpool.
    + rewrite list_lookup_insert_ne in Hb' by done. by eapply Hpool.
  - intros (P' & HP' & Hs' & Hc'). simpl in HP'. simplify_eq. simpl in *.
    assert (Hg : (sz0 =? 0) || (cnt =? 0) = false).
    { apply orb_false_intro; by apply Z.eqb_neq. }
    split; [by apply BuffersAvailable_locked|]. split; [by apply Free_locked|].
    intros tg. by apply Acquire_locked.
Qed.

(** ** The loop of the watchdog *)

Lemma poolMonitor_run fuel : forall sz cnt ch inuse bufs clk lg,
  slots_ok bufs inuse -> cnt <> 0 ->
  poolMonitor thePool fuel (mkWorld (Some (mkPool sz cnt false ch inuse)) bufs clk lg)
  = Done true (mkWorld (Some (mkPool sz cnt false ch inuse)) bufs
                       (clk + Z.of_nat fuel * Second)
                       (lg ++ monitorLog bufs inuse clk fuel)).
Proof.
  induction fuel as [|fuel IH]; intros sz cnt ch inuse bufs clk lg Hok Hcnt.
  - cbn [poolMonitor monitorLog]. unfold ret. rewrite app_nil_r. do 2 f_equal. lia.
  - cbn [poolMonitor monitorLog]. unfold bind at 1.
    rewrite poolMonitor_iter_run by done.
    replace (cnt =? 0) with false by (symmetry; by apply Z.eqb_neq).
    go_simpl. rewrite IH by done. rewrite app_assoc. do 2 f_equal. lia.
Qed.

Lemma monitorLog_turn bufs l turns : forall now k e,
  (k < turns)%nat ->
  e ∈ staleLog bufs (now + Z.of_nat k * Second) l ->
  e ∈ monitorLog bufs l now turns.
Proof.
  induction turns as [|turns IH]; intros now k e Hk He; [lia|].
  cbn [monitorLog]. apply elem_of_app. destruct k as [|k].
  - left. by replace (now + Z.of_nat 0 * Second) with now in He by lia.
  - right. apply (IH _ k); [lia|].
    by replace (now + 1 * Second + Z.of_nat k * Second)
      with (now + Z.of_nat (S k) * Second) by lia.
Qed.

(** Property X8. The watchdog on its own.  While [count] is not 0 and no other
    thread runs, poolMonitor does not return: after any number of turns it
    is still in its loop, the clock has advanced by one second for each
    turn, pool and buffers are untouched, and the log has grown by the
    warnings of each turn.  A buffer that is leased and already stale is
    reported again at every turn.  When [count] is 0 the first turn logs
    the exit message and returns. *)
Theorem poolMonitor_alone N sz s fuel :
  reachable growCap N sz s ->
  0 < N -> 0 < sz ->
  (poolCount (world s) <> 0 ->
     poolMonitor thePool fuel (world s)
     = Done true
         (set_clock (clock (world s) + Z.of_nat fuel * Second)
            (set_logged
               (logged (world s)
                ++ monitorLog (buffers (world s)) (inUse (world s)) (clock (world s)) fuel)
               (world s))) /\
     forall eb b k,
       leased (world s) eb -> buffers (world s) !! eb = Some b ->
       acquiredAt b + 100 * Millisecond < clock (world s) ->
       (k < fuel)%nat ->
       WarnHeld (tag b) (clock (world s) + Z.of_nat k * Second - acquiredAt b)
       ∈ monitorLog (buffers (world s)) (inUse (world s)) (clock (world s)) fuel) /\
  (poolCount (world s) = 0 ->
     poolMonitor thePool (S fuel) (world s)
     = Done false (set_logged (logged (world s) ++ [DebugMonitorExiting]) (world s))).
Proof.
  intros Hr HN Hsz.
  destruct (reachable_Inv _ _ _ _ HN Hsz Hr) as (P & HP & Hpc).
  destruct s as [w hs pc m]. simpl in *.
  unfold poolCount, inUse, leased. rewrite HP. open_world w P.
  destruct pc as [|i c|].
  - destruct Hpc as [-> HC].
    pose proof (core_lock _ _ _ _ _ HC) as Hlk. simpl in Hlk. subst lk.
    pose proof (Core_slots_ok HC) as Hok.
    split; [|lia]. intros Hcnt. split; [by apply poolMonitor_run|].
    intros eb b k Hl Hb Hstale Hk. apply (monitorLog_turn _ _ _ _ k); [done|].
    apply elem_of_staleLog; [done|]. exists eb, b.
    assert (0 <= Z.of_nat k * Second) by (unfold Second, Millisecond; lia).
    repeat split; try done. lia.
  - destruct Hpc as (-> & _ & dr & _ & HC).
    pose proof (core_lock _ _ _ _ _ HC) as Hlk. simpl in Hlk. subst lk.
    split; [done|]. intros _. cbn [poolMonitor]. unfold bind.
    by rewrite poolMonitor_iter_exit.
  - destruct Hpc as (-> & -> & _).
    split; [done|]. intros _. cbn [poolMonitor]. unfold bind.
    by rewrite poolMonitor_iter_exit.
Qed.

(** ** What the program logs *)

Lemma staleLog_held bufs now l :
  Forall (fun e => exists tg d, e = WarnHeld tg d /\ 100 * Millisecond < d)
         (staleLog bufs now l).
Proof.
  induction l as [|[eb|] l IH]; cbn [staleLog]; [done| |done].
  destruct (bufs !! eb) as [b|]; [|done].
  apply Forall_app. split; [|done].
  destruct (acquiredAt b + 100 * Millisecond <? now) eqn:Hst; [|done].
  apply Z.ltb_lt in Hst. constructor; [|done]. do 2 eexists. split; [done|]. lia.
Qed.

Lemma exitCount_app lg lg' : exitCount (lg ++ lg') = (exitCount lg + exitCount lg')%nat.
Proof. induction lg as [|[] lg IH]; simpl; by rewrite ?IH. Qed.

(** The events one step of the program may add to the log. *)
Lemma step_log N s s' :
  Inv N s -> 0 < N -> step growCap s s' ->
  poolSize (world s') = poolSize (world s) /\
  (freeing s <> FreeNotCalled -> freeing s' <> FreeNotCalled) /\
  exists evs,
    logged (world s') = logged (world s) ++ evs /\
    ((evs = [DebugMonitorExiting] /\ watching s = true /\ watching s' = false /\
      freeing s <> FreeNotCalled) \/
     (watching s' = watching s /\
      Forall (fun e =>
                (exists tg a b, e = WarnAllocated tg a (poolSize (world s)) /\
                                b ∈ buffers (world s) /\ origSize b < a) \/
                (exists tg d, e = WarnHeld tg d /\ 100 * Millisecond < d)) evs)).
Proof.
  intros HI HN Hstep.
  destruct (Inv_lock_pool _ _ HI) as (P & HP & Hlk & Hpool).
  destruct Hstep; simpl in *.
  - (* Acquire *)
    open_world w P. subst lk. unfold poolSize. simpl.
    destruct ((sz =? 0) || (cnt =? 0)) eqn:Hg; [by rewrite Acquire_guard in H|].
    destruct q as [|eb0 q]; [by rewrite Acquire_empty in H|].
    destruct (bufs !! eb0) as [b|] eqn:Hb; [|by eapply Acquire_nil_buf in H].
    rewrite (Acquire_run _ _ _ _ _ _ _ _ _ _ _ Hg Hb) in H. simplify_eq. simpl.
    do 2 (split; [done|]). exists []. rewrite app_nil_r. split; [done|]. by right.
  - pose proof (Inv_Acquire _ _ _ _ _ _ _ _ HI H) as Heq. simpl in Heq. subst.
    do 2 (split; [done|]). exists []. rewrite app_nil_r. split; [done|]. by right.
  - (* Release *)
    open_world w P. subst lk. unfold poolSize. simpl.
    destruct (bufs !! eb) as [b|] eqn:Hb; [|by rewrite Release_nil_buf in H0].
    rewrite (Release_run _ _ _ _ _ _ _ _ _ _ Hb (Hpool _ _ Hb)) in H0.
    destruct ((0 <=? index b) && (index b <? Z.of_nat (length inuse))); [|done].
    destruct (Z.of_nat (length q) <? cap); [|done]. simplify_eq. simpl.
    do 2 (split; [done|]). eexists. split; [done|]. right. split; [done|].
    unfold growthLog. destruct (Cap b >? origSize b) eqn:Hgt; [|done].
    constructor; [|done]. left. exists (tag b), (Cap b), b.
    split; [done|]. split; [by eapply list_elem_of_lookup_2|]. lia.
  - (* Write *)
    destruct w as [pp bufs clk lg]. simpl in *.
    destruct (bufs !! eb) as [b|] eqn:Hb.
    + rewrite (Write_run _ _ _ _ _ _ _ _ Hb) in H0. simplify_eq. simpl.
      do 2 (split; [done|]). exists []. rewrite app_nil_r. split; [done|]. by right.
    + unfold Write in H0. go_simpl_in H0. by rewrite Hb in H0.
  - rewrite (Inv_BuffersAvailable _ _ _ _ _ _ _ HI H).
    do 2 (split; [done|]). exists []. rewrite app_nil_r. split; [done|]. by right.
  - (* the watchdog *)
    destruct (Inv_poolMonitor _ _ _ _ _ _ _ HI H) as (evs & -> & -> & ->).
    destruct w as [pp bufs clk lg]. simpl in *. subst pp.
    unfold poolSize, poolCount, inUse. simpl.
    do 2 (split; [done|]). eexists. split; [done|].
    destruct (count P =? 0) eqn:Hc.
    + left. do 3 (split; [done|]). apply Z.eqb_eq in Hc.
      destruct HI as (P' & HP' & Hpc). simpl in *. simplify_eq.
      intros ->. destruct Hpc as [Hcnt _]. lia.
    + right. split; [done|].
      eapply Forall_impl; [apply staleLog_held|]. intros e He. by right.
  - (* Free *)
    open_world w P. subst lk. unfold poolSize. simpl.
    destruct pc as [|i c|]; cbn [Free_step] in H0.
    + unfold bind in H0. rewrite Free_enter_run in H0.
      destruct ((sz =? 0) || (cnt =? 0)); unfold ret in H0; simplify_eq; simpl;
        (split; [done|]); (split; [done|]); exists []; rewrite app_nil_r;
        (split; [done|]); by right.
    + destruct (i <? c).
      * unfold bind in H0. rewrite recv_run in H0. destruct q; [done|].
        unfold ret in H0. simplify_eq. simpl.
        do 2 (split; [done|]). exists []. rewrite app_nil_r. split; [done|]. by right.
      * unfold Free_exit in H0. go_simpl_in H0. simplify_eq. simpl.
        do 2 (split; [done|]). exists []. rewrite app_nil_r. split; [done|]. by right.
    + done.
  - destruct w. simpl.
    do 2 (split; [done|]). exists []. rewrite app_nil_r. split; [done|]. by right.
Qed.

(** No step lowers a high-water mark. *)
Lemma step_origSize N s s' k :
  Inv N s -> step growCap s s' ->
  Forall (fun b => k <= origSize b) (buffers (world s)) ->
  Forall (fun b => k <= origSize b) (buffers (world s')).
Proof.
  intros HI Hstep Hk.
  destruct (Inv_lock_pool _ _ HI) as (P & HP & Hlk & Hpool).
  destruct Hstep; simpl in *.
  - open_world w P. subst lk.
    destruct ((sz =? 0) || (cnt =? 0)) eqn:Hg; [by rewrite Acquire_guard in H|].
    destruct q as [|eb0 q]; [by rewrite Acquire_empty in H|].
    destruct (bufs !! eb0) as [b|] eqn:Hb; [|by eapply Acquire_nil_buf in H].
    rewrite (Acquire_run _ _ _ _ _ _ _ _ _ _ _ Hg Hb) in H. simplify_eq. simpl.
    apply Forall_insert; [done|]. simpl. by apply (Forall_lookup_1 _ _ _ _ Hk Hb).
  - pose proof (Inv_Acquire _ _ _ _ _ _ _ _ HI H) as Heq. simpl in Heq. by subst.
  - open_world w P. subst lk.
    destruct (bufs !! eb) as [b|] eqn:Hb; [|by rewrite Release_nil_buf in H0].
    rewrite (Release_run _ _ _ _ _ _ _ _ _ _ Hb (Hpool _ _ Hb)) in H0.
    destruct ((0 <=? index b) && (index b <? Z.of_nat (length inuse))); [|done].
    destruct (Z.of_nat (length q) <? cap); [|done]. simplify_eq. simpl.
    apply Forall_insert; [done|].
    pose proof (Forall_lookup_1 _ _ _ _ Hk Hb) as Hb'. simpl in Hb'.
    pose proof (origSize_released b). lia.
  - destruct w as [pp bufs clk lg]. simpl in *.
    destruct (bufs !! eb) as [b|] eqn:Hb.
    + rewrite (Write_run _ _ _ _ _ _ _ _ Hb) in H0. simplify_eq. simpl.
      apply Forall_insert; [done|]. simpl. by apply (Forall_lookup_1 _ _ _ _ Hk Hb).
    + unfold Write in H0. go_simpl_in H0. by rewrite Hb in H0.
  - by rewrite (Inv_BuffersAvailable _ _ _ _ _ _ _ HI H).
  - by destruct (Inv_poolMonitor _ _ _ _ _ _ _ HI H) as (evs & -> & _).
  - open_world w P. subst lk.
    destruct pc as [|i c|]; cbn [Free_step] in H0.
    + unfold bind in H0. rewrite Free_enter_run in H0.
      by destruct ((sz =? 0) || (cnt =? 0)); unfold ret in H0; simplify_eq.
    + destruct (i <? c).
      * unfold bind in H0. rewrite recv_run in H0. destruct q; [done|].
        unfold ret in H0. by simplify_eq.
      * unfold Free_exit in H0. go_simpl_in H0. by simplify_eq.
    + done.
  - done.
Qed.

(** What holds of the log and of the high-water marks in every state. *)
Lemma reachable_sound N sz s :
  0 < N -> 0 < sz -> reachable growCap N sz s ->
  poolSize (world s) = sz /\
  Forall (fun b => sz <= origSize b) (buffers (world s)) /\
  Forall (justified N sz) (logged (world s)) /\
  (watching s = true -> exitCount (logged (world s)) = 0%nat) /\
  (watching s = false ->
     exitCount (logged (world s)) = 1%nat /\ freeing s <> FreeNotCalled).
Proof.
  intros HN Hsz (p & w0 & Hnew & Hsteps).
  destruct (Inv_init growCap _ _ _ _ (negb (isNil p)) HN Hsz Hnew) as [-> HI0].
  rewrite NewPool_run in Hnew by done. simplify_eq.
  pattern s. eapply rtc_ind_r; [| |exact Hsteps].
  - simpl. split; [done|]. split.
    { apply Forall_forall. intros b Hb. apply elem_of_replicate in Hb as [-> _]. simpl. lia. }
    split; [done|]. split; [done|]. done.
  - intros s1 s2 Hs1 Hstep IH.
    assert (HI1 : Inv N s1).
    { apply (reachable_Inv growCap N sz); [done..|].
      exists thePool. eexists. split; [by apply NewPool_run|]. exact Hs1. }
    destruct IH as (Hsize & Horig & Hlog & Hon & Hoff).
    destruct (step_log _ _ _ HI1 HN Hstep) as (Hsize' & Hpc' & evs & Hevs & Hcase).
    split; [congruence|]. split; [by eapply step_origSize|].
    rewrite Hevs, exitCount_app.
    destruct Hcase as [(-> & Hw & Hw' & Hpc)|[Hw Hall]].
    + split; [|split; [congruence|]].
      * apply Forall_app. split; [done|]. constructor; [by split|done].
      * intros _. rewrite (Hon Hw). simpl. split; [done|]. by apply Hpc'.
    + assert (Hno : exitCount evs = 0%nat).
      { clear -Hall. induction Hall as [|e evs He _ IH]; [done|].
        destruct He as [(tg & a & b & -> & _)|(tg & d & -> & _)]; done. }
      rewrite Hno, Nat.add_0_r, Hw.
      split; [|split; [done|]].
      * apply Forall_app. split; [done|].
        eapply Forall_impl; [exact Hall|]. intros e [(tg & a & b & -> & Hb & Hlt)|(tg & d & -> & Hd)].
        -- simpl. split; [done|].
           rewrite Forall_forall in Horig. specialize (Horig b Hb). simpl in Horig. lia.
        -- done.
      * intros Hoff'. destruct (Hoff Hoff') as [? Hpc]. split; [done|]. by apply Hpc'.
Qed.

(** After NewPool has refused its arguments nothing more is logged. *)
Lemma reachable_refused N sz s :
  N <= 0 \/ sz <= 0 -> reachable growCap N sz s ->
  logged (world s) = [ErrorInvalidArguments].
Proof.
  intros Hbad (p & w0 & Hnew & Hsteps).
  rewrite NewPool_invalid in Hnew by done. simplify_eq.
  remember (mkSys _ _ _ _) as s0 eqn:Hs0.
  assert (H0 : thepool (world s0) = None /\ logged (world s0) = [ErrorInvalidArguments])
    by (by subst).
  clear Hs0. induction Hsteps as [|s1 s2 s3 Hstep _ IH]; [by destruct H0|].
  apply IH. destruct H0 as [Hnil Hlog]. destruct Hstep; simpl in *; try done.
  all: destruct w as [pp bufs clk lg]; simpl in *; subst pp.
  - unfold Acquire in H. by go_simpl_in H.
  - unfold Acquire in H. by go_simpl_in H.
  - unfold Release in H0. go_simpl_in H0. destruct (bufs !! eb) as [b|]; [|done].
    go_simpl_in H0. destruct (pool b); go_simpl_in H0; [by simplify_eq|].
    destruct (Cap b >? origSize b); by go_simpl_in H0.
  - unfold Write in H0. go_simpl_in H0. destruct (bufs !! eb); by simplify_eq.
  - unfold BuffersAvailable in H. by go_simpl_in H.
  - unfold poolMonitor_iter in H. by go_simpl_in H.
  - destruct pc as [|i c|]; cbn [Free_step] in H0.
    + unfold Free_enter in H0. by go_simpl_in H0.
    + destruct (i <? c); [by go_simpl_in H0|]. unfold Free_exit in H0. by go_simpl_in H0.
    + unfold ret in H0. by simplify_eq.
Qed.

(** Property X9. Every event in the log is justified.  In every state the
    program reaches after [NewPool(ctx, N, sz)]: the error message is there
    only if [N] or [sz] is not positive; a growth warning reports the size
    [sz] the pool was created with and an allocated capacity greater than
    it; a warning about a held buffer reports more than 100 ms; and the
    watchdog logs its exit only in a pool that was created. *)
Theorem log_justified N sz s :
  reachable growCap N sz s ->
  Forall (justified N sz) (logged (world s)).
Proof.
  intros Hr. destruct (decide (0 < N /\ 0 < sz)) as [[HN Hsz]|Hbad].
  - by destruct (reachable_sound _ _ _ HN Hsz Hr) as (_ & _ & ? & _).
  - rewrite (reachable_refused N sz s) by (lia || done).
    constructor; [|done]. simpl. lia.
Qed.

Lemma rtc_watching s s' :
  rtc (step growCap) s s' -> watching s = false -> watching s' = false.
Proof.
  intros Hsteps. induction Hsteps as [|s1 s2 s3 Hstep _ IH]; [done|].
  intros Hoff. apply IH. by destruct Hstep.
Qed.

(** Property X10. The watchdog exits once, and only after Free.  While the
    watchdog runs the log has no exit message.  Once it has returned, the
    log has exactly one, Free has been called and [count] is 0; and whatever
    the program does next, the watchdog stays stopped and the log keeps that
    single exit message. *)
Theorem watchdog_exits_once N sz s :
  reachable growCap N sz s ->
  0 < N -> 0 < sz ->
  (watching s = true -> exitCount (logged (world s)) = 0%nat) /\
  (watching s = false ->
     exitCount (logged (world s)) = 1%nat /\
     freeing s <> FreeNotCalled /\ poolCount (world s) = 0 /\
     forall s', rtc (step growCap) s s' ->
       watching s' = false /\ exitCount (logged (world s')) = 1%nat).
Proof.
  intros Hr HN Hsz.
  destruct (reachable_sound _ _ _ HN Hsz Hr) as (_ & _ & _ & Hon & Hoff).
  split; [done|]. intros Hw. destruct (Hoff Hw) as [Hone Hpc].
  split; [done|]. split; [done|]. split.
  - destruct (reachable_Inv _ _ _ _ HN Hsz Hr) as (P & HP & HI).
    unfold poolCount. rewrite HP.
    destruct (freeing s) as [|i c|]; [done| |]; by destruct HI as [? _].
  - intros s' Hsteps. pose proof (rtc_watching _ _ Hsteps Hw) as Hw'.
    split; [done|].
    pose proof (reachable_rtc _ _ _ _ _ Hr Hsteps) as Hr'.
    destruct (reachable_sound _ _ _ HN Hsz Hr') as (_ & _ & _ & _ & Hoff').
    by destruct (Hoff' Hw').
Qed.

(** ** The capacity of the buffers *)

(** What one step does to the store of buffers: nothing, or it replaces one
    buffer, keeping its bytes (Acquire), emptying it (Release) or appending
    to it (Write). *)
Lemma step_buffers N s s' :
  Inv N s -> step growCap s s' ->
  buffers (world s') = buffers (world s) \/
  exists eb b b',
    buffers (world s) !! eb = Some b /\
    buffers (world s') = <[eb := b']> (buffers (world s)) /\
    (Buffer_bytes b' = Buffer_bytes b \/
     Buffer_bytes b' = bytes_Reset (Buffer_bytes b) \/
     exists p, Buffer_bytes b' = bytes_Write growCap p (Buffer_bytes b)).
Proof.
  intros HI Hstep.
  destruct (Inv_lock_pool _ _ HI) as (P & HP & Hlk & Hpool).
  destruct Hstep; simpl in *.
  - open_world w P. subst lk.
    destruct ((sz =? 0) || (cnt =? 0)) eqn:Hg; [by rewrite Acquire_guard in H|].
    destruct q as [|eb0 q]; [by rewrite Acquire_empty in H|].
    destruct (bufs !! eb0) as [b|] eqn:Hb; [|by eapply Acquire_nil_buf in H].
    rewrite (Acquire_run _ _ _ _ _ _ _ _ _ _ _ Hg Hb) in H. simplify_eq. simpl.
    right. exists eb, b. eexists. split; [done|]. split; [done|]. by left.
  - pose proof (Inv_Acquire _ _ _ _ _ _ _ _ HI H) as Heq. simpl in Heq. subst. by left.
  - open_world w P. subst lk.
    destruct (bufs !! eb) as [b|] eqn:Hb; [|by rewrite Release_nil_buf in H0].
    rewrite (Release_run _ _ _ _ _ _ _ _ _ _ Hb (Hpool _ _ Hb)) in H0.
    destruct ((0 <=? index b) && (index b <? Z.of_nat (length inuse))); [|done].
    destruct (Z.of_nat (length q) <? cap); [|done]. simplify_eq. simpl.
    right. exists eb, b. eexists. split; [done|]. split; [done|]. right. by left.
  - destruct w as [pp bufs clk lg]. simpl in *.
    destruct (bufs !! eb) as [b|] eqn:Hb.
    + rewrite (Write_run _ _ _ _ _ _ _ _ Hb) in H0. simplify_eq. simpl.
      right. exists eb, b. eexists. split; [done|]. split; [done|]. right. right.
      by exists data.
    + unfold Write in H0. go_simpl_in H0. by rewrite Hb in H0.
  - rewrite (Inv_BuffersAvailable _ _ _ _ _ _ _ HI H). by left.
  - destruct (Inv_poolMonitor _ _ _ _ _ _ _ HI H) as (evs & -> & _). by left.
  - open_world w P. subst lk.
    destruct pc as [|i c|]; cbn [Free_step] in H0.
    + unfold bind in H0. rewrite Free_enter_run in H0.
      destruct ((sz =? 0) || (cnt =? 0)); unfold ret in H0; simplify_eq; by left.
    + destruct (i <? c).
      * unfold bind in H0. rewrite recv_run in H0. destruct q; [done|].
        unfold ret in H0. simplify_eq. by left.
      * unfold Free_exit in H0. go_simpl_in H0. simplify_eq. by left.
    + done.
  - by left.
Qed.

Lemma step_cap N k s s' :
  growsWell growCap -> Inv N s -> step growCap s s' ->
  Forall (fun b => Len b <= Cap b /\ k <= Cap b) (buffers (world s)) ->
  Forall (fun b => Len b <= Cap b /\ k <= Cap b) (buffers (world s')) /\
  forall eb b, buffers (world s) !! eb = Some b ->
    exists b', buffers (world s') !! eb = Some b' /\ Cap b <= Cap b'.
Proof.
  intros Hgrow HI Hstep Hall.
  destruct (step_buffers _ _ _ HI Hstep) as [->|(eb & b & b' & Hb & -> & Hbytes)].
  { split; [done|]. intros eb b Hb. exists b. split; [done|lia]. }
  pose proof (Forall_lookup_1 _ _ _ _ Hall Hb) as [Hlen Hsz]. simpl in Hlen, Hsz.
  assert (Hlt : (eb < length (buffers (world s)))%nat) by (by eapply lookup_lt_Some).
  assert (Hb' : Len b' <= Cap b' /\ Cap b <= Cap b').
  { unfold Len, Cap, bytes_Len, bytes_Cap in *.
    destruct Hbytes as [->|[->|[p ->]]]; simpl; [lia|lia|].
    destruct (Hgrow (bytes_cap (Buffer_bytes b)) (Z.of_nat (length (bytes_data (Buffer_bytes b))))
                    (Z.of_nat (length p))) as [H1 H2]; [lia|lia|].
    unfold bytes_Len in *. rewrite length_app. lia. }
  split.
  - apply Forall_insert; [done|]. lia.
  - intros eb0 b0 Hb0. destruct (decide (eb0 = eb)) as [->|Hne].
    + exists b'. rewrite list_lookup_insert_eq by done. split; [done|]. simplify_eq. lia.
    + exists b0. rewrite list_lookup_insert_ne by done. split; [done|lia].
Qed.

Lemma reachable_cap N sz s :
  growsWell growCap -> 0 < N -> 0 < sz -> reachable growCap N sz s ->
  Forall (fun b => Len b <= Cap b /\ growCap 0 0 sz <= Cap b) (buffers (world s)).
Proof.
  intros Hgrow HN Hsz (p & w0 & Hnew & Hsteps).
  destruct (Inv_init growCap _ _ _ _ (negb (isNil p)) HN Hsz Hnew) as [-> HI0].
  rewrite NewPool_run in Hnew by done. simplify_eq.
  pattern s. eapply rtc_ind_r; [| |exact Hsteps].
  - simpl. apply Forall_forall. intros b Hb. apply elem_of_replicate in Hb as [-> _].
    unfold Len, Cap, bytes_Len, bytes_Cap. simpl.
    change (bytes_Len bytes_zero) with 0.
    destruct (Hgrow 0 0 sz) as [H1 H2]; lia.
  - intros s1 s2 Hs1 Hstep IH.
    assert (HI1 : Inv N s1).
    { apply (reachable_Inv growCap N sz); [done..|].
      exists thePool. eexists. split; [by apply NewPool_run|]. exact Hs1. }
    by destruct (step_cap _ _ _ _ Hgrow HI1 Hstep IH).
Qed.

(** Property X11. Capacity is kept.  If [bytes.Buffer] never shrinks its array
    when it makes room and makes the room it is asked for, then in every
    state every buffer of the pool has a capacity of at least the size the
    pool was created with and at least its length, and whatever the program
    does next (Acquire, Write, Release, Free), the capacity of a buffer
    never goes down: a buffer that has grown stays grown for its next
    users. *)
Theorem capacity_kept N sz s :
  growsWell growCap ->
  reachable growCap N sz s ->
  0 < N -> 0 < sz ->
  (forall eb b, buffers (world s) !! eb = Some b ->
     sz <= Cap b /\ Len b <= Cap b) /\
  (forall s' eb b,
     rtc (step growCap) s s' ->
     buffers (world s) !! eb = Some b ->
     exists b', buffers (world s') !! eb = Some b' /\ Cap b <= Cap b').
Proof.
  intros Hgrow Hr HN Hsz. split.
  - intros eb b Hb.
    pose proof (Forall_lookup_1 _ _ _ _ (reachable_cap _ _ _ Hgrow HN Hsz Hr) Hb) as [? ?].
    destruct (Hgrow 0 0 sz) as [_ ?]; [lia..|]. simpl in *. lia.
  - intros s' eb b Hsteps. revert b.
    induction Hsteps as [|s1 s2 s3 Hstep _ IH]; intros b Hb.
    { exists b. split; [done|lia]. }
    pose proof (reachable_Inv _ _ _ _ HN Hsz Hr) as HI.
    destruct (step_cap _ _ _ _ Hgrow HI Hstep (reachable_cap _ _ _ Hgrow HN Hsz Hr))
      as [_ Hmono].
    destruct (Hmono eb b Hb) as (b2 & Hb2 & Hle).
    destruct (IH (reachable_step _ _ _ _ _ Hr Hstep) b2 Hb2) as (b3 & Hb3 & Hle').
    exists b3. split; [done|lia].
Qed.

(** Property X12. A warning for nothing.  Release compares the capacity with the
    size asked of NewPool, not with the capacity [Grow(size)] gave.  So when
    [bytes.Buffer] allocates more than it is asked for (and never shrinks),
    the Release of a leased buffer whose high-water mark is still the size
    of the pool logs a growth warning, whatever was written to the buffer,
    even nothing. *)
Theorem Release_warns_on_overallocation N sz s eb b :
  growsWell growCap ->
  sz < growCap 0 0 sz ->
  reachable growCap N sz s ->
  leased (world s) eb ->
  buffers (world s) !! eb = Some b ->
  origSize b = sz ->
  sz < Cap b /\
  exists w',
    Release eb (world s) = Done tt w' /\
    logged w' = logged (world s) ++ [WarnAllocated (tag b) (Cap b) sz].
Proof.
  intros Hgrow Hover Hr Hl Hb Horig.
  destruct (reachable_leased _ _ _ _ _ Hr Hl) as (P & dr & HP & HC).
  assert (HN : 0 < N) by apply (core_N _ _ _ _ _ HC).
  assert (Hsz : 0 < sz).
  { destruct (decide (0 < sz)) as [|Hbad]; [done|].
    rewrite (reachable_nil growCap N sz s) in HP; [done|lia|done]. }
  destruct (Release_leased _ _ _ _ _ _ HP HC Hl) as (b0 & Hb0 & _ & _ & _ & Hrun & _).
  assert (b0 = b) as -> by congruence.
  pose proof (Forall_lookup_1 _ _ _ _ (reachable_cap _ _ _ Hgrow HN Hsz Hr) Hb) as [_ Hcap].
  simpl in Hcap.
  destruct (reachable_sound _ _ _ HN Hsz Hr) as (Hsize & _).
  unfold poolSize in Hsize. rewrite HP in Hsize.
  split; [lia|]. eexists. split; [exact Hrun|]. simpl.
  unfold growthLog. rewrite Hsize.
  by replace (Cap b >? origSize b) with true by (symmetry; apply Z.gtb_lt; lia).
Qed.

(** ** The contents of the buffers *)

(** Property X13. Buffers in the queue are empty.  NewPool queues empty buffers.
    From a state where every queued buffer is empty, Acquire hands out an
    empty buffer, and Acquire, Release, a Write to a leased buffer, every
    step of Free, BuffersAvailable and the watchdog leave the queued buffers
    empty.  Nothing stops a Write through a handle that was released: it
    succeeds, and the bytes stay in the queued buffer for its next user. *)
Theorem queue_stays_clean N sz s :
  reachable growCap N sz s ->
  0 < N -> 0 < sz ->
  queueClean (world s) ->
  (forall w0, NewPool growCap N sz emptyWorld = Done thePool w0 -> queueClean w0) /\
  (forall tg r w', Acquire thePool tg (world s) = Done r w' ->
     queueClean w' /\
     forall eb, r = Some eb -> exists b, buffers w' !! eb = Some b /\ Len b = 0) /\
  (forall eb w', Release eb (world s) = Done tt w' -> queueClean w') /\
  (forall eb data n w',
     leased (world s) eb ->
     Write growCap eb data (world s) = Done n w' -> queueClean w') /\
  (forall pc' w',
     Free_step thePool (freeing s) (world s) = Done pc' w' -> queueClean w') /\
  (forall n w', BuffersAvailable thePool (world s) = Done n w' -> queueClean w') /\
  (forall again w', poolMonitor_iter thePool (world s) = Done again w' -> queueClean w') /\
  (forall eb data,
     eb ∈ available (world s) -> data <> [] ->
     exists w', Write growCap eb data (world s) = Done (Z.of_nat (length data)) w' /\
                ~ queueClean w').
Proof.
  intros Hr HN Hsz Hclean.
  pose proof (reachable_Inv _ _ _ _ HN Hsz Hr) as HI.
  destruct (Inv_lock_pool _ _ HI) as (P & HP & Hlk & Hpool).
  split; [|split; [|split; [|split; [|split; [|split; [|split]]]]]].
  - intros w0 Hnew. rewrite NewPool_run in Hnew by done. simplify_eq.
    intros eb Hin. unfold available in Hin. simpl in Hin. apply elem_of_seq in Hin.
    eexists. split; [apply lookup_replicate_2; lia|]. done.
  - intros tg r w' Hrun. destruct s as [w hs pc m]. simpl in *.
    unfold queueClean, available in *. rewrite HP in Hclean. open_world w P. subst lk.
    destruct ((sz0 =? 0) || (cnt =? 0)) eqn:Hg.
    { rewrite Acquire_guard in Hrun by done. simplify_eq. split; [done|]. by intros eb ?. }
    destruct q as [|eb0 q]; [by rewrite Acquire_empty in Hrun|].
    destruct (Hclean eb0) as (b & Hb & Hlen); [left|].
    rewrite (Acquire_run _ _ _ _ _ _ _ _ _ _ _ Hg Hb) in Hrun. simplify_eq. simpl.
    assert (Hlt : (eb0 < length bufs)%nat) by (by eapply lookup_lt_Some).
    split.
    + intros eb Hin. destruct (decide (eb = eb0)) as [->|Hne].
      * eexists. rewrite list_lookup_insert_eq by done. split; [done|]. done.
      * rewrite list_lookup_insert_ne by done. apply Hclean. by right.
    + intros eb Heq. simplify_eq. eexists. rewrite list_lookup_insert_eq by done.
      split; [done|]. done.
  - intros eb w' Hrun. destruct s as [w hs pc m]. simpl in *.
    unfold queueClean, available in *. rewrite HP in Hclean. open_world w P. subst lk.
    destruct (bufs !! eb) as [b|] eqn:Hb; [|by rewrite Release_nil_buf in Hrun].
    rewrite (Release_run _ _ _ _ _ _ _ _ _ _ Hb (Hpool _ _ Hb)) in Hrun.
    destruct ((0 <=? index b) && (index b <? Z.of_nat (length inuse))); [|done].
    destruct (Z.of_nat (length q) <? cap); [|done]. simplify_eq. simpl.
    assert (Hlt : (eb < length bufs)%nat) by (by eapply lookup_lt_Some).
    intros eb' Hin. destruct (decide (eb' = eb)) as [->|Hne].
    + exists (released b). by rewrite list_lookup_insert_eq.
    + rewrite list_lookup_insert_ne by done. apply Hclean.
      apply elem_of_app in Hin as [?|Hin]; [done|].
      by apply list_elem_of_singleton in Hin.
  - intros eb data n w' Hl Hrun.
    destruct (reachable_leased _ _ _ _ _ Hr Hl) as (P' & dr & HP' & HC).
    assert (P' = P) as -> by congruence.
    destruct s as [w hs pc m]. simpl in *.
    unfold queueClean, available, leased, inUse in *. rewrite HP in Hclean, Hl.
    open_world w P. subst lk.
    destruct (bufs !! eb) as [b|] eqn:Hb.
    2:{ unfold Write in Hrun. go_simpl_in Hrun. by rewrite Hb in Hrun. }
    rewrite (Write_run _ _ _ _ _ _ _ _ Hb) in Hrun. simplify_eq. simpl.
    intros eb' Hin. rewrite list_lookup_insert_ne; [by apply Hclean|].
    intros ->. apply (Core_idle_not_leased HC eb'); [|done].
    apply elem_of_app. by left.
  - intros pc' w' Hrun. destruct s as [w hs pc m]. simpl in *.
    unfold queueClean, available in *. rewrite HP in Hclean. open_world w P. subst lk.
    destruct pc as [|i c|]; cbn [Free_step] in Hrun.
    + unfold bind in Hrun. rewrite Free_enter_run in Hrun.
      by destruct ((sz0 =? 0) || (cnt =? 0)); unfold ret in Hrun; simplify_eq.
    + destruct (i <? c).
      * unfold bind in Hrun. rewrite recv_run in Hrun. destruct q as [|eb0 q]; [done|].
        unfold ret in Hrun. simplify_eq. simpl. intros eb Hin. apply Hclean. by right.
      * unfold Free_exit in Hrun. go_simpl_in Hrun. by simplify_eq.
    + unfold ret in Hrun. by simplify_eq.
  - intros n w' Hrun. destruct s as [w hs pc m]. simpl in *.
    by rewrite (Inv_BuffersAvailable _ _ _ _ _ _ _ HI Hrun).
  - intros again w' Hrun. destruct s as [w hs pc m]. simpl in *.
    destruct (Inv_poolMonitor _ _ _ _ _ _ _ HI Hrun) as (evs & -> & _).
    by destruct w.
  - intros eb data Hin Hdata. destruct (Hclean eb Hin) as (b & Hb & Hlen).
    destruct s as [w hs pc m]. simpl in *. destruct w as [pp bufs clk lg]. simpl in *.
    rewrite (Write_run _ _ _ _ _ _ _ _ Hb). eexists. split; [done|].
    intros Hclean'. destruct (Hclean' eb) as (b' & Hb' & Hlen'); [done|].
    simpl in Hb'. rewrite list_lookup_insert_eq in Hb' by (by eapply lookup_lt_Some).
    simplify_eq. unfold Len, bytes_Len in Hlen'. simpl in Hlen'.
    rewrite length_app in Hlen'. destruct data; [done|]. simpl in Hlen'. lia.
Qed.

(** ** The scenarios of the test suite, for every pool *)

(** Property X14. TestBasic, for every count, size, tag and data.  On a new
    pool Acquire returns a buffer; after writing [data] to it the buffer
    holds exactly [data] and BuffersAvailable returns [N - 1]; Release
    returns and BuffersAvailable returns [N] again; Free then returns at
    once and leaves [count] 0, the queue empty and no slots.  The run logs
    one growth warning if the capacity after the write exceeds the size of
    the pool, and nothing otherwise. *)
Theorem TestBasic_any_pool N sz tg data :
  0 < N -> 0 < sz ->
  exists w0 eb w1 w2 b w3 w4,
    NewPool growCap N sz emptyWorld = Done thePool w0 /\
    Acquire thePool tg w0 = Done (Some eb) w1 /\
    Write growCap eb data w1 = Done (Z.of_nat (length data)) w2 /\
    buffers w2 !! eb = Some b /\ Bytes b = data /\
    BuffersAvailable thePool w2 = Done (N - 1) w2 /\
    Release eb w2 = Done tt w3 /\
    BuffersAvailable thePool w3 = Done N w3 /\
    Free thePool w3 = Done tt w4 /\
    poolCount w4 = 0 /\ available w4 = [] /\ inUse w4 = [] /\
    logged w4 = if sz <? Cap b then [WarnAllocated tg (Cap b) sz] else [].
Proof.
  intros HN Hsz.
  pose proof (Core_init growCap N sz HN Hsz) as HC0.
  assert (Hg : (sz =? 0) || (N =? 0) = false).
  { apply orb_false_intro; apply Z.eqb_neq; lia. }
  rewrite NewPool_run by done.
  destruct (Z.to_nat N) as [|n] eqn:HNn; [lia|]. cbn [seq] in *.
  assert (Hocc0 : occupied (replicate (S n) None) = []) by apply occupied_replicate.
  remember (replicate (S n) (@None nat)) as slots0 eqn:Hslots0.
  remember (replicate (S n) (mkBuffer (bytes_Grow growCap sz bytes_zero) thePool 0 sz 0
                                       EmptyString)) as bufs0 eqn:Hbufs0.
  destruct (Core_Acquire _ _ _ _ _ _ _ _ _ _ tg 0 HC0)
    as (b0 & i & Hb0 & Hi & Hi0 & Hfree & Hlow & HC1).
  pose proof Hb0 as Hb0'. rewrite Hbufs0 in Hb0'. apply lookup_replicate in Hb0' as [-> _].
  unfold claimSlot, acquired in HC1. rewrite Hi in HC1. cbn [Buffer_bytes pool origSize] in HC1.
  set (b1 := mkBuffer (bytes_Grow growCap sz bytes_zero) thePool i sz 0 tg) in *.
  assert (Hlt : (0 < length bufs0)%nat) by (by eapply lookup_lt_Some).
  set (b2 := set_bytes (bytes_Write growCap data (Buffer_bytes b1)) b1).
  assert (Hb1 : <[0%nat := b1]> bufs0 !! 0%nat = Some b1) by (by apply list_lookup_insert_eq).
  pose proof (Core_Write _ _ _ _ _ _ _ (bytes_Write growCap data (Buffer_bytes b1)) HC1 Hb1)
    as HC2.
  rewrite list_insert_insert_eq in HC2. fold b2 in HC2.
  assert (Hocc1 : occupied (<[Z.to_nat i := Some 0%nat]> slots0) ≡ₚ [0%nat]).
  { rewrite (occupied_claim _ _ 0%nat Hfree). by rewrite Hocc0. }
  match type of HC2 with Core _ _ _ ?P ?bufs =>
    set (w2 := mkWorld (Some P) bufs 0 []) end.
  assert (Hl2 : leased w2 0%nat).
  { unfold leased, inUse. cbn [w2 thepool buffersInUse]. apply elem_of_occupied.
    rewrite Hocc1. left. }
  destruct (Release_leased w2 N _ _ _ 0%nat eq_refl HC2 Hl2)
    as (b2' & Hb2' & _ & _ & _ & Hrel & HC3).
  unfold w2 in Hb2'. cbn [buffers] in Hb2'.
  rewrite list_lookup_insert_eq in Hb2' by done.
  assert (b2' = b2) as -> by congruence.
  cbn [w2 thepool buffers clock logged size count buffersAvailable buffersInUse
       chan_buf chan_cap] in Hrel, HC3.
  change (index b2) with i in Hrel, HC3.
  rewrite list_insert_insert_eq, (list_insert_id slots0) in Hrel, HC3 by done.
  rewrite list_insert_insert_eq in Hrel, HC3.
  eexists. exists 0%nat. eexists. exists w2, b2. eexists. eexists.
  split; [done|].
  split; [by rewrite (Acquire_run _ _ _ _ _ _ _ _ _ _ _ Hg Hb0)|].
  unfold claimSlot, acquired. rewrite Hi. cbn [Buffer_bytes pool origSize].
  fold b1.
  split; [by rewrite (Write_run _ _ _ _ _ _ _ _ Hb1), list_insert_insert_eq|].
  split; [by apply list_lookup_insert_eq|].
  split; [done|].
  split.
  { destruct (BuffersAvailable_Core N _ w2 _ eq_refl eq_refl HC2) as [Hba _].
    rewrite Hba. unfold inUse. cbn [w2 thepool buffersInUse]. by rewrite Hocc1. }
  split; [exact Hrel|].
  split.
  { match goal with |- BuffersAvailable _ ?w = _ =>
      destruct (BuffersAvailable_Core N _ w _ eq_refl eq_refl HC3) as [Hba _] end.
    rewrite Hba. unfold inUse. cbn [thepool buffersInUse]. rewrite Hocc0. simpl.
    do 2 f_equal. lia. }
  rewrite Free_run by done.
  assert (Hq : (Z.to_nat N <= length (seq 1 n ++ [0%nat]))%nat).
  { rewrite length_app, length_seq. simpl. lia. }
  rewrite decide_True by done.
  split; [done|]. unfold poolCount, available, inUse. cbn [thepool count buffersAvailable
    chan_buf buffersInUse logged].
  split; [done|].
  split; [by rewrite drop_ge by (rewrite length_app, length_seq; simpl; lia)|].
  split; [done|].
  unfold growthLog. rewrite Z.gtb_ltb. done.
Qed.

(** Calls on a consistent pool, one after the other. *)

Lemma Good_Acquire N hs w tg eb q :
  Good N hs w -> available w = eb :: q ->
  exists w',
    Acquire thePool tg w = Done (Some eb) w' /\
    Good N (eb :: hs) w' /\ available w' = q /\
    occupied (inUse w') ≡ₚ eb :: occupied (inUse w).
Proof.
  intros (P & HP & Hcnt & HC) Hq. unfold available, inUse in *. rewrite HP in *.
  open_world w P. subst cnt q0.
  pose proof (core_lock _ _ _ _ _ HC) as Hlk. simpl in Hlk. subst lk.
  pose proof (core_size _ _ _ _ _ HC) as Hsz. pose proof (core_N _ _ _ _ _ HC) as HN.
  simpl in Hsz.
  assert (Hg : (sz =? 0) || (N =? 0) = false).
  { apply orb_false_intro; apply Z.eqb_neq; lia. }
  destruct (Core_Acquire _ _ _ _ _ _ _ _ _ _ tg clk HC)
    as (b & i & Hb & Hi & Hi0 & Hfree & Hlow & HC').
  eexists. split; [by apply Acquire_run|]. simpl.
  split; [eexists; by split|]. split; [done|].
  unfold claimSlot. rewrite Hi. by apply occupied_claim.
Qed.

Lemma Good_Acquire_empty N hs w tg :
  Good N hs w -> available w = [] -> Acquire thePool tg w = Blocked w.
Proof.
  intros (P & HP & Hcnt & HC) Hq. unfold available in *. rewrite HP in *.
  open_world w P. subst cnt q.
  pose proof (core_size _ _ _ _ _ HC) as Hsz. pose proof (core_N _ _ _ _ _ HC) as HN.
  simpl in Hsz. apply Acquire_empty.
  apply orb_false_intro; apply Z.eqb_neq; lia.
Qed.

Lemma Good_acquireAll N hs w tags :
  Good N hs w -> (length tags <= length (available w))%nat ->
  exists hs' w',
    acquireAll tags w = Done (take (length tags) (available w)) w' /\
    Good N hs' w' /\ available w' = drop (length tags) (available w) /\
    occupied (inUse w') ≡ₚ take (length tags) (available w) ++ occupied (inUse w).
Proof.
  intros (P & HP & Hcnt & HC) Hlen. unfold available, inUse in *. rewrite HP in *.
  open_world w P. subst cnt.
  pose proof (core_lock _ _ _ _ _ HC) as Hlk. simpl in Hlk. subst lk.
  destruct (acquireAll_run N tags _ _ _ _ _ _ clk lg HC Hlen)
    as (hs' & inuse' & bufs' & Hrun & HC1 & Hocc).
  exists hs'. eexists. split; [exact Hrun|]. simpl.
  split; [eexists; by split|]. by split.
Qed.

Lemma Good_Release N hs w eb :
  Good N hs w -> eb ∈ occupied (inUse w) ->
  exists w',
    Release eb w = Done tt w' /\
    Good N hs w' /\ available w' = available w ++ [eb] /\
    occupied (inUse w) ≡ₚ eb :: occupied (inUse w').
Proof.
  intros (P & HP & Hcnt & HC) Hl.
  destruct (Release_leased w N hs [] P eb HP HC) as (b & Hb & _ & _ & Hslot & Hrun & HC').
  { by apply elem_of_occupied. }
  eexists. split; [exact Hrun|]. unfold available, inUse in *. rewrite HP in *. simpl.
  split; [eexists; by split|]. split; [done|]. by eapply occupied_clear.
Qed.

Lemma Good_releaseAll N hs w l :
  Good N hs w -> NoDup l -> (forall eb, eb ∈ l -> eb ∈ occupied (inUse w)) ->
  exists w',
    releaseAll l w = Done tt w' /\ Good N hs w' /\
    occupied (inUse w) ≡ₚ l ++ occupied (inUse w').
Proof.
  intros (P & HP & Hcnt & HC) Hnd Hall.
  destruct (releaseAll_run N hs l w P HP HC Hnd)
    as (w' & P' & Hrun & HP' & _ & Hcnt' & HC' & Hocc).
  { intros eb Hin. apply elem_of_occupied. by apply Hall. }
  exists w'. split; [done|]. split; [|done]. exists P'. split; [done|]. split; [congruence|done].
Qed.

Lemma Good_Free N hs w :
  Good N hs w -> occupied (inUse w) = [] ->
  exists w', Free thePool w = Done tt w' /\
             poolCount w' = 0 /\ available w' = [] /\ inUse w' = [].
Proof.
  intros (P & HP & Hcnt & HC) Hocc. unfold inUse, poolCount, available in *. rewrite HP in *.
  open_world w P. subst cnt.
  pose proof (core_lock _ _ _ _ _ HC) as Hlk. simpl in Hlk. subst lk.
  pose proof (core_size _ _ _ _ _ HC) as Hsz. pose proof (core_N _ _ _ _ _ HC) as HN.
  simpl in Hsz. pose proof (Core_total HC) as Htot. rewrite Hocc in Htot. simpl in Htot.
  rewrite Free_run by (apply orb_false_intro; apply Z.eqb_neq; lia).
  rewrite decide_True by lia. eexists. split; [done|]. simpl.
  split; [done|]. split; [by rewrite drop_ge by lia|done].
Qed.

(** Property X15. TestAcquireRelease, for every count, size and tags.  On a new
    pool of [N] buffers, one Acquire and then [N - 1] more return [N]
    distinct buffers; the next Acquire blocks, and changes nothing; once the
    first buffer is released that Acquire returns it; the [N] buffers of the
    loop are then released in the order they were acquired, and Free
    returns at once. *)
Theorem TestAcquireRelease_any_pool N sz tg0 tags tg :
  0 < N -> 0 < sz ->
  Z.of_nat (length tags) = N - 1 ->
  exists w0 b0 w1 ebs w2 w3 w4 w5 w6,
    NewPool growCap N sz emptyWorld = Done thePool w0 /\
    Acquire thePool tg0 w0 = Done (Some b0) w1 /\
    acquireAll tags w1 = Done ebs w2 /\
    length ebs = length tags /\ NoDup (b0 :: ebs) /\
    Acquire thePool tg w2 = Blocked w2 /\
    Release b0 w2 = Done tt w3 /\
    Acquire thePool tg w3 = Done (Some b0) w4 /\
    releaseAll (ebs ++ [b0]) w4 = Done tt w5 /\
    Free thePool w5 = Done tt w6 /\
    poolCount w6 = 0 /\ available w6 = [] /\ inUse w6 = [].
Proof.
  intros HN Hsz Hlen.
  assert (HG0 : Good N [] (mkWorld
            (Some (mkPool sz N false (mkChan (seq 0 (Z.to_nat N)) N)
                          (replicate (Z.to_nat N) None)))
            (replicate (Z.to_nat N)
               (mkBuffer (bytes_Grow growCap sz bytes_zero) thePool 0 sz 0 EmptyString))
            0 [])).
  { eexists. split; [done|]. split; [done|]. by apply Core_init. }
  rewrite NewPool_run by done.
  match type of HG0 with Good _ _ ?w => set (w0 := w) in * end.
  assert (Hq0 : available w0 = 0%nat :: seq 1 (length tags)).
  { unfold available. cbn [w0 thepool buffersAvailable chan_buf].
    replace (Z.to_nat N) with (S (length tags)) by lia. done. }
  assert (Hocc0 : occupied (inUse w0) = []).
  { unfold inUse. cbn [w0 thepool buffersInUse]. apply occupied_replicate. }
  destruct (Good_Acquire _ _ _ tg0 _ _ HG0 Hq0) as (w1 & Hrun1 & HG1 & Hq1 & Hocc1).
  rewrite Hocc0 in Hocc1.
  destruct (Good_acquireAll _ _ _ tags HG1) as (hs2 & w2 & Hrun2 & HG2 & Hq2 & Hocc2).
  { rewrite Hq1, length_seq. lia. }
  rewrite Hq1 in Hrun2, Hq2, Hocc2.
  rewrite take_ge in Hrun2, Hocc2 by (by rewrite length_seq).
  rewrite drop_ge in Hq2 by (by rewrite length_seq).
  rewrite Hocc1 in Hocc2.
  destruct (Good_Release _ _ _ 0%nat HG2) as (w3 & Hrun3 & HG3 & Hq3 & Hocc3).
  { rewrite Hocc2. apply elem_of_app. right. left. }
  rewrite Hq2 in Hq3. simpl in Hq3.
  destruct (Good_Acquire _ _ _ tg _ _ HG3 Hq3) as (w4 & Hrun4 & HG4 & Hq4 & Hocc4).
  assert (Hocc4' : occupied (inUse w4) ≡ₚ seq 1 (length tags) ++ [0%nat]).
  { by rewrite Hocc4, <- Hocc3, Hocc2. }
  assert (Hnd : NoDup (seq 1 (length tags) ++ [0%nat])).
  { rewrite <- Permutation_cons_append. apply (NoDup_seq 0 (S (length tags))). }
  destruct (Good_releaseAll _ _ _ _ HG4 Hnd) as (w5 & Hrun5 & HG5 & Hocc5).
  { intros eb Hin. by rewrite Hocc4'. }
  assert (Hocc5' : occupied (inUse w5) = []).
  { rewrite Hocc4' in Hocc5. apply Permutation_length in Hocc5.
    rewrite !length_app in Hocc5. apply length_zero_iff_nil. lia. }
  destruct (Good_Free _ _ _ HG5 Hocc5') as (w6 & Hrun6 & Hend).
  exists w0, 0%nat, w1, (seq 1 (length tags)), w2, w3, w4, w5, w6.
  split; [done|]. split; [done|]. split; [done|].
  split; [by rewrite length_seq|].
  split; [apply (NoDup_seq 0 (S (length tags)))|].
  split; [by eapply Good_Acquire_empty|].
  done.
Qed.

(** ** The guards *)

(** Property X16. The nil-pool guard of Release.  Release of a Buffer that has
    no pool, such as a zero Buffer the caller declared itself, returns at
    once and changes nothing: no log, no lock, no queue.  The buffers of a
    pool never become such buffers: in every state, also after Free has
    returned, each of them still points to the pool, so that for them
    Release never takes this early return. *)
Theorem Release_without_pool N sz s w eb b :
  reachable growCap N sz s ->
  0 < N -> 0 < sz ->
  buffers w !! eb = Some b ->
  pool b = nilPool ->
  Release eb w = Done tt w /\
  forall eb' b', buffers (world s) !! eb' = Some b' ->
    pool b' = thePool /\ Release eb' (world s) <> Done tt (world s).
Proof.
  intros Hr HN Hsz Hb Hp. split.
  { unfold Release. go_simpl. rewrite Hb. go_simpl. by rewrite Hp. }
  pose proof (reachable_Inv _ _ _ _ HN Hsz Hr) as HI.
  destruct (Inv_lock_pool _ _ HI) as (P & HP & Hlk & Hpool).
  intros eb' b' Hb'. split; [by eapply Hpool|].
  destruct s as [w1 hs pc m]. simpl in *. open_world w1 P. subst lk.
  rewrite (Release_run _ _ _ _ _ _ _ _ _ _ Hb' (Hpool _ _ Hb')).
  destruct ((0 <=? index b') && (index b' <? Z.of_nat (length inuse))); [|done].
  destruct (Z.of_nat (length q) <? cap); [|done].
  intros Heq. simplify_eq.
  match goal with H : _ ++ [_] = _ |- _ => apply (f_equal length) in H;
    rewrite length_app in H; simpl in H; lia end.
Qed.

(** Property X17. Free disables the pool at once.  Before Free is called,
    Acquire never returns nil: it returns a buffer or blocks.  From the
    moment Free has passed its guard, while it may still be waiting for
    buffers to come back, Acquire returns nil without blocking,
    BuffersAvailable returns 0 whatever the queue holds, and another call
    of Free returns at once without waiting. *)
Theorem Free_disables_pool N sz s tg :
  reachable growCap N sz s ->
  0 < N -> 0 < sz ->
  ((exists w', Acquire thePool tg (world s) = Done None w') <->
   freeing s <> FreeNotCalled) /\
  (freeing s <> FreeNotCalled ->
     Acquire thePool tg (world s) = Done None (world s) /\
     BuffersAvailable thePool (world s) = Done 0 (world s) /\
     Free thePool (world s) = Done tt (world s)).
Proof.
  intros Hr HN Hsz.
  destruct (reachable_Inv _ _ _ _ HN Hsz Hr) as (P & HP & Hpc).
  destruct s as [w hs pc m]. simpl in *. open_world w P.
  assert (Hoff : cnt = 0 ->
    Acquire thePool tg (mkWorld (Some (mkPool sz0 cnt lk (mkChan q cap) inuse)) bufs clk lg)
    = Done None (mkWorld (Some (mkPool sz0 cnt lk (mkChan q cap) inuse)) bufs clk lg) /\
    BuffersAvailable thePool (mkWorld (Some (mkPool sz0 cnt lk (mkChan q cap) inuse)) bufs clk lg)
    = Done 0 (mkWorld (Some (mkPool sz0 cnt lk (mkChan q cap) inuse)) bufs clk lg) /\
    Free thePool (mkWorld (Some (mkPool sz0 cnt lk (mkChan q cap) inuse)) bufs clk lg)
    = Done tt (mkWorld (Some (mkPool sz0 cnt lk (mkChan q cap) inuse)) bufs clk lg)).
  { intros ->. assert (Hg : (sz0 =? 0) || (0 =? 0) = true) by apply orb_true_r.
    by rewrite Acquire_guard, BuffersAvailable_guard, Free_guard. }
  destruct pc as [|i c|].
  - destruct Hpc as [-> HC]. split; [|done].
    split; [|done]. intros [w' Hrun].
    pose proof (core_lock _ _ _ _ _ HC) as Hlk. simpl in Hlk. subst lk.
    pose proof (core_size _ _ _ _ _ HC) as Hsz'. simpl in Hsz'.
    assert (Hg : (sz0 =? 0) || (N =? 0) = false).
    { apply orb_false_intro; apply Z.eqb_neq; lia. }
    destruct q as [|eb q]; [by rewrite Acquire_empty in Hrun|].
    destruct (Core_Acquire _ _ _ _ _ _ _ _ _ _ tg clk HC) as (b & i & Hb & _).
    by rewrite (Acquire_run _ _ _ _ _ _ _ _ _ _ _ Hg Hb) in Hrun.
  - destruct Hpc as (Hc & _). destruct (Hoff Hc) as (Ha & Hb & Hf).
    split; [|done]. split; [done|]. intros _. by eexists.
  - destruct Hpc as (Hc & _). destruct (Hoff Hc) as (Ha & Hb & Hf).
    split; [|done]. split; [done|]. intros _. by eexists.
Qed.

(** ** Rounds of Acquire, Write and Release *)

Lemma increasing_snoc l : forall lo a,
  increasing lo l -> Forall (fun x => x < a) l -> lo < a -> increasing lo (l ++ [a]).
Proof.
  induction l as [|x l IH]; intros lo a Hinc Hall Hlo; simpl; [done|].
  destruct Hinc as [Hx Hinc]. apply Forall_cons in Hall as [Hxa Hall].
  split; [done|]. by apply IH.
Qed.

Lemma warnedCaps_app lg lg' : warnedCaps (lg ++ lg') = warnedCaps lg ++ warnedCaps lg'.
Proof. unfold warnedCaps. apply omap_app. Qed.

Lemma Good_Acquire_buffer N hs w tg eb q :
  Good N hs w -> available w = eb :: q ->
  exists w' b b',
    Acquire thePool tg w = Done (Some eb) w' /\
    Good N (eb :: hs) w' /\ available w' = q /\
    eb ∈ occupied (inUse w') /\
    logged w' = logged w /\ poolSize w' = poolSize w /\
    buffers w !! eb = Some b /\ buffers w' !! eb = Some b' /\
    origSize b' = origSize b /\ tag b' = tg.
Proof.
  intros (P & HP & Hcnt & HC) Hq. unfold available, inUse, poolSize in *. rewrite HP in *.
  open_world w P. subst cnt q0.
  pose proof (core_lock _ _ _ _ _ HC) as Hlk. simpl in Hlk. subst lk.
  pose proof (core_size _ _ _ _ _ HC) as Hsz. pose proof (core_N _ _ _ _ _ HC) as HN.
  simpl in Hsz.
  assert (Hg : (sz =? 0) || (N =? 0) = false).
  { apply orb_false_intro; apply Z.eqb_neq; lia. }
  destruct (Core_Acquire _ _ _ _ _ _ _ _ _ _ tg clk HC)
    as (b & i & Hb & Hi & Hi0 & Hfree & Hlow & HC').
  eexists. exists b. eexists. split; [by apply Acquire_run|]. simpl.
  split; [eexists; by split|]. split; [done|].
  split.
  { unfold claimSlot. rewrite Hi. rewrite (occupied_claim _ _ eb Hfree). left. }
  do 3 (split; [done|]).
  split; [apply list_lookup_insert_eq; by eapply lookup_lt_Some|]. done.
Qed.

Lemma Good_writeAll N hs chunks : forall w eb b,
  Good N hs w -> buffers w !! eb = Some b ->
  exists w' b',
    writeAll growCap eb chunks w = Done tt w' /\
    Good N hs w' /\ thepool w' = thepool w /\ logged w' = logged w /\
    buffers w' !! eb = Some b' /\
    origSize b' = origSize b /\ tag b' = tag b.
Proof.
  induction chunks as [|p chunks IH]; intros w eb b HG Hb.
  - exists w, b. by repeat split.
  - destruct HG as (P & HP & Hcnt & HC).
    destruct w as [pp bufs clk lg]. simpl in *. subst pp.
    pose proof (Core_Write _ _ _ _ _ _ _ (bytes_Write growCap p (Buffer_bytes b)) HC Hb)
      as HC1.
    destruct (IH (mkWorld (Some P)
                    (<[eb := set_bytes (bytes_Write growCap p (Buffer_bytes b)) b]> bufs)
                    clk lg) eb (set_bytes (bytes_Write growCap p (Buffer_bytes b)) b))
      as (w' & b' & Hrun & HG' & Hpool' & Hlog' & Hb' & Ho' & Ht').
    { exists P. by split. }
    { apply list_lookup_insert_eq. by eapply lookup_lt_Some. }
    exists w', b'. cbn [writeAll]. unfold bind at 1.
    rewrite (Write_run _ _ _ _ _ _ _ _ Hb). by repeat split.
Qed.

Lemma Good_Release_buffer N hs w eb b :
  Good N hs w -> eb ∈ occupied (inUse w) -> buffers w !! eb = Some b ->
  exists w',
    Release eb w = Done tt w' /\
    Good N hs w' /\ available w' = available w ++ [eb] /\
    poolSize w' = poolSize w /\
    logged w' = logged w ++ growthLog (poolSize w) b /\
    buffers w' !! eb = Some (released b).
Proof.
  intros (P & HP & Hcnt & HC) Hl Hb.
  destruct (Release_leased w N hs [] P eb HP HC) as (b0 & Hb0 & _ & _ & Hslot & Hrun & HC').
  { by apply elem_of_occupied. }
  assert (b0 = b) as -> by congruence.
  eexists. split; [exact Hrun|]. unfold available, inUse, poolSize in *. rewrite HP in *. simpl.
  split; [eexists; by split|]. do 3 (split; [done|]).
  apply list_lookup_insert_eq. by eapply lookup_lt_Some.
Qed.

(** The rounds on a pool of one buffer that is in the queue. *)
Lemma rounds_run sz tg data : forall hs w b,
  Good 1 hs w -> available w = [0%nat] -> poolSize w = sz ->
  buffers w !! 0%nat = Some b -> sz <= origSize b ->
  increasing sz (warnedCaps (logged w)) ->
  Forall (fun a => a <= origSize b) (warnedCaps (logged w)) ->
  Forall (fun e => exists a, e = WarnAllocated tg a sz) (logged w) ->
  exists hs' w',
    rounds growCap tg data w = Done tt w' /\
    Good 1 hs' w' /\ available w' = [0%nat] /\
    increasing sz (warnedCaps (logged w')) /\
    Forall (fun e => exists a, e = WarnAllocated tg a sz) (logged w').
Proof.
  induction data as [|chunks data IH]; intros hs w b HG Hq Hsz Hb Hhi Hinc Hle Hev.
  - exists hs, w. by repeat split.
  - destruct (Good_Acquire_buffer _ _ _ tg _ _ HG Hq)
      as (w1 & b0 & b1 & Hrun1 & HG1 & Hq1 & Hl1 & Hlog1 & Hsz1 & Hb0 & Hb1 & Ho1 & Ht1).
    assert (b0 = b) as -> by congruence.
    destruct (Good_writeAll _ _ chunks _ _ _ HG1 Hb1)
      as (w2 & b2 & Hrun2 & HG2 & Hpool2 & Hlog2 & Hb2 & Ho2 & Ht2).
    assert (Hl2 : 0%nat ∈ occupied (inUse w2)).
    { unfold inUse in *. by rewrite Hpool2. }
    destruct (Good_Release_buffer _ _ _ _ _ HG2 Hl2 Hb2)
      as (w3 & Hrun3 & HG3 & Hq3 & Hsz3 & Hlog3 & Hb3).
    assert (Hsz2 : poolSize w2 = sz).
    { unfold poolSize in *. rewrite Hpool2. congruence. }
    assert (Hq2 : available w2 = []).
    { unfold available in *. by rewrite Hpool2. }
    rewrite Hq2 in Hq3. simpl in Hq3.
    rewrite Hsz2, Hlog2, Hlog1 in Hlog3.
    pose proof (origSize_released b2) as [Hr1 Hr2].
    assert (Hgl : growthLog sz b2
                  = if Cap b2 >? origSize b2 then [WarnAllocated tg (Cap b2) sz] else []).
    { unfold growthLog. by rewrite Ht2, Ht1. }
    rewrite Hgl in Hlog3.
    destruct (IH (0%nat :: hs) w3 (released b2)) as (hs3 & w4 & Hrun4 & HG4 & Hq4 & Hinc4 & Hev4);
      try done.
    + congruence.
    + lia.
    + rewrite Hlog3, warnedCaps_app.
      destruct (Cap b2 >? origSize b2) eqn:Hgt; [|by rewrite app_nil_r].
      apply Z.gtb_lt in Hgt. apply increasing_snoc; [done| |lia].
      eapply Forall_impl; [exact Hle|]. simpl. intros a Ha. lia.
    + rewrite Hlog3, warnedCaps_app. apply Forall_app. split.
      * eapply Forall_impl; [exact Hle|]. cbv beta. intros a Ha. lia.
      * destruct (Cap b2 >? origSize b2); [|done]. constructor; [|done]. lia.
    + rewrite Hlog3. apply Forall_app. split; [done|].
      destruct (Cap b2 >? origSize b2); [|done]. constructor; [|done]. by eexists.
    + exists hs3, w4. split; [|done].
      cbn [rounds]. unfold bind at 1. unfold round. unfold bind at 1. rewrite Hrun1.
      unfold bind at 1. rewrite Hrun2. by rewrite Hrun3.
Qed.

(** Property X18. TestOverflow, for every size, tag and data.  On a pool of one
    buffer, any number of rounds of Acquire, writes and Release runs to its
    end without blocking, every round on the same buffer, and leaves the
    buffer available.  Every event logged is a growth warning with the tag
    of the caller and the size of the pool, and each warning reports a
    capacity greater than the one before it, the first one greater than the
    size: a growth is reported once. *)
Theorem TestOverflow_any_rounds sz tg data :
  0 < sz ->
  exists w0 w',
    NewPool growCap 1 sz emptyWorld = Done thePool w0 /\
    rounds growCap tg data w0 = Done tt w' /\
    BuffersAvailable thePool w' = Done 1 w' /\
    available w' = [0%nat] /\
    Forall (fun e => exists a, e = WarnAllocated tg a sz) (logged w') /\
    increasing sz (warnedCaps (logged w')).
Proof.
  intros Hsz. rewrite NewPool_run by lia.
  pose proof (Core_init growCap 1 sz ltac:(lia) Hsz) as HC0.
  match type of HC0 with Core _ _ _ ?P ?bufs =>
    assert (HG0 : Good 1 [] (mkWorld (Some P) bufs 0 [])) by (eexists; by split) end.
  destruct (rounds_run sz tg data _ _ _ HG0 eq_refl eq_refl eq_refl)
    as (hs' & w' & Hrun & (P & HP & Hcnt & HC) & Hq & Hinc & Hev); try done.
  eexists. exists w'. split; [done|]. split; [exact Hrun|].
  split; [|done].
  destruct (BuffersAvailable_Core 1 _ _ _ HP Hcnt HC) as [Hba _]. rewrite Hba.
  pose proof (core_perm _ _ _ _ _ HC) as Hperm.
  unfold available, inUse in *. rewrite HP in *. rewrite Hq in Hperm.
  apply Permutation_length in Hperm. rewrite app_nil_r, length_app in Hperm.
  simpl in Hperm.
  replace (length (occupied (buffersInUse P))) with 0%nat by lia. done.
Qed.
End Extras.

(** ** The properties on the pool of two buffers *)

Lemma goGrow_growsWell : growsWell goGrow.
Proof.
  intros c l n Hl Hn. unfold goGrow.
  destruct (Z.leb_spec n (c - l)); [lia|].
  destruct (Z.eqb_spec c 0); simpl; [|lia].
  destruct (Z.leb_spec n 64); lia.
Qed.

Lemma NewPool_creates_witness :
  exists w,
    NewPool goGrow 2 8 emptyWorld = Done thePool w /\
    poolCount w = 2 /\ poolSize w = 8 /\
    available w = seq 0 (Z.to_nat 2) /\
    inUse w = replicate (Z.to_nat 2) None /\
    length (buffers w) = Z.to_nat 2 /\
    (forall eb b, buffers w !! eb = Some b ->
       pool b = thePool /\ Len b = 0 /\ Cap b = goGrow 0 0 8 /\
       origSize b = 8 /\ index b = 0 /\ tag b = EmptyString) /\
    logged w = [] /\
    BuffersAvailable thePool w = Done 2 w.
Proof. apply (NewPool_creates goGrow 2 8); lia. Defined.

Lemma Acquire_blocks_when_exhausted_witness :
  BuffersAvailable thePool pool2_full
  = Done (Z.of_nat (length (available pool2_full))) pool2_full /\
  match available pool2_full with
  | [] => Acquire thePool "c" pool2_full = Blocked pool2_full
  | eb :: _ => exists w', Acquire thePool "c" pool2_full = Done (Some eb) w'
  end.
Proof.
  pose proof (Acquire_blocks_when_exhausted goGrow 2 8
                (mkSys pool2_full [1%nat; 0%nat] FreeNotCalled true) "c") as H.
  cbn [world] in H. apply H; clear H.
  - exists thePool, pool2. split; [reflexivity|].
    eapply rtc_l; [|eapply rtc_l; [|apply rtc_refl]].
    + apply (step_Acquire goGrow pool2 [] FreeNotCalled true "a" 0%nat pool2_half).
      vm_compute. reflexivity.
    + apply (step_Acquire goGrow pool2_half [0%nat] FreeNotCalled true "b" 1%nat pool2_full).
      vm_compute. reflexivity.
  - eexists. split; [reflexivity|]. simpl. lia.
Defined.

Lemma Acquire_exclusive_witness :
  ~ leased pool2 0%nat /\ leased pool2_leased 0%nat /\
  (forall eb', eb' <> 0%nat ->
     (leased pool2_leased eb' <-> leased pool2 eb') /\
     buffers pool2_leased !! eb' = buffers pool2 !! eb') /\
  logged pool2_leased = logged pool2 /\ clock pool2_leased = clock pool2 /\
  poolCount pool2_leased = poolCount pool2.
Proof.
  pose proof (Acquire_exclusive goGrow 2 8 (mkSys pool2 [] FreeNotCalled true) "t" 0%nat
                pool2_leased) as H.
  cbn [world] in H. apply H; clear H.
  - exists thePool, pool2. split; [reflexivity|]. apply rtc_refl.
  - vm_compute. reflexivity.
Defined.

Lemma Acquire_Release_restores_witness :
  exists w2 q b b2,
    Release 0%nat pool2_leased = Done tt w2 /\
    available pool2 = 0%nat :: q /\ available w2 = q ++ [0%nat] /\
    inUse w2 = inUse pool2 /\
    poolCount w2 = poolCount pool2 /\
    (forall eb', eb' <> 0%nat -> buffers w2 !! eb' = buffers pool2 !! eb') /\
    buffers pool2 !! 0%nat = Some b /\ buffers w2 !! 0%nat = Some b2 /\
    Len b2 = 0 /\ Cap b2 = Cap b /\ tag b2 = EmptyString /\ index b2 = -1.
Proof.
  pose proof (Acquire_Release_restores goGrow 2 8 (mkSys pool2 [] FreeNotCalled true) "t"
                0%nat pool2_leased) as H.
  cbn [world] in H. apply H; clear H.
  - exists thePool, pool2. split; [reflexivity|]. apply rtc_refl.
  - vm_compute. reflexivity.
Defined.

Lemma Acquire_fifo_witness :
  exists w',
    acquireAll ["a"; "b"] pool2_released
    = Done (take (length ["a"; "b"]) (available pool2_released)) w' /\
    available w' = drop (length ["a"; "b"]) (available pool2_released) /\
    (forall eb, eb ∈ take (length ["a"; "b"]) (available pool2_released) -> leased w' eb) /\
    (forall eb, leased pool2_released eb -> leased w' eb).
Proof.
  pose proof (Acquire_fifo goGrow 2 8 (mkSys pool2_released [0%nat] FreeNotCalled true)
                ["a"; "b"]) as H.
  cbn [world] in H. apply H; clear H.
  - exists thePool, pool2. split; [reflexivity|].
    eapply rtc_l; [|eapply rtc_l; [|apply rtc_refl]].
    + apply (step_Acquire goGrow pool2 [] FreeNotCalled true "t" 0%nat pool2_leased).
      vm_compute. reflexivity.
    + apply (step_Release goGrow pool2_leased [0%nat] FreeNotCalled true 0%nat
               pool2_released); [left|vm_compute; reflexivity].
  - eexists. split; [reflexivity|]. simpl. lia.
  - simpl. lia.
Defined.

Lemma Release_then_Acquire_witness :
  exists w1 w2 b2,
    Release 1%nat pool2_full = Done tt w1 /\
    Acquire thePool "c" w1 = Done (Some 1%nat) w2 /\
    inUse w2 = inUse pool2_full /\ available w2 = [] /\
    buffers w2 !! 1%nat = Some b2 /\
    index b2 = index (mkBuffer (mkBytes [] 64) thePool 1 8 0 "b") /\
    tag b2 = "c" /\ acquiredAt b2 = clock pool2_full /\
    Len b2 = 0 /\ Cap b2 = Cap (mkBuffer (mkBytes [] 64) thePool 1 8 0 "b").
Proof.
  pose proof (Release_then_Acquire goGrow 2 8
                (mkSys pool2_full [1%nat; 0%nat] FreeNotCalled true) 1%nat
                (mkBuffer (mkBytes [] 64) thePool 1 8 0 "b") "c") as H.
  cbn [world] in H. apply H; clear H.
  - exists thePool, pool2. split; [reflexivity|].
    eapply rtc_l; [|eapply rtc_l; [|apply rtc_refl]].
    + apply (step_Acquire goGrow pool2 [] FreeNotCalled true "a" 0%nat pool2_half).
      vm_compute. reflexivity.
    + apply (step_Acquire goGrow pool2_half [0%nat] FreeNotCalled true "b" 1%nat pool2_full).
      vm_compute. reflexivity.
  - eexists. split; [reflexivity|]. simpl. lia.
  - reflexivity.
  - unfold leased. simpl. right. left.
  - reflexivity.
Defined.

Lemma Release_panic_keeps_lock_witness :
  (exists P', thepool pool2_panicked = Some P' /\ lock P' = true) /\
  poolMonitor_iter thePool pool2_panicked = Blocked pool2_panicked /\
  (forall eb', is_Some (buffers pool2_panicked !! eb') ->
     exists w'', Release eb' pool2_panicked = Blocked w'') /\
  (valid pool2_panicked ->
     BuffersAvailable thePool pool2_panicked = Blocked pool2_panicked /\
     Free thePool pool2_panicked = Blocked pool2_panicked /\
     forall tg, exists w'', Acquire thePool tg pool2_panicked = Blocked w'').
Proof.
  pose proof (Release_panic_keeps_lock goGrow 2 8
                (mkSys pool2_released [0%nat] FreeNotCalled true) 0%nat
                (mkBuffer (mkBytes [] 64) thePool (-1) 64 0 EmptyString)
                pool2_panicked) as H.
  cbn [world] in H. apply H; clear H.
  - exists thePool, pool2. split; [reflexivity|].
    eapply rtc_l; [|eapply rtc_l; [|apply rtc_refl]].
    + apply (step_Acquire goGrow pool2 [] FreeNotCalled true "t" 0%nat pool2_leased).
      vm_compute. reflexivity.
    + apply (step_Release goGrow pool2_leased [0%nat] FreeNotCalled true 0%nat
               pool2_released); [left|vm_compute; reflexivity].
  - lia.
  - lia.
  - reflexivity.
  - vm_compute. reflexivity.
Defined.

Lemma poolMonitor_alone_witness :
  (poolCount pool2_late <> 0 ->
     poolMonitor thePool 2 pool2_late
     = Done true
         (set_clock (clock pool2_late + Z.of_nat 2 * Second)
            (set_logged
               (logged pool2_late
                ++ monitorLog (buffers pool2_late) (inUse pool2_late) (clock pool2_late) 2)
               pool2_late)) /\
     forall eb b k,
       leased pool2_late eb -> buffers pool2_late !! eb = Some b ->
       acquiredAt b + 100 * Millisecond < clock pool2_late ->
       (k < 2)%nat ->
       WarnHeld (tag b) (clock pool2_late + Z.of_nat k * Second - acquiredAt b)
       ∈ monitorLog (buffers pool2_late) (inUse pool2_late) (clock pool2_late) 2) /\
  (poolCount pool2_late = 0 ->
     poolMonitor thePool 3 pool2_late
     = Done false (set_logged (logged pool2_late ++ [DebugMonitorExiting]) pool2_late)).
Proof.
  pose proof (poolMonitor_alone goGrow 2 8 (mkSys pool2_late [0%nat] FreeNotCalled true) 2)
    as H.
  cbn [world] in H. apply H; clear H.
  - exists thePool, pool2. split; [reflexivity|].
    eapply rtc_l; [|eapply rtc_l; [|apply rtc_refl]].
    + apply (step_Acquire goGrow pool2 [] FreeNotCalled true "t" 0%nat pool2_leased).
      vm_compute. reflexivity.
    + apply (step_tick goGrow pool2_leased [0%nat] FreeNotCalled true Second).
      unfold Second, Millisecond. lia.
  - lia.
  - lia.
Defined.

Lemma log_justified_witness :
  Forall (justified 2 8) (logged pool2_released).
Proof.
  pose proof (log_justified goGrow 2 8 (mkSys pool2_released [0%nat] FreeNotCalled true)) as H.
  cbn [world] in H. apply H; clear H.
  exists thePool, pool2. split; [reflexivity|].
  eapply rtc_l; [|eapply rtc_l; [|apply rtc_refl]].
  - apply (step_Acquire goGrow pool2 [] FreeNotCalled true "t" 0%nat pool2_leased).
    vm_compute. reflexivity.
  - apply (step_Release goGrow pool2_leased [0%nat] FreeNotCalled true 0%nat
             pool2_released); [left|vm_compute; reflexivity].
Defined.

Lemma watchdog_exits_once_witness :
  (false = true -> exitCount (logged pool2_stopped) = 0%nat) /\
  (false = false ->
     exitCount (logged pool2_stopped) = 1%nat /\
     FreeDraining 0 2 <> FreeNotCalled /\ poolCount pool2_stopped = 0 /\
     forall s', rtc (step goGrow) (mkSys pool2_stopped [] (FreeDraining 0 2) false) s' ->
       watching s' = false /\ exitCount (logged (world s')) = 1%nat).
Proof.
  pose proof (watchdog_exits_once goGrow 2 8
                (mkSys pool2_stopped [] (FreeDraining 0 2) false)) as H.
  cbn [world freeing watching] in H. apply H; clear H.
  - exists thePool, pool2. split; [reflexivity|].
    eapply rtc_l; [|eapply rtc_l; [|apply rtc_refl]].
    + apply (step_Free goGrow pool2 [] FreeNotCalled true (FreeDraining 0 2) pool2_freeing);
        [discriminate|vm_compute; reflexivity].
    + apply (step_poolMonitor goGrow pool2_freeing [] (FreeDraining 0 2) false pool2_stopped).
      vm_compute. reflexivity.
  - lia.
  - lia.
Defined.

Lemma capacity_kept_witness :
  (forall eb b, buffers pool2_leased !! eb = Some b ->
     8 <= Cap b /\ Len b <= Cap b) /\
  (forall s' eb b,
     rtc (step goGrow) (mkSys pool2_leased [0%nat] FreeNotCalled true) s' ->
     buffers pool2_leased !! eb = Some b ->
     exists b', buffers (world s') !! eb = Some b' /\ Cap b <= Cap b').
Proof.
  pose proof (capacity_kept goGrow 2 8 (mkSys pool2_leased [0%nat] FreeNotCalled true)) as H.
  cbn [world] in H. apply H; clear H.
  - exact goGrow_growsWell.
  - exists thePool, pool2. split; [reflexivity|].
    eapply rtc_l; [|apply rtc_refl].
    apply (step_Acquire goGrow pool2 [] FreeNotCalled true "t" 0%nat pool2_leased).
    vm_compute. reflexivity.
  - lia.
  - lia.
Defined.

Lemma Release_warns_on_overallocation_witness :
  8 < Cap (mkBuffer (mkBytes [] 64) thePool 0 8 0 "t") /\
  exists w',
    Release 0%nat pool2_leased = Done tt w' /\
    logged w'
    = logged pool2_leased
      ++ [WarnAllocated (tag (mkBuffer (mkBytes [] 64) thePool 0 8 0 "t"))
                        (Cap (mkBuffer (mkBytes [] 64) thePool 0 8 0 "t")) 8].
Proof.
  pose proof (Release_warns_on_overallocation goGrow 2 8
                (mkSys pool2_leased [0%nat] FreeNotCalled true) 0%nat
                (mkBuffer (mkBytes [] 64) thePool 0 8 0 "t")) as H.
  cbn [world] in H. apply H; clear H.
  - exact goGrow_growsWell.
  - vm_compute. reflexivity.
  - exists thePool, pool2. split; [reflexivity|].
    eapply rtc_l; [|apply rtc_refl].
    apply (step_Acquire goGrow pool2 [] FreeNotCalled true "t" 0%nat pool2_leased).
    vm_compute. reflexivity.
  - unfold leased. simpl. left.
  - vm_compute. reflexivity.
  - reflexivity.
Defined.

Lemma queue_stays_clean_witness :
  (forall w0, NewPool goGrow 2 8 emptyWorld = Done thePool w0 -> queueClean w0) /\
  (forall tg r w', Acquire thePool tg pool2 = Done r w' ->
     queueClean w' /\
     forall eb, r = Some eb -> exists b, buffers w' !! eb = Some b /\ Len b = 0) /\
  (forall eb w', Release eb pool2 = Done tt w' -> queueClean w') /\
  (forall eb data n w',
     leased pool2 eb ->
     Write goGrow eb data pool2 = Done n w' -> queueClean w') /\
  (forall pc' w',
     Free_step thePool FreeNotCalled pool2 = Done pc' w' -> queueClean w') /\
  (forall n w', BuffersAvailable thePool pool2 = Done n w' -> queueClean w') /\
  (forall again w', poolMonitor_iter thePool pool2 = Done again w' -> queueClean w') /\
  (forall eb data,
     eb ∈ available pool2 -> data <> [] ->
     exists w', Write goGrow eb data pool2 = Done (Z.of_nat (length data)) w' /\
                ~ queueClean w').
Proof.
  pose proof (queue_stays_clean goGrow 2 8 (mkSys pool2 [] FreeNotCalled true)) as H.
  cbn [world freeing] in H. apply H; clear H.
  - exists thePool, pool2. split; [reflexivity|]. apply rtc_refl.
  - lia.
  - lia.
  - intros eb Hin. change (eb ∈ [0%nat; 1%nat]) in Hin.
    apply elem_of_cons in Hin as [->|Hin];
      [|apply elem_of_cons in Hin as [->|Hin]; [|by apply elem_of_nil in Hin]];
      eexists; (split; reflexivity).
Defined.

Lemma TestBasic_any_pool_witness :
  exists w0 eb w1 w2 b w3 w4,
    NewPool goGrow 10 1000 emptyWorld = Done thePool w0 /\
    Acquire thePool "TestBasic" w0 = Done (Some eb) w1 /\
    Write goGrow eb ["H"; "e"; "l"; "l"; "o"]%byte w1
    = Done (Z.of_nat (length ["H"; "e"; "l"; "l"; "o"]%byte)) w2 /\
    buffers w2 !! eb = Some b /\ Bytes b = ["H"; "e"; "l"; "l"; "o"]%byte /\
    BuffersAvailable thePool w2 = Done (10 - 1) w2 /\
    Release eb w2 = Done tt w3 /\
    BuffersAvailable thePool w3 = Done 10 w3 /\
    Free thePool w3 = Done tt w4 /\
    poolCount w4 = 0 /\ available w4 = [] /\ inUse w4 = [] /\
    logged w4 = if 1000 <? Cap b then [WarnAllocated "TestBasic" (Cap b) 1000] else [].
Proof.
  apply (TestBasic_any_pool goGrow 10 1000 "TestBasic" ["H"; "e"; "l"; "l"; "o"]%byte); lia.
Defined.

Lemma TestAcquireRelease_any_pool_witness :
  exists w0 b0 w1 ebs w2 w3 w4 w5 w6,
    NewPool goGrow 2 8 emptyWorld = Done thePool w0 /\
    Acquire thePool "a" w0 = Done (Some b0) w1 /\
    acquireAll ["b"] w1 = Done ebs w2 /\
    length ebs = length ["b"] /\ NoDup (b0 :: ebs) /\
    Acquire thePool "c" w2 = Blocked w2 /\
    Release b0 w2 = Done tt w3 /\
    Acquire thePool "c" w3 = Done (Some b0) w4 /\
    releaseAll (ebs ++ [b0]) w4 = Done tt w5 /\
    Free thePool w5 = Done tt w6 /\
    poolCount w6 = 0 /\ available w6 = [] /\ inUse w6 = [].
Proof.
  apply (TestAcquireRelease_any_pool goGrow 2 8 "a" ["b"] "c"); [lia|lia|reflexivity].
Defined.

Lemma Release_without_pool_witness :
  Release 0%nat stray = Done tt stray /\
  forall eb' b', buffers pool2_freeing !! eb' = Some b' ->
    pool b' = thePool /\ Release eb' pool2_freeing <> Done tt pool2_freeing.
Proof.
  pose proof (Release_without_pool goGrow 2 8
                (mkSys pool2_freeing [] (FreeDraining 0 2) true) stray 0%nat
                (mkBuffer bytes_zero nilPool 0 0 0 EmptyString)) as H.
  cbn [world] in H. apply H; clear H.
  - exists thePool, pool2. split; [reflexivity|].
    eapply rtc_l; [|apply rtc_refl].
    apply (step_Free goGrow pool2 [] FreeNotCalled true (FreeDraining 0 2) pool2_freeing);
      [discriminate|vm_compute; reflexivity].
  - lia.
  - lia.
  - reflexivity.
  - reflexivity.
Defined.

Lemma Free_disables_pool_witness :
  ((exists w', Acquire thePool "t" pool2_freeing = Done None w') <->
   FreeDraining 0 2 <> FreeNotCalled) /\
  (FreeDraining 0 2 <> FreeNotCalled ->
     Acquire thePool "t" pool2_freeing = Done None pool2_freeing /\
     BuffersAvailable thePool pool2_freeing = Done 0 pool2_freeing /\
     Free thePool pool2_freeing = Done tt pool2_freeing).
Proof.
  pose proof (Free_disables_pool goGrow 2 8
                (mkSys pool2_freeing [] (FreeDraining 0 2) true) "t") as H.
  cbn [world freeing] in H. apply H; clear H.
  - exists thePool, pool2. split; [reflexivity|].
    eapply rtc_l; [|apply rtc_refl].
    apply (step_Free goGrow pool2 [] FreeNotCalled true (FreeDraining 0 2) pool2_freeing);
      [discriminate|vm_compute; reflexivity].
  - lia.
  - lia.
Defined.

Lemma TestOverflow_any_rounds_witness :
  exists w0 w',
    NewPool goGrow 1 1024 emptyWorld = Done thePool w0 /\
    rounds goGrow "TestOverflow"
      [replicate 4 [x01; x02; x03; x04]; replicate 5 [x01; x02; x03; x04]]%byte w0
    = Done tt w' /\
    BuffersAvailable thePool w' = Done 1 w' /\
    available w' = [0%nat] /\
    Forall (fun e => exists a, e = WarnAllocated "TestOverflow" a 1024) (logged w') /\
    increasing 1024 (warnedCaps (logged w')).
Proof.
  apply (TestOverflow_any_rounds goGrow 1024 "TestOverflow"
           [replicate 4 [x01; x02; x03; x04]; replicate 5 [x01; x02; x03; x04]]%byte).
  lia.
Defined.
